(** * PSC: mesh spatial-decomposition engine

    A shallow embedding of [src/bvh.c] and [src/convex_decomposition.c]
    (bounding-volume tree, X-slab partition index, approximate / hierarchical /
    voxel decomposition) together with the properties of the specification.

    Conventions of the embedding

    - [float] is IEEE-754 binary32, taken from the executable specification
      [SpecFloat] at precision 24 and maximal exponent 128; every arithmetic
      operation of the C code is one correctly rounded operation here.
    - a C array together with its element count is a [list]; an [unsigned int]
      counter that is only ever the length of such an array is a [nat]; the
      [capacity] fields, which the code doubles, are [N] with the 32-bit
      wrap-around written out.
    - [qsort_r] is a library routine: the build functions take it as a
      parameter and the theorems state which part of its contract they use.
    - heap objects of the decomposer live in an explicit store; [free] removes
      the block, and reading a removed block is undefined behaviour.
    - allocation itself is assumed to succeed, except for the requests whose
      outcome the C library fixes (sizes of zero and sizes beyond the address
      space). *)

From Stdlib Require Import ZArith NArith List Bool Lia Sorting.Sorted QArith.
From Stdlib Require Import Lqa Qfield.
From Stdlib Require Import Floats.SpecFloat.
From stdpp Require Import base option list gmap.

Open Scope Z_scope.

(** ** Single-precision floating point *)

Module F32.

Definition prec : Z := 24.
Definition emax : Z := 128.

Definition float : Type := spec_float.

Definition add : float -> float -> float := SFadd prec emax.
Definition sub : float -> float -> float := SFsub prec emax.
Definition mul : float -> float -> float := SFmul prec emax.
Definition div : float -> float -> float := SFdiv prec emax.
Definition opp : float -> float := SFopp.

(** [a < b], [a <= b], [a > b], [a >= b]: all false on a NaN operand. *)
Definition ltb (a b : float) : bool := SFltb a b.
Definition leb (a b : float) : bool := SFleb a b.
Definition gtb (a b : float) : bool := SFltb b a.
Definition geb (a b : float) : bool := SFleb b a.

(** Conversion of an unsigned integer, rounding to nearest even. *)
Definition of_Z (z : Z) : float := binary_normalize prec emax z 0 false.
Definition of_nat (n : nat) : float := of_Z (Z.of_nat n).

Definition zero : float := S754_zero false.
Definition one : float := Eval vm_compute in of_Z 1.
Definition two : float := Eval vm_compute in of_Z 2.
Definition three : float := Eval vm_compute in of_Z 3.
(** The literal [0.1f]. *)
Definition tenth : float := S754_finite false 13421773 (-27).
Definition FLT_MAX : float := Eval vm_compute in SFmax_float prec emax.

Definition is_nan (x : float) : bool :=
  match x with S754_nan => true | _ => false end.

(** A finite number in canonical form: what a 32-bit pattern other than
    an infinity or a NaN decodes to. *)
Definition finite (x : float) : bool :=
  match x with
  | S754_zero _ => true
  | S754_finite _ m e => bounded prec emax m e
  | _ => false
  end.

(** The cast [(int) x]: truncation toward zero.  The C standard leaves the
    cast undefined when the truncated value does not fit [int] and for
    NaN and the infinities: [None]. *)
Definition to_int (x : float) : option Z :=
  match x with
  | S754_zero _ => Some 0
  | S754_finite s m e =>
      let a := match e with
               | Zneg p => Z.shiftr (Zpos m) (Zpos p)
               | _ => Z.shiftl (Zpos m) e
               end in
      let v := if s then - a else a in
      if (- 2147483648 <=? v) && (v <=? 2147483647) then Some v else None
  | _ => None
  end.

(** *** The order of the comparison operators

    Every number that is not a NaN has a rank in [Z * Z * Z]; the
    comparisons are the lexicographic order of the ranks. *)
Definition rank (x : float) : option (Z * Z * Z) :=
  match x with
  | S754_nan => None
  | S754_infinity true => Some (-2, 0, 0)
  | S754_infinity false => Some (2, 0, 0)
  | S754_zero _ => Some (0, 0, 0)
  | S754_finite true m e => Some (-1, - e, - Zpos m)
  | S754_finite false m e => Some (1, e, Zpos m)
  end.

Definition lex_lt (p q : Z * Z * Z) : Prop :=
  let '(a, b, c) := p in
  let '(a', b', c') := q in
  a < a' \/ (a = a' /\ (b < b' \/ (b = b' /\ c < c'))).

Definition lex_le (p q : Z * Z * Z) : Prop := lex_lt p q \/ p = q.

End F32.

Abbreviation float := F32.float.

#[global] Instance float_inhabited : Inhabited float := populate F32.zero.

(** ** The mesh view ([stl_parser.h])

    [float v[3]] is a triple indexed by 0, 1, 2. *)

Definition arr3 (A : Type) : Type := (A * A * A)%type.

Definition idx3 {A : Type} (a : arr3 A) (k : nat) : A :=
  match k with
  | O => a.1.1
  | S O => a.1.2
  | _ => a.2
  end.

Record stl_triangle_t : Type := Triangle {
  normal : arr3 float;
  vertices : arr3 (arr3 float)
}.

(** [num_triangles] is the length of [triangles]; the 80-byte header plays no
    role in the engine. *)
Record stl_file_t : Type := StlFile {
  triangles : list stl_triangle_t;
  stl_bounds : list float
}.

Definition num_triangles (stl : stl_file_t) : nat := length (triangles stl).

#[global] Instance stl_triangle_inhabited : Inhabited stl_triangle_t :=
  populate (Triangle (F32.zero, F32.zero, F32.zero)
              ((F32.zero, F32.zero, F32.zero),
               (F32.zero, F32.zero, F32.zero),
               (F32.zero, F32.zero, F32.zero))).

(** [triangle->vertices[j][k]] *)
Definition vertex_coord (t : stl_triangle_t) (j k : nat) : float :=
  idx3 (idx3 (vertices t) j) k.

(** ** Bounding volume tree ([bvh.h], [bvh.c]) *)

Inductive sort_axis_t : Type :=
  SORT_X | SORT_Y | SORT_Z | SORT_XY | SORT_XZ | SORT_YZ | SORT_XYZ.

(** The cast [(sort_axis_t)(depth % 3)]. *)
Definition sort_axis_of_nat (n : nat) : sort_axis_t :=
  match n with
  | O => SORT_X
  | S O => SORT_Y
  | _ => SORT_Z
  end.

(** The tagged union [bvh_node_t]: [type], [bounds] and [data]. *)
Inductive bvh_node_t : Type :=
| BVH_LEAF (bounds : list float) (triangle_indices : list nat)
| BVH_INTERNAL (bounds : list float) (left right : bvh_node_t).

Definition node_bounds (node : bvh_node_t) : list float :=
  match node with
  | BVH_LEAF b _ => b
  | BVH_INTERNAL b _ _ => b
  end.

Record bvh_tree_t : Type := BvhTree {
  root : bvh_node_t;
  num_nodes : nat;
  max_depth : nat;
  max_triangles_per_leaf : nat
}.

Definition bvh_get_center_coordinate (triangle : stl_triangle_t)
    (axis : sort_axis_t) : float :=
  let center (c : nat) : float :=
    F32.div
      (foldl (fun acc i => F32.add acc (vertex_coord triangle i c))
         F32.zero [0; 1; 2]%nat)
      F32.three in
  match axis with
  | SORT_X => center 0%nat
  | SORT_Y => center 1%nat
  | SORT_Z => center 2%nat
  | _ => center 0%nat
  end.

Definition bvh_compare_triangles (stl : stl_file_t) (sort_axis : sort_axis_t)
    (idx_a idx_b : nat) : Z :=
  let coord_a :=
    bvh_get_center_coordinate (triangles stl !!! idx_a) sort_axis in
  let coord_b :=
    bvh_get_center_coordinate (triangles stl !!! idx_b) sort_axis in
  if F32.ltb coord_a coord_b then -1
  else if F32.gtb coord_a coord_b then 1
  else 0.

(** One pass of the innermost loop body of the leaf case of
    [bvh_calculate_bounds]. *)
Definition bounds_include (b : list float) (k : nat) (val : float)
    : list float :=
  let b := if F32.ltb val (b !!! k) then <[k := val]> b else b in
  if F32.gtb val (b !!! (k + 3)%nat) then <[(k + 3)%nat := val]> b else b.

Definition bounds_sentinel : list float :=
  [F32.FLT_MAX; F32.FLT_MAX; F32.FLT_MAX;
   F32.opp F32.FLT_MAX; F32.opp F32.FLT_MAX; F32.opp F32.FLT_MAX].

(** The loops over [k], over [j] and over the triangles of the leaf. *)
Definition include_vertex (triangle : stl_triangle_t) (b : list float)
    (j : nat) : list float :=
  foldl (fun b k => bounds_include b k (vertex_coord triangle j k))
    b [0; 1; 2]%nat.

Definition include_triangle (stl : stl_file_t) (b : list float)
    (triangle_idx : nat) : list float :=
  let triangle := triangles stl !!! triangle_idx in
  foldl (include_vertex triangle) b [0; 1; 2]%nat.

Definition leaf_bounds (stl : stl_file_t) (idxs : list nat) : list float :=
  foldl (include_triangle stl) bounds_sentinel idxs.

(** The internal case: copy the left child's box, widen it by the right
    child's. *)
Definition internal_bounds (lb rb : list float) : list float :=
  foldl (fun b i =>
           let b := if F32.ltb (rb !!! i) (b !!! i)
                    then <[i := rb !!! i]> b else b in
           if F32.gtb (rb !!! (i + 3)%nat) (b !!! (i + 3)%nat)
           then <[(i + 3)%nat := rb !!! (i + 3)%nat]> b else b)
    lb [0; 1; 2]%nat.

Definition bvh_calculate_bounds (node : bvh_node_t) (stl : stl_file_t)
    : bvh_node_t :=
  match node with
  | BVH_LEAF b idxs =>
      match idxs with
      | [] => node
      | _ => BVH_LEAF (leaf_bounds stl idxs) idxs
      end
  | BVH_INTERNAL b l r =>
      BVH_INTERNAL (internal_bounds (node_bounds l) (node_bounds r)) l r
  end.

Section Bvh.

(** [qsort_r] of the C library, applied to an array of triangle indices. *)
Variable qsort_r : (nat -> nat -> Z) -> list nat -> list nat.

(** What [malloc] leaves in the [bounds] of a new node. *)
Variable node_garbage : list float.

Definition bvh_sort_triangles_by_axis (triangle_indices : list nat)
    (stl : stl_file_t) (sort_axis : sort_axis_t) : list nat :=
  match triangle_indices with
  | [] => triangle_indices
  | _ => qsort_r (bvh_compare_triangles stl sort_axis) triangle_indices
  end.

(** The recursion stops at [depth >= max_depth]; [gap] is the distance
    [max_depth - depth] still to go, on which the definition recurses.
    The result is [None] where the C function returns [NULL]. *)
Fixpoint bvh_build_from (gap : nat) (stl : stl_file_t)
    (triangle_indices : list nat) (depth : nat)
    (max_triangles_per_leaf : nat) (sort_axis : sort_axis_t)
    : option bvh_node_t :=
  match triangle_indices with
  | [] => None
  | _ =>
      let current_axis := sort_axis_of_nat (depth mod 3) in
      match gap with
      | O =>
          Some (bvh_calculate_bounds
                  (BVH_LEAF node_garbage triangle_indices) stl)
      | S gap' =>
          if (length triangle_indices <=? max_triangles_per_leaf)%nat then
            Some (bvh_calculate_bounds
                    (BVH_LEAF node_garbage triangle_indices) stl)
          else
            let sorted :=
              bvh_sort_triangles_by_axis triangle_indices stl current_axis in
            let mid := (length triangle_indices / 2)%nat in
            match bvh_build_from gap' stl (take mid sorted) (depth + 1)%nat
                    max_triangles_per_leaf sort_axis,
                  bvh_build_from gap' stl (drop mid sorted) (depth + 1)%nat
                    max_triangles_per_leaf sort_axis
            with
            | Some l, Some r =>
                Some (bvh_calculate_bounds
                        (BVH_INTERNAL node_garbage l r) stl)
            | _, _ => None
            end
      end
  end.

Definition bvh_build_recursive (stl : stl_file_t)
    (triangle_indices : list nat) (depth max_depth : nat)
    (max_triangles_per_leaf : nat) (sort_axis : sort_axis_t)
    : option bvh_node_t :=
  bvh_build_from (max_depth - depth) stl triangle_indices depth
    max_triangles_per_leaf sort_axis.

Definition bvh_create (stl : stl_file_t) (max_triangles_per_leaf : nat)
    : option bvh_tree_t :=
  if (num_triangles stl =? 0)%nat then None
  else
    let triangle_indices := seq 0 (num_triangles stl) in
    match bvh_build_recursive stl triangle_indices 0 20
            max_triangles_per_leaf SORT_XYZ with
    | Some r => Some (BvhTree r 0 0 max_triangles_per_leaf)
    | None => None
    end.

End Bvh.

(** ** Partition index ([spatial_partition_t], [spatial_partition_create]) *)

Record spatial_partition_t : Type := SpatialPartition {
  bvh : bvh_tree_t;
  partition_ids : list nat;
  num_partitions : nat;
  partition_bounds : list float
}.

(** The six bounds written for partition [i]. *)
Definition partition_slab (stl : stl_file_t) (partition_width : float)
    (i : nat) : list float :=
  [F32.add (stl_bounds stl !!! 0%nat)
     (F32.mul (F32.of_nat i) partition_width);
   stl_bounds stl !!! 1%nat;
   stl_bounds stl !!! 2%nat;
   F32.add (stl_bounds stl !!! 0%nat)
     (F32.mul (F32.of_nat (i + 1)) partition_width);
   stl_bounds stl !!! 4%nat;
   stl_bounds stl !!! 5%nat].

(** The scan [for (j = 0; j < num_partitions; j++)] with its [break]; a
    triangle that matches no range keeps the initial [partition_id = 0]. *)
Fixpoint find_partition (center_x : float) (partition_bounds : list float)
    (js : list nat) : nat :=
  match js with
  | [] => 0%nat
  | j :: js' =>
      if F32.geb center_x (partition_bounds !!! (j * 6)%nat)
         && F32.ltb center_x (partition_bounds !!! (j * 6 + 3)%nat)
      then j
      else find_partition center_x partition_bounds js'
  end.

(** [center_x] of the assignment loop. *)
Definition triangle_center_x (triangle : stl_triangle_t) : float :=
  F32.div
    (F32.add (F32.add (vertex_coord triangle 0 0) (vertex_coord triangle 1 0))
       (vertex_coord triangle 2 0))
    F32.three.

Section Partition.

Variable qsort_r : (nat -> nat -> Z) -> list nat -> list nat.
Variable node_garbage : list float.

(** [num_partitions * 6] is taken to fit an [unsigned int], as the code
    takes it. *)
Definition spatial_partition_create (stl : stl_file_t)
    (num_partitions : nat) (sort_axis : sort_axis_t)
    : option spatial_partition_t :=
  if (num_partitions =? 0)%nat then None
  else
    match bvh_create qsort_r node_garbage stl 10 with
    | None => None
    | Some tree =>
        let total_width :=
          F32.sub (stl_bounds stl !!! 3%nat) (stl_bounds stl !!! 0%nat) in
        let partition_width :=
          F32.div total_width (F32.of_nat num_partitions) in
        let partition_bounds :=
          flat_map (partition_slab stl partition_width)
            (seq 0 num_partitions) in
        let partition_ids :=
          map (fun triangle =>
                 find_partition (triangle_center_x triangle)
                   partition_bounds (seq 0 num_partitions))
            (triangles stl) in
        Some (SpatialPartition tree partition_ids num_partitions
                partition_bounds)
    end.

End Partition.

(** ** Convex decomposition ([convex_decomposition.h], [convex_decomposition.c])

    The header declares the field [parts] as a pointer to [convex_part_t];
    every use in the sources (the element size passed to [malloc],
    [parts[i]->volume], [convex_part_free(parts[i])]) treats it as an array
    of pointers to parts, and so does the embedding. *)

Inductive decomposition_strategy_t : Type :=
  DECOMP_APPROX_CONVEX | DECOMP_EXACT_CONVEX | DECOMP_HIERARCHICAL
| DECOMP_VOXEL_BASED.

Record point3d_t : Type := Point3d { px : float; py : float; pz : float }.

(** A pointer that may be [NULL] is an [option]. *)
Record convex_hull_t : Type := ConvexHull {
  hull_vertices : option (list point3d_t);
  hull_num_vertices : nat;
  hull_capacity : N;
  hull_bounds : list float
}.

(** [num_triangles] is the length of [triangle_indices]. *)
Record convex_part_t : Type := ConvexPart {
  hull : convex_hull_t;
  triangle_indices : option (list nat);
  capacity : N;
  center : list float;
  volume : float
}.

Definition part_num_triangles (part : convex_part_t) : nat :=
  match triangle_indices part with
  | Some l => length l
  | None => 0%nat
  end.

(** A pointer to a part is the address of its block. *)
Definition part_ptr : Type := nat.

(** [num_parts] is the length of [parts]. *)
Record convex_decomposition_t : Type := ConvexDecomposition {
  parts : option (list part_ptr);
  decomp_capacity : N;
  strategy : decomposition_strategy_t;
  total_volume : float;
  decomposition_quality : float
}.

Definition num_parts (decomp : convex_decomposition_t) : nat :=
  match parts decomp with
  | Some l => length l
  | None => 0%nat
  end.

(** *** The store of parts

    Blocks are never reused: [next_block] only grows. *)
Record heap : Type := Heap {
  blocks : gmap nat convex_part_t;
  next_block : nat
}.

Definition empty_heap : heap := Heap ∅ 0.

Inductive undefined_behaviour : Type :=
| UseAfterFree        (* access to a block that has been freed *)
| DoubleFree
| NullDereference
| WriteOutOfBounds    (* store past the end of an array *)
| CastOutOfRange      (* float to int conversion of an unrepresentable value *)
| ShiftOutOfRange.    (* [1 << n] not representable in [int] *)

Inductive outcome (A : Type) : Type :=
| Done (a : A) (h : heap)
| Undefined (u : undefined_behaviour)
| OutOfFuel.
Arguments Done {A} a h.
Arguments Undefined {A} u.
Arguments OutOfFuel {A}.

(** Computations on the store. *)
Definition M (A : Type) : Type := heap -> outcome A.

#[global] Instance M_ret : MRet M := fun A a h => Done a h.

#[global] Instance M_bind : MBind M := fun A B f m h =>
  match m h with
  | Done a h' => f a h'
  | Undefined u => Undefined u
  | OutOfFuel => OutOfFuel
  end.

Definition undefined {A : Type} (u : undefined_behaviour) : M A :=
  fun _ => Undefined u.

Definition malloc_part (part : convex_part_t) : M part_ptr := fun h =>
  Done (next_block h)
    (Heap (<[next_block h := part]> (blocks h)) (S (next_block h))).

Definition load (p : part_ptr) : M convex_part_t := fun h =>
  match blocks h !! p with
  | Some part => Done part h
  | None => Undefined UseAfterFree
  end.

Definition store (p : part_ptr) (part : convex_part_t) : M unit := fun h =>
  match blocks h !! p with
  | Some _ => Done tt (Heap (<[p := part]> (blocks h)) (next_block h))
  | None => Undefined UseAfterFree
  end.

Definition free_part (p : part_ptr) : M unit := fun h =>
  match blocks h !! p with
  | Some _ => Done tt (Heap (delete p (blocks h)) (next_block h))
  | None => Undefined DoubleFree
  end.

(** A [for] loop threading the value [b]. *)
Fixpoint foldM {A B : Type} (f : B -> A -> M B) (b : B) (l : list A) : M B :=
  match l with
  | [] => mret b
  | x :: l' => b' ← f b x; foldM f b' l'
  end.

Definition for_each {A : Type} (f : A -> M unit) (l : list A) : M unit :=
  foldM (fun _ x => f x) tt l.

(** [capacity *= 2] on an [unsigned int]. *)
Definition double_capacity (c : N) : N := ((c * 2) mod 4294967296)%N.

(** [realloc(array, n * size)] as the GNU C library defines it: a request
    of size zero on a block frees it and yields [NULL]; on [NULL] it is
    [malloc(0)], which yields an empty block. *)
Definition realloc {A : Type} (array : option (list A)) (n : N)
    : option (list A) :=
  if (n =? 0)%N then
    match array with
    | Some _ => None
    | None => Some []
    end
  else Some (default [] array).

(** Growth of an array of [num] elements before one more is stored:
    the new capacity and the new array. *)
Definition grow {A : Type} (array : option (list A)) (cap : N) (num : nat)
    : N * option (list A) :=
  if (cap <=? N.of_nat num)%N
  then (double_capacity cap, realloc array (double_capacity cap))
  else (cap, array).

Section Decomposer.

(** What [malloc] leaves in [hull.bounds] of the part allocated at a given
    address: [convex_part_create] does not initialise these six floats. *)
Variable uninit_bounds : nat -> list float.

(** The fields [convex_part_create] sets in the block at address [a]. *)
Definition fresh_part (a : nat) (initial_capacity : N) : convex_part_t :=
  ConvexPart (ConvexHull None 0 0 (uninit_bounds a)) (Some [])
    initial_capacity [F32.zero; F32.zero; F32.zero] F32.zero.

Definition convex_part_create (initial_capacity : N) : M part_ptr :=
  fun h => malloc_part (fresh_part (next_block h) initial_capacity) h.

Definition convex_part_free (part : part_ptr) : M unit := free_part part.

Definition convex_part_add_triangle (part : part_ptr) (triangle_index : nat)
    : M unit :=
  p ← load part;
  let num := part_num_triangles p in
  let '(cap, array) := grow (triangle_indices p) (capacity p) num in
  match array with
  | None =>
      if (capacity p <=? N.of_nat num)%N
      then store part (ConvexPart (hull p) None cap (center p) (volume p))
      else undefined NullDereference
  | Some l =>
      if (N.of_nat num <? cap)%N
      then store part
             (ConvexPart (hull p) (Some (l ++ [triangle_index])) cap
                (center p) (volume p))
      else undefined WriteOutOfBounds
  end.

Definition convex_part_compute_properties (part : part_ptr)
    (stl : stl_file_t) : M unit :=
  p ← load part;
  match triangle_indices p with
  | None | Some [] => mret tt
  | Some idxs =>
      let total (c : nat) : float :=
        foldl (fun acc triangle_idx =>
                 foldl (fun acc j =>
                          F32.add acc
                            (vertex_coord (triangles stl !!! triangle_idx)
                               j c))
                   acc [0; 1; 2]%nat)
          F32.zero idxs in
      let total_vertices := (3 * Z.of_nat (length idxs)) mod 4294967296 in
      let center' :=
        if 0 <? total_vertices
        then [F32.div (total 0%nat) (F32.of_Z total_vertices);
              F32.div (total 1%nat) (F32.of_Z total_vertices);
              F32.div (total 2%nat) (F32.of_Z total_vertices)]
        else center p in
      store part
        (ConvexPart (hull p) (triangle_indices p) (capacity p) center'
           (F32.mul (F32.of_nat (length idxs)) F32.tenth))
  end.

Definition convex_decomposition_create (initial_capacity : N)
    : convex_decomposition_t :=
  ConvexDecomposition (Some []) initial_capacity DECOMP_APPROX_CONVEX
    F32.zero F32.zero.

Definition convex_decomposition_add_part (decomp : convex_decomposition_t)
    (part : part_ptr) : M convex_decomposition_t :=
  let num := num_parts decomp in
  let '(cap, array) := grow (parts decomp) (decomp_capacity decomp) num in
  match array with
  | None =>
      if (decomp_capacity decomp <=? N.of_nat num)%N
      then mret (ConvexDecomposition None cap (strategy decomp)
                   (total_volume decomp) (decomposition_quality decomp))
      else undefined NullDereference
  | Some l =>
      if (N.of_nat num <? cap)%N
      then
        p ← load part;
        mret (ConvexDecomposition (Some (l ++ [part])) cap
                (strategy decomp)
                (F32.add (total_volume decomp) (volume p))
                (decomposition_quality decomp))
      else undefined WriteOutOfBounds
  end.

Definition set_strategy (decomp : convex_decomposition_t)
    (s : decomposition_strategy_t) : convex_decomposition_t :=
  ConvexDecomposition (parts decomp) (decomp_capacity decomp) s
    (total_volume decomp) (decomposition_quality decomp).

Definition set_quality (decomp : convex_decomposition_t) (q : float)
    : convex_decomposition_t :=
  ConvexDecomposition (parts decomp) (decomp_capacity decomp)
    (strategy decomp) (total_volume decomp) q.

Definition compute_volume (hull : convex_hull_t) : float :=
  if (hull_num_vertices hull <? 4)%nat then F32.zero
  else
    let width := F32.sub (hull_bounds hull !!! 3%nat)
                   (hull_bounds hull !!! 0%nat) in
    let height := F32.sub (hull_bounds hull !!! 4%nat)
                    (hull_bounds hull !!! 1%nat) in
    let depth := F32.sub (hull_bounds hull !!! 5%nat)
                   (hull_bounds hull !!! 2%nat) in
    F32.mul (F32.mul width height) depth.

Definition part_concavity (p : convex_part_t) : float :=
  if (part_num_triangles p =? 0)%nat then F32.zero
  else
    let hull_volume := compute_volume (hull p) in
    let actual_volume := volume p in
    if F32.leb hull_volume F32.zero then F32.zero
    else
      let concavity :=
        F32.div (F32.sub hull_volume actual_volume) hull_volume in
      let concavity :=
        if F32.ltb concavity F32.zero then F32.zero else concavity in
      if F32.gtb concavity F32.one then F32.one else concavity.

Definition compute_part_concavity (part : part_ptr) (stl : stl_file_t)
    : M float :=
  p ← load part; mret (part_concavity p).

Definition compute_decomposition_quality (decomp : convex_decomposition_t)
    : M float :=
  match parts decomp with
  | None | Some [] => mret F32.zero
  | Some ps =>
      let avg_volume :=
        F32.div (total_volume decomp) (F32.of_nat (length ps)) in
      variance ←
        foldM (fun variance part =>
                 p ← load part;
                 let diff := F32.sub (volume p) avg_volume in
                 mret (F32.add variance (F32.mul diff diff)))
          F32.zero ps;
      let variance := F32.div variance (F32.of_nat (length ps)) in
      mret (F32.div F32.one (F32.add F32.one variance))
  end.

(** The split common to [approximate_decompose_part] and
    [hierarchical_split_part]: the axis of the longest side of
    [hull.bounds], the midpoint on it, and the centre of a triangle. *)
Definition longest_axis (b : list float) : nat :=
  let dx := F32.sub (b !!! 3%nat) (b !!! 0%nat) in
  let dy := F32.sub (b !!! 4%nat) (b !!! 1%nat) in
  let dz := F32.sub (b !!! 5%nat) (b !!! 2%nat) in
  if F32.gtb dy dx && F32.gtb dy dz then 1%nat
  else if F32.gtb dz dx && F32.gtb dz dy then 2%nat
  else 0%nat.

Definition split_value (b : list float) (split_axis : nat) : float :=
  F32.div (F32.add (b !!! split_axis) (b !!! (split_axis + 3)%nat)) F32.two.

Definition triangle_center (triangle : stl_triangle_t) (axis : nat)
    : float :=
  F32.div
    (F32.add
       (F32.add (vertex_coord triangle 0 axis) (vertex_coord triangle 1 axis))
       (vertex_coord triangle 2 axis))
    F32.three.

(** The loop "distribute triangles". *)
Definition distribute (stl : stl_file_t) (idxs : list nat)
    (split_axis : nat) (value : float) (left_part right_part : part_ptr)
    : M unit :=
  for_each (fun triangle_idx =>
              let center :=
                triangle_center (triangles stl !!! triangle_idx) split_axis in
              if F32.ltb center value
              then convex_part_add_triangle left_part triangle_idx
              else convex_part_add_triangle right_part triangle_idx)
    idxs.

Definition indices_of (p : convex_part_t) : list nat :=
  default [] (triangle_indices p).

(** The recursion of [approximate_decompose_part] has no bound of its own:
    [fuel] bounds its depth, and [OutOfFuel] is the outcome when the bound
    is hit. *)
Fixpoint approximate_decompose_part (fuel : nat) (part : part_ptr)
    (stl : stl_file_t) (decomp : convex_decomposition_t) (max_parts : N)
    (concavity_tolerance : float) : M convex_decomposition_t :=
  match fuel with
  | O => fun _ => OutOfFuel
  | S fuel' =>
      p ← load part;
      if (part_num_triangles p =? 0)%nat then mret decomp
      else if (max_parts <=? N.of_nat (num_parts decomp))%N then
        convex_decomposition_add_part decomp part
      else
        concavity ← compute_part_concavity part stl;
        if F32.leb concavity concavity_tolerance
           || (part_num_triangles p <? 10)%nat
        then convex_decomposition_add_part decomp part
        else
          let split_axis := longest_axis (hull_bounds (hull p)) in
          let value := split_value (hull_bounds (hull p)) split_axis in
          left_part ←
            convex_part_create (N.of_nat (part_num_triangles p / 2));
          right_part ←
            convex_part_create (N.of_nat (part_num_triangles p / 2));
          distribute stl (indices_of p) split_axis value left_part
            right_part;;
          l ← load left_part;
          decomp ←
            (if (0 <? part_num_triangles l)%nat then
               convex_part_compute_properties left_part stl;;
               approximate_decompose_part fuel' left_part stl decomp
                 max_parts concavity_tolerance
             else mret decomp);
          r ← load right_part;
          decomp ←
            (if (0 <? part_num_triangles r)%nat then
               convex_part_compute_properties right_part stl;;
               approximate_decompose_part fuel' right_part stl decomp
                 max_parts concavity_tolerance
             else mret decomp);
          convex_part_free left_part;;
          convex_part_free right_part;;
          mret decomp
  end.

(** The initial part holding every triangle, as both
    [approximate_convex_decomposition] and [hierarchical_decomposition]
    build it. *)
Definition create_full_part (stl : stl_file_t) : M part_ptr :=
  part ← convex_part_create (N.of_nat (num_triangles stl));
  for_each (convex_part_add_triangle part) (seq 0 (num_triangles stl));;
  convex_part_compute_properties part stl;;
  mret part.

(** [approximate_convex_decomposition] up to and including
    [convex_part_free(current_part)]. *)
Definition approximate_build (fuel : nat) (stl : stl_file_t) (max_parts : N)
    (concavity_tolerance : float) : M convex_decomposition_t :=
  let decomp :=
    set_strategy (convex_decomposition_create max_parts)
      DECOMP_APPROX_CONVEX in
  current_part ← create_full_part stl;
  decomp ←
    approximate_decompose_part fuel current_part stl decomp max_parts
      concavity_tolerance;
  convex_part_free current_part;;
  mret decomp.

Definition approximate_convex_decomposition (fuel : nat) (stl : stl_file_t)
    (max_parts : N) (quality_threshold concavity_tolerance : float)
    : M (option convex_decomposition_t) :=
  if (num_triangles stl =? 0)%nat then mret None
  else
    decomp ← approximate_build fuel stl max_parts concavity_tolerance;
    quality ← compute_decomposition_quality decomp;
    mret (Some (set_quality decomp quality)).

(** The first branch of [hierarchical_split_part]: a copy of the part is
    added to the decomposition. *)
Definition add_copy_of_part (p : convex_part_t) (stl : stl_file_t)
    (decomp : convex_decomposition_t) : M convex_decomposition_t :=
  new_part ← convex_part_create (N.of_nat (part_num_triangles p));
  for_each (convex_part_add_triangle new_part) (indices_of p);;
  convex_part_compute_properties new_part stl;;
  convex_decomposition_add_part decomp new_part.

(** [hierarchical_split_part] stops at [depth >= max_depth]; [gap] is the
    distance [max_depth - depth], on which the definition recurses. *)
Fixpoint hierarchical_split_from (gap : nat) (part : part_ptr)
    (stl : stl_file_t) (decomp : convex_decomposition_t)
    (split_threshold : float) : M convex_decomposition_t :=
  p ← load part;
  match gap with
  | O => add_copy_of_part p stl decomp
  | S gap' =>
      if (part_num_triangles p <? 10)%nat then add_copy_of_part p stl decomp
      else
        let split_axis := longest_axis (hull_bounds (hull p)) in
        let value := split_value (hull_bounds (hull p)) split_axis in
        left_part ←
          convex_part_create (N.of_nat (part_num_triangles p / 2));
        right_part ←
          convex_part_create (N.of_nat (part_num_triangles p / 2));
        distribute stl (indices_of p) split_axis value left_part
          right_part;;
        l ← load left_part;
        decomp ←
          (if (0 <? part_num_triangles l)%nat then
             convex_part_compute_properties left_part stl;;
             hierarchical_split_from gap' left_part stl decomp
               split_threshold
           else mret decomp);
        r ← load right_part;
        decomp ←
          (if (0 <? part_num_triangles r)%nat then
             convex_part_compute_properties right_part stl;;
             hierarchical_split_from gap' right_part stl decomp
               split_threshold
           else mret decomp);
        convex_part_free left_part;;
        convex_part_free right_part;;
        mret decomp
  end.

Definition hierarchical_split_part (part : part_ptr) (stl : stl_file_t)
    (decomp : convex_decomposition_t) (depth max_depth : nat)
    (split_threshold : float) : M convex_decomposition_t :=
  hierarchical_split_from (max_depth - depth) part stl decomp
    split_threshold.

(** [1 << max_depth] is an [int]: shifting by 31 or more is undefined. *)
Definition hierarchical_decomposition (stl : stl_file_t) (max_depth : nat)
    (split_threshold : float) : M (option convex_decomposition_t) :=
  if (num_triangles stl =? 0)%nat then mret None
  else if (31 <=? max_depth)%nat then undefined ShiftOutOfRange
  else
    let decomp :=
      set_strategy
        (convex_decomposition_create (N.shiftl 1 (N.of_nat max_depth)))
        DECOMP_HIERARCHICAL in
    root_part ← create_full_part stl;
    decomp ←
      hierarchical_split_part root_part stl decomp 0 max_depth
        split_threshold;
    convex_part_free root_part;;
    quality ← compute_decomposition_quality decomp;
    mret (Some (set_quality decomp quality)).

(** *** Voxel strategy *)

(** The grid cell of a triangle: [(int)((center - min) / voxel_size)] on
    each axis; [None] when a cast is undefined. *)
Definition voxel_of (stl : stl_file_t) (voxel_size : float)
    (triangle : stl_triangle_t) : option (Z * Z * Z) :=
  let cell (c : nat) : option Z :=
    F32.to_int
      (F32.div
         (F32.sub (triangle_center triangle c) (stl_bounds stl !!! c))
         voxel_size) in
  x ← cell 0%nat; y ← cell 1%nat; z ← cell 2%nat; Some (x, y, z).

Definition in_grid (dims cell : Z * Z * Z) : bool :=
  let '(nx, ny, nz) := dims in
  let '(x, y, z) := cell in
  (0 <=? x) && (x <? nx) && (0 <=? y) && (y <? ny) && (0 <=? z) && (z <? nz).

(** The loop "assign triangles to voxels" over the zero-initialised grid. *)
Definition count_voxels (stl : stl_file_t) (voxel_size : float)
    (dims : Z * Z * Z) : M (gmap (Z * Z * Z) nat) :=
  foldM (fun (grid : gmap (Z * Z * Z) nat) triangle =>
           match voxel_of stl voxel_size triangle with
           | None => undefined CastOutOfRange
           | Some cell =>
               if in_grid dims cell
               then mret (<[cell := S (grid !!! cell)]> grid)
               else mret grid
           end)
    ∅ (triangles stl).

(** The body of the loops over [x], [y], [z] for one cell. *)
Definition emit_voxel (stl : stl_file_t) (voxel_size : float)
    (min_triangles_per_voxel : nat) (grid : gmap (Z * Z * Z) nat)
    (decomp : convex_decomposition_t) (cell : Z * Z * Z)
    : M convex_decomposition_t :=
  if (min_triangles_per_voxel <=? grid !!! cell)%nat then
    part ← convex_part_create (N.of_nat (grid !!! cell));
    for_each (fun i =>
                match voxel_of stl voxel_size (triangles stl !!! i) with
                | None => undefined CastOutOfRange
                | Some c =>
                    if decide (c = cell)
                    then convex_part_add_triangle part i
                    else mret tt
                end)
      (seq 0 (num_triangles stl));;
    p ← load part;
    if (0 <? part_num_triangles p)%nat then
      convex_part_compute_properties part stl;;
      convex_decomposition_add_part decomp part
    else
      convex_part_free part;; mret decomp
  else mret decomp.

(** The cells in the order of the three nested loops. *)
Definition grid_cells (dims : Z * Z * Z) : list (Z * Z * Z) :=
  let '(nx, ny, nz) := dims in
  x ← seqZ 0 nx; y ← seqZ 0 ny; z ← seqZ 0 nz; [(x, y, z)].

(** The extent of the grid on axis [c]:
    [(int)((max - min) / voxel_size) + 1]. *)
Definition num_voxels (stl : stl_file_t) (voxel_size : float) (c : nat)
    : option Z :=
  n ← F32.to_int
        (F32.div
           (F32.sub (stl_bounds stl !!! (c + 3)%nat) (stl_bounds stl !!! c))
           voxel_size);
  Some (n + 1).

(** The allocation of the grid fails exactly when a negative extent is
    used as an allocation size. *)
Definition grid_alloc_fails (dims : Z * Z * Z) : bool :=
  let '(nx, ny, nz) := dims in
  (nx <? 0) || ((1 <=? nx) && (ny <? 0))
  || ((1 <=? nx) && (1 <=? ny) && (nz <? 0)).

Definition voxel_based_decomposition (stl : stl_file_t) (voxel_size : float)
    (min_triangles_per_voxel : nat) : M (option convex_decomposition_t) :=
  if (num_triangles stl =? 0)%nat || F32.leb voxel_size F32.zero
  then mret None
  else
    let decomp :=
      set_strategy (convex_decomposition_create 100) DECOMP_VOXEL_BASED in
    match num_voxels stl voxel_size 0, num_voxels stl voxel_size 1,
          num_voxels stl voxel_size 2 with
    | Some nx, Some ny, Some nz =>
        let dims := (nx, ny, nz) in
        if grid_alloc_fails dims then mret None
        else
          grid ← count_voxels stl voxel_size dims;
          decomp ←
            foldM (emit_voxel stl voxel_size min_triangles_per_voxel grid)
              decomp (grid_cells dims);
          quality ← compute_decomposition_quality decomp;
          mret (Some (set_quality decomp quality))
    | _, _, _ => undefined CastOutOfRange
    end.

End Decomposer.

(** ** Notions used to state the properties of the tree *)

(** The updates [if (val < m) m = val] and [if (val > m) m = val]. *)
Definition min_step (a v : float) : float := if F32.ltb v a then v else a.
Definition max_step (a v : float) : float := if F32.gtb v a then v else a.

(** The triangle indices of the leaves, left to right. *)
Fixpoint leaf_indices (node : bvh_node_t) : list nat :=
  match node with
  | BVH_LEAF _ idxs => idxs
  | BVH_INTERNAL _ l r => leaf_indices l ++ leaf_indices r
  end.

(** [m] is a least (greatest) element of [xs] for the comparison of the
    code. *)
Definition is_min (m : float) (xs : list float) : Prop :=
  m ∈ xs /\ forall x, x ∈ xs -> F32.leb m x = true.

Definition is_max (m : float) (xs : list float) : Prop :=
  m ∈ xs /\ forall x, x ∈ xs -> F32.leb x m = true.

(** Coordinate [k] of every vertex of the triangles [idxs]. *)
Definition leaf_coords (stl : stl_file_t) (idxs : list nat) (k : nat)
    : list float :=
  flat_map (fun idx =>
              map (fun j => vertex_coord (triangles stl !!! idx) j k)
                [0; 1; 2]%nat)
    idxs.

(** Each box is exact: a leaf's box is the per-axis minimum and maximum of
    its vertex coordinates, an internal node's box the per-axis minimum and
    maximum of its children's. *)
Fixpoint bounds_exact (stl : stl_file_t) (node : bvh_node_t) : Prop :=
  match node with
  | BVH_LEAF b idxs =>
      forall k, (k < 3)%nat ->
        is_min (b !!! k) (leaf_coords stl idxs k) /\
        is_max (b !!! (k + 3)%nat) (leaf_coords stl idxs k)
  | BVH_INTERNAL b l r =>
      (forall k, (k < 3)%nat ->
         is_min (b !!! k) [node_bounds l !!! k; node_bounds r !!! k] /\
         is_max (b !!! (k + 3)%nat)
           [node_bounds l !!! (k + 3)%nat; node_bounds r !!! (k + 3)%nat]) /\
      bounds_exact stl l /\ bounds_exact stl r
  end.

(** The sort key of triangle [i]. *)
Definition centroid_coord (stl : stl_file_t) (axis : sort_axis_t) (i : nat)
    : float :=
  bvh_get_center_coordinate (triangles stl !!! i) axis.

(** Every vertex coordinate of the mesh is a finite number. *)
Definition mesh_finite (stl : stl_file_t) : Prop :=
  forall t j k, t ∈ triangles stl -> (j < 3)%nat -> (k < 3)%nat ->
    F32.finite (vertex_coord t j k) = true.

(** *** The contract of [qsort_r]

    A comparator is consistent on [l] when it is a total preorder there,
    with the signs of [cmp a b] and [cmp b a] opposite. *)
Definition cmp_consistent (cmp : nat -> nat -> Z) (l : list nat) : Prop :=
  (forall a b, a ∈ l -> b ∈ l -> (cmp a b < 0 <-> 0 < cmp b a)) /\
  (forall a b c, a ∈ l -> b ∈ l -> c ∈ l ->
     cmp a b <= 0 -> cmp b c <= 0 -> cmp a c <= 0).

Definition qsort_permutes (qs : (nat -> nat -> Z) -> list nat -> list nat)
    : Prop :=
  forall cmp l, qs cmp l ≡ₚ l.

Definition qsort_sorts (qs : (nat -> nat -> Z) -> list nat -> list nat)
    : Prop :=
  forall cmp l, cmp_consistent cmp l ->
    StronglySorted (fun a b => cmp a b <= 0) (qs cmp l).

(** Two sorting routines that meet the contract: insertion sort placing an
    element before its equals (stable), and after them (ties reversed). *)
Fixpoint insert_by (before : nat -> nat -> bool) (x : nat) (l : list nat)
    : list nat :=
  match l with
  | [] => [x]
  | y :: l' => if before x y then x :: l else y :: insert_by before x l'
  end.

Definition stable_qsort (cmp : nat -> nat -> Z) (l : list nat) : list nat :=
  foldr (insert_by (fun x y => cmp x y <=? 0)) [] l.

Definition reversing_qsort (cmp : nat -> nat -> Z) (l : list nat)
    : list nat :=
  foldr (insert_by (fun x y => cmp x y <? 0)) [] l.

(** ** Notions used to state the properties of a decomposition *)

(** The hull of a part was never given a vertex. *)
Definition hull_empty (part : convex_part_t) : Prop :=
  hull_num_vertices (hull part) = 0%nat /\ hull_vertices (hull part) = None.

(** [vols] are the volumes of the live parts [ps], in order. *)
Definition volumes_of (h : heap) (ps : list part_ptr) (vols : list float)
    : Prop :=
  Forall2 (fun a v => exists part, blocks h !! a = Some part /\
                                   volume part = v) ps vols.

(** The score as the code evaluates it, in single precision: the volumes are
    summed in order, the mean is that sum over the count, the variance the
    sum of squared differences to the mean over the count. *)
Definition f32_sum (vols : list float) : float := foldl F32.add F32.zero vols.

Definition f32_variance (vols : list float) : float :=
  let avg := F32.div (f32_sum vols) (F32.of_nat (length vols)) in
  F32.div
    (foldl (fun variance v =>
              F32.add variance (F32.mul (F32.sub v avg) (F32.sub v avg)))
       F32.zero vols)
    (F32.of_nat (length vols)).

Definition f32_quality (vols : list float) : float :=
  F32.div F32.one (F32.add F32.one (f32_variance vols)).

(** The same formula in exact rational arithmetic, on the values the
    volumes denote. *)
Definition float_to_Q (x : float) : Q :=
  match x with
  | S754_finite s m e =>
      let a := match e with
               | Zneg p => Z.pos m # Pos.shiftl 1 (Npos p)
               | _ => inject_Z (Z.shiftl (Z.pos m) e)
               end in
      if s then Qopp a else a
  | _ => 0%Q
  end.

Definition Q_sum (qs : list Q) : Q := foldr Qplus 0%Q qs.

Definition Q_mean (qs : list Q) : Q :=
  (Q_sum qs / inject_Z (Z.of_nat (length qs)))%Q.

Definition Q_variance (qs : list Q) : Q :=
  (Q_sum (map (fun q => (q - Q_mean qs) * (q - Q_mean qs)) qs)
   / inject_Z (Z.of_nat (length qs)))%Q.

Definition Q_quality (qs : list Q) : Q := (1 / (1 + Q_variance qs))%Q.

(** The triangles whose centroid lies in the grid cell [cell]. *)
Definition cell_triangles (stl : stl_file_t) (voxel_size : float)
    (cell : Z * Z * Z) : list nat :=
  filter (fun i => voxel_of stl voxel_size (triangles stl !!! i) = Some cell)
    (seq 0 (num_triangles stl)).

(** The parts of a decomposition; none when the array is [NULL]. *)
Definition decomposition_parts (d : convex_decomposition_t) : list part_ptr :=
  default [] (parts d).

(** The triangle indices of the live part at [a]. *)
Definition part_triangles (h : heap) (a : part_ptr) : list nat :=
  match blocks h !! a with
  | Some part => indices_of part
  | None => []
  end.

(** ** Example meshes *)

Definition fl (z : Z) : float := F32.of_Z z.

Definition tri (a b c : Z * Z * Z) : stl_triangle_t :=
  let v (p : Z * Z * Z) : arr3 float := (fl p.1.1, fl p.1.2, fl p.2) in
  Triangle (F32.zero, F32.zero, F32.zero) (v a, v b, v c).

(** The cube [0,10]^3, two triangles per face. *)
Definition cube_mesh : stl_file_t :=
  StlFile
    [tri (0,0,0) (10,10,0) (10,0,0); tri (0,0,0) (0,10,0) (10,10,0);
     tri (0,0,10) (10,0,10) (10,10,10); tri (0,0,10) (10,10,10) (0,10,10);
     tri (0,0,0) (10,0,0) (10,0,10); tri (0,0,0) (10,0,10) (0,0,10);
     tri (0,10,0) (10,10,10) (10,10,0); tri (0,10,0) (0,10,10) (10,10,10);
     tri (0,0,0) (0,0,10) (0,10,10); tri (0,0,0) (0,10,10) (0,10,0);
     tri (10,0,0) (10,10,0) (10,10,10); tri (10,0,0) (10,10,10) (10,0,10)]
    [fl 0; fl 0; fl 0; fl 10; fl 10; fl 10].

(** One triangle, every vertex at [x = +infinity]. *)
Definition far_mesh : stl_file_t :=
  let inf := S754_infinity false in
  StlFile
    [Triangle (F32.zero, F32.zero, F32.zero)
       ((inf, fl 0, fl 0), (inf, fl 1, fl 0), (inf, fl 0, fl 1))]
    [inf; fl 0; fl 0; inf; fl 1; fl 1].

(** Two triangles with the same centroid. *)
Definition tie_mesh : stl_file_t :=
  StlFile
    [tri (0,0,0) (3,0,0) (0,3,0); tri (0,0,0) (3,0,0) (0,0,3)]
    [fl 0; fl 0; fl 0; fl 3; fl 3; fl 3].

(** A triangle with centroid x = 5 in a mesh spanning x in [0, 10]. *)
Definition boundary_mesh : stl_file_t :=
  StlFile
    [tri (0,0,0) (5,0,0) (10,0,0); tri (0,0,0) (0,1,0) (0,0,1)]
    [fl 0; fl 0; fl 0; fl 10; fl 1; fl 1].

Definition no_garbage : list float := replicate 6 F32.zero.

(** Fresh memory reads as zero. *)
Definition zero_bounds : nat -> list float := fun _ => no_garbage.

(** Five triangles around x = -5 and five around x = 5. *)
Definition two_cluster_mesh : stl_file_t :=
  StlFile
    (flat_map (fun x => [tri (x,0,0) (x,1,0) (x,0,1)])
       [-7; -6; -5; -4; -3; 3; 4; 5; 6; 7])
    [fl (-7); fl 0; fl 0; fl 7; fl 1; fl 1].

(** ** Notions used by the proofs *)

(** The boxes of a built subtree have six entries, none a NaN. *)
Definition box_wf (b : list float) : Prop :=
  length b = 6%nat /\
  forall i, (i < 3)%nat ->
    F32.is_nan (b !!! i) = false /\ F32.is_nan (b !!! (i + 3)%nat) = false.

(** *** Frames on the store *)

(** [h'] has the same blocks as [h] outside [S], allocates nothing, and
    keeps the hull of every block it has. *)
Definition only_touches (S : nat -> Prop) (h h' : heap) : Prop :=
  next_block h' = next_block h /\
  (forall a, ~ S a -> blocks h' !! a = blocks h !! a) /\
  (forall a p', blocks h' !! a = Some p' ->
     exists p, blocks h !! a = Some p /\ hull p' = hull p).

(** The parts [new], live in [h] with empty hulls, account for the growth of
    the total volume from [t0] to [t1]. *)
Definition parts_ok (h : heap) (new : list part_ptr) (t0 t1 : float) : Prop :=
  (exists vols, volumes_of h new vols /\ t1 = foldl F32.add t0 vols) /\
  Forall (fun a => exists part, blocks h !! a = Some part /\ hull_empty part)
    new.

(** From [(h, d)] to [(h', d')] blocks are only allocated, the blocks
    allocated before and outside [T] are left as they were, and the
    decomposition is extended by parts allocated in between. *)
Definition extends_except (T : nat -> Prop) (h : heap)
    (d : convex_decomposition_t) (h' : heap) (d' : convex_decomposition_t)
    : Prop :=
  (next_block h <= next_block h')%nat /\
  (forall a, (a < next_block h)%nat -> ~ T a ->
     blocks h' !! a = blocks h !! a) /\
  strategy d' = strategy d /\
  forall ps', parts d' = Some ps' ->
    exists ps new,
      parts d = Some ps /\ ps' = ps ++ new /\
      Forall (fun a => (next_block h <= a < next_block h')%nat) new /\
      parts_ok h' new (total_volume d) (total_volume d').

Definition extends (h : heap) (d : convex_decomposition_t) (h' : heap)
    (d' : convex_decomposition_t) : Prop :=
  extends_except (fun _ => False) h d h' d'.

(** What a returned decomposition [d] with store [h] is shown to satisfy:
    its parts are live, their hulls empty, the total is the sum of their
    volumes and the score is the quality formula on them, or zero when
    there is no part. *)
Definition decomposition_ok (h : heap) (d : convex_decomposition_t) : Prop :=
  match parts d with
  | None => decomposition_quality d = F32.zero
  | Some ps =>
      exists vols,
        volumes_of h ps vols /\
        total_volume d = f32_sum vols /\
        decomposition_quality d =
          match ps with
          | [] => F32.zero
          | _ => f32_quality vols
          end /\
        Forall (fun a => exists part, blocks h !! a = Some part /\
                                      hull_empty part) ps
  end.

(** *** The voxel strategy *)

Section VoxelNotions.
Variable stl : stl_file_t.
Variable voxel_size : float.
Variable min_triangles : nat.

(** The cells that yield a part. *)
Definition qualifies (cell : Z * Z * Z) : Prop :=
  (min_triangles <= length (cell_triangles stl voxel_size cell))%nat /\
  (0 < length (cell_triangles stl voxel_size cell))%nat.

(** The parts [new] hold the triangles of the cells [cells], in order. *)
Definition emitted (h : heap) (new : list part_ptr)
    (cells : list (Z * Z * Z)) : Prop :=
  Forall2 (fun a c => exists part,
               blocks h !! a = Some part /\
               triangle_indices part = Some (cell_triangles stl voxel_size c))
    new cells.

Definition voxel_post (cells : list (Z * Z * Z)) (h : heap)
    (d : convex_decomposition_t) (h' : heap) (d' : convex_decomposition_t)
    : Prop :=
  (next_block h <= next_block h')%nat /\
  (forall a, (a < next_block h)%nat -> blocks h' !! a = blocks h !! a) /\
  strategy d' = strategy d /\
  forall ps', parts d' = Some ps' ->
    exists ps new,
      parts d = Some ps /\ ps' = ps ++ new /\
      Forall (fun a => (next_block h <= a < next_block h')%nat) new /\
      parts_ok h' new (total_volume d) (total_volume d') /\
      emitted h' new (filter qualifies cells).

End VoxelNotions.

(** *** Case analysis on the comparisons of [SpecFloat] *)

Ltac rank_cases :=
  repeat match goal with
    | |- context [Z.compare ?a ?b] => destruct (Z.compare_spec a b)
    | |- context [Pos.compare_cont Eq ?a ?b] =>
        change (Pos.compare_cont Eq a b) with (Pos.compare a b);
        destruct (Pos.compare_spec a b)
    end.

(** *** Closed statements about the examples

    Each conjunct is decided by evaluation. *)

Ltac by_evaluation :=
  (repeat match goal with |- _ /\ _ => split end);
  [vm_compute; reflexivity..].

(** * Further functions of the engine *)

(** ** [bvh.c]: box utilities *)

Definition bvh_calculate_surface_area (bounds : list float) : float :=
  let width := F32.sub (bounds !!! 3%nat) (bounds !!! 0%nat) in
  let height := F32.sub (bounds !!! 4%nat) (bounds !!! 1%nat) in
  let depth := F32.sub (bounds !!! 5%nat) (bounds !!! 2%nat) in
  F32.mul F32.two
    (F32.add (F32.add (F32.mul width height) (F32.mul width depth))
       (F32.mul height depth)).

(** The [int] result is 0 or 1: a [bool]. *)
Definition bvh_intersects_bounds (bounds1 bounds2 : list float) : bool :=
  F32.leb (bounds1 !!! 0%nat) (bounds2 !!! 3%nat)
  && F32.geb (bounds1 !!! 3%nat) (bounds2 !!! 0%nat)
  && F32.leb (bounds1 !!! 1%nat) (bounds2 !!! 4%nat)
  && F32.geb (bounds1 !!! 4%nat) (bounds2 !!! 1%nat)
  && F32.leb (bounds1 !!! 2%nat) (bounds2 !!! 5%nat)
  && F32.geb (bounds1 !!! 5%nat) (bounds2 !!! 2%nat).

(** ** [stl_parser.c]: the bounds of the mesh

    [stl_calculate_bounds] runs the loops of the leaf case of
    [bvh_calculate_bounds] over all triangles of the mesh. *)
Definition stl_calculate_bounds (stl : stl_file_t) : stl_file_t :=
  if (num_triangles stl =? 0)%nat then stl
  else
    StlFile (triangles stl)
      (foldl (fun b triangle => foldl (include_vertex triangle) b [0; 1; 2]%nat)
         bounds_sentinel (triangles stl)).

(** ** Notions used to state the further properties of the tree *)

(** The number of edges on the longest path from a node to a leaf. *)
Fixpoint node_height (node : bvh_node_t) : nat :=
  match node with
  | BVH_LEAF _ _ => 0%nat
  | BVH_INTERNAL _ l r => S (Nat.max (node_height l) (node_height r))
  end.

(** The index arrays of the leaves, left to right. *)
Fixpoint leaves (node : bvh_node_t) : list (list nat) :=
  match node with
  | BVH_LEAF _ idxs => [idxs]
  | BVH_INTERNAL _ l r => leaves l ++ leaves r
  end.

(** A node and all nodes below it. *)
Fixpoint subtrees (node : bvh_node_t) : list bvh_node_t :=
  node ::
  match node with
  | BVH_LEAF _ _ => []
  | BVH_INTERNAL _ l r => subtrees l ++ subtrees r
  end.

(** Coordinate [k] of every vertex of the mesh. *)
Definition mesh_coords (stl : stl_file_t) (k : nat) : list float :=
  flat_map (fun t => map (fun j => vertex_coord t j k) [0; 1; 2]%nat)
    (triangles stl).

(** The range test of the assignment loop of [spatial_partition_create]. *)
Definition in_slab (center_x : float) (partition_bounds : list float)
    (j : nat) : bool :=
  F32.geb center_x (partition_bounds !!! (j * 6)%nat)
  && F32.ltb center_x (partition_bounds !!! (j * 6 + 3)%nat).

(** ** [convex_decomposition.c]: hulls

    A hull under construction does not live in the store of parts: the
    functions below transform the hull value, and their outcome is the new
    value or an undefined behaviour.  Of the array [vertices] only the
    first [num_vertices] entries are ever read; the list holds those. *)

Inductive checked (A : Type) : Type :=
| Returns (a : A)
| Fails (u : undefined_behaviour).
Arguments Returns {A} a.
Arguments Fails {A} u.

#[global] Instance checked_ret : MRet checked := fun A a => Returns a.

#[global] Instance checked_bind : MBind checked := fun A B f m =>
  match m with
  | Returns a => f a
  | Fails u => Fails u
  end.

Inductive convex_hull_algorithm_t : Type :=
  CONVEX_HULL_GRAHAM_SCAN | CONVEX_HULL_JARVIS_MARCH | CONVEX_HULL_QUICKHULL
| CONVEX_HULL_CHAN.

Record point2d_t : Type := Point2d { p2x : float; p2y : float }.

Definition convex_hull_create (initial_capacity : N) : convex_hull_t :=
  ConvexHull (Some []) 0 initial_capacity bounds_sentinel.

(** [if (v < bounds[k]) bounds[k] = v] and [if (v > bounds[k]) bounds[k] = v]. *)
Definition lower_bound (b : list float) (k : nat) (v : float) : list float :=
  if F32.ltb v (b !!! k) then <[k := v]> b else b.

Definition raise_bound (b : list float) (k : nat) (v : float) : list float :=
  if F32.gtb v (b !!! k) then <[k := v]> b else b.

Definition convex_hull_add_vertex (hull : convex_hull_t) (x y z : float)
    : checked convex_hull_t :=
  let num := hull_num_vertices hull in
  let '(cap, array) := grow (hull_vertices hull) (hull_capacity hull) num in
  match array with
  | None =>
      if (hull_capacity hull <=? N.of_nat num)%N
      then Returns (ConvexHull None num cap (hull_bounds hull))
      else Fails NullDereference
  | Some l =>
      if (N.of_nat num <? cap)%N then
        let b := lower_bound (hull_bounds hull) 0 x in
        let b := lower_bound b 1 y in
        let b := lower_bound b 2 z in
        let b := raise_bound b 3 x in
        let b := raise_bound b 4 y in
        let b := raise_bound b 5 z in
        Returns (ConvexHull (Some (take num l ++ [Point3d x y z])) (S num)
                   cap b)
      else Fails WriteOutOfBounds
  end.

(** The six running extremes of the loop "find extreme points". *)
Record extremes : Type := Extremes {
  min_x : float; max_x : float;
  min_y : float; max_y : float;
  min_z : float; max_z : float
}.

Definition extremes_step (e : extremes) (p : point3d_t) : extremes :=
  Extremes
    (if F32.ltb (px p) (min_x e) then px p else min_x e)
    (if F32.gtb (px p) (max_x e) then px p else max_x e)
    (if F32.ltb (py p) (min_y e) then py p else min_y e)
    (if F32.gtb (py p) (max_y e) then py p else max_y e)
    (if F32.ltb (pz p) (min_z e) then pz p else min_z e)
    (if F32.gtb (pz p) (max_z e) then pz p else max_z e).

(** [num_points] is the length of [points]; the [algorithm] is not looked
    at. *)
Definition compute_convex_hull_3d (points : list point3d_t)
    (algorithm : convex_hull_algorithm_t) : checked (option convex_hull_t) :=
  match points with
  | [] => Returns None
  | p0 :: rest =>
      if (length points <? 4)%nat then Returns None
      else
        let hull := convex_hull_create (N.of_nat (length points)) in
        let e :=
          foldl extremes_step
            (Extremes (px p0) (px p0) (py p0) (py p0) (pz p0) (pz p0)) rest in
        hull ← convex_hull_add_vertex hull (min_x e) (min_y e) (min_z e);
        hull ← convex_hull_add_vertex hull (max_x e) (min_y e) (min_z e);
        hull ← convex_hull_add_vertex hull (max_x e) (max_y e) (min_z e);
        hull ← convex_hull_add_vertex hull (min_x e) (max_y e) (min_z e);
        hull ← convex_hull_add_vertex hull (min_x e) (min_y e) (max_z e);
        hull ← convex_hull_add_vertex hull (max_x e) (min_y e) (max_z e);
        hull ← convex_hull_add_vertex hull (max_x e) (max_y e) (max_z e);
        hull ← convex_hull_add_vertex hull (min_x e) (max_y e) (max_z e);
        Returns (Some hull)
  end.

Definition compute_convex_hull_2d (points : list point2d_t)
    (algorithm : convex_hull_algorithm_t) : checked (option convex_hull_t) :=
  if (length points <? 3)%nat then Returns None
  else
    let points_3d :=
      map (fun p => Point3d (p2x p) (p2y p) F32.zero) points in
    compute_convex_hull_3d points_3d algorithm.

(** [compute_centroid] writes the midpoint of the box to [center] and
    returns 1, or returns 0 and writes nothing. *)
Definition compute_centroid (hull : convex_hull_t) (center : list float)
    : float * list float :=
  if (hull_num_vertices hull =? 0)%nat then (F32.zero, center)
  else
    let mid (k : nat) : float :=
      F32.div (F32.add (hull_bounds hull !!! k)
                 (hull_bounds hull !!! (k + 3)%nat)) F32.two in
    (F32.one,
     <[2%nat := mid 2%nat]> (<[1%nat := mid 1%nat]>
                               (<[0%nat := mid 0%nat]> center))).

(** ** [convex_decomposition.c]: release and dispatch *)

(** The parts are freed one by one; the array and the decomposition
    itself are not blocks of the store. *)
Definition convex_decomposition_free (decomp : convex_decomposition_t)
    : M unit :=
  for_each convex_part_free (default [] (parts decomp)).

Record decomposition_params_t : Type := DecompositionParams {
  params_strategy : decomposition_strategy_t;
  params_max_parts : N;
  params_quality_threshold : float;
  params_concavity_tolerance : float;
  params_voxel_size : float;
  params_min_triangles_per_voxel : nat
}.

Section Dispatch.

Variable uninit_bounds : nat -> list float.

(** [fuel] bounds the recursion of the approximate strategy.  The
    hierarchical strategy receives [max_parts] as its [max_depth] and
    [quality_threshold] as its [split_threshold]. *)
Definition decompose_model (fuel : nat) (stl : stl_file_t)
    (params : decomposition_params_t) : M (option convex_decomposition_t) :=
  match params_strategy params with
  | DECOMP_APPROX_CONVEX =>
      approximate_convex_decomposition uninit_bounds fuel stl
        (params_max_parts params) (params_quality_threshold params)
        (params_concavity_tolerance params)
  | DECOMP_HIERARCHICAL =>
      hierarchical_decomposition uninit_bounds stl
        (N.to_nat (params_max_parts params))
        (params_quality_threshold params)
  | DECOMP_VOXEL_BASED =>
      voxel_based_decomposition uninit_bounds stl
        (params_voxel_size params) (params_min_triangles_per_voxel params)
  | _ =>
      approximate_convex_decomposition uninit_bounds fuel stl
        (params_max_parts params) (params_quality_threshold params)
        (params_concavity_tolerance params)
  end.

Definition decompose_model_simple (fuel : nat) (stl : stl_file_t)
    (strategy : decomposition_strategy_t) (max_parts : N)
    (quality_threshold : float) : M (option convex_decomposition_t) :=
  decompose_model fuel stl
    (DecompositionParams strategy max_parts quality_threshold F32.tenth
       F32.one 10).

End Dispatch.

(** ** [convex_decomposition.c]: geometry utilities *)

Definition f32_sqrt : float -> float := SFsqrt F32.prec F32.emax.

Definition cross_product_2d (x1 y1 x2 y2 : float) : float :=
  F32.sub (F32.mul x1 y2) (F32.mul x2 y1).

Definition dot_product_3d (x1 y1 z1 x2 y2 z2 : float) : float :=
  F32.add (F32.add (F32.mul x1 x2) (F32.mul y1 y2)) (F32.mul z1 z2).

Definition distance_3d (x1 y1 z1 x2 y2 z2 : float) : float :=
  let dx := F32.sub x2 x1 in
  let dy := F32.sub y2 y1 in
  let dz := F32.sub z2 z1 in
  f32_sqrt (F32.add (F32.add (F32.mul dx dx) (F32.mul dy dy)) (F32.mul dz dz)).

Definition orientation_2d (x1 y1 x2 y2 x3 y3 : float) : Z :=
  let val :=
    F32.sub (F32.mul (F32.sub y2 y1) (F32.sub x3 x2))
      (F32.mul (F32.sub x2 x1) (F32.sub y3 y2)) in
  if F32.gtb val F32.zero then 1
  else if F32.ltb val F32.zero then -1
  else 0.

(** Two floats that are the same number: equal, or both a zero (of either
    sign). *)
Definition is_zero (x : float) : bool :=
  match x with S754_zero _ => true | _ => false end.

Definition same_number (a b : float) : Prop :=
  a = b \/ (is_zero a = true /\ is_zero b = true).

(** ** Notions used to state the properties of hulls *)

(** The representation invariant of a hull that can take a vertex. *)
Definition hull_wf (hull : convex_hull_t) : Prop :=
  exists l,
    hull_vertices hull = Some l /\ length l = hull_num_vertices hull /\
    (1 <= hull_capacity hull)%N /\
    (N.of_nat (hull_num_vertices hull) <= hull_capacity hull)%N /\
    length (hull_bounds hull) = 6%nat.

(** The vertices stored in a hull. *)
Definition hull_points (hull : convex_hull_t) : list point3d_t :=
  default [] (hull_vertices hull).

Definition point_coord (p : point3d_t) (k : nat) : float :=
  match k with
  | O => px p
  | S O => py p
  | _ => pz p
  end.

Definition point_finite (p : point3d_t) : Prop :=
  forall k, F32.finite (point_coord p k) = true.

(** The eight corners of a box, in the order [compute_convex_hull_3d] adds
    them. *)
Definition box_corners (b : list float) : list point3d_t :=
  let lo (k : nat) := b !!! k in
  let hi (k : nat) := b !!! (k + 3)%nat in
  [Point3d (lo 0%nat) (lo 1%nat) (lo 2%nat);
   Point3d (hi 0%nat) (lo 1%nat) (lo 2%nat);
   Point3d (hi 0%nat) (hi 1%nat) (lo 2%nat);
   Point3d (lo 0%nat) (hi 1%nat) (lo 2%nat);
   Point3d (lo 0%nat) (lo 1%nat) (hi 2%nat);
   Point3d (hi 0%nat) (lo 1%nat) (hi 2%nat);
   Point3d (hi 0%nat) (hi 1%nat) (hi 2%nat);
   Point3d (lo 0%nat) (hi 1%nat) (hi 2%nat)].

(** The vertices [ps] added one after the other. *)
Fixpoint add_vertices (hull : convex_hull_t) (ps : list point3d_t)
    : checked convex_hull_t :=
  match ps with
  | [] => Returns hull
  | p :: ps' =>
      hull' ← convex_hull_add_vertex hull (px p) (py p) (pz p);
      add_vertices hull' ps'
  end.

Definition point2d_finite (p : point2d_t) : Prop :=
  F32.finite (p2x p) = true /\ F32.finite (p2y p) = true.

(** ** Notions used to state the properties of the hierarchical strategy *)

(** The triangle goes to the left half of a split. *)
Definition left_of (stl : stl_file_t) (split_axis : nat) (value : float)
    (triangle_idx : nat) : bool :=
  F32.ltb (triangle_center (triangles stl !!! triangle_idx) split_axis) value.

(** From [h] to [h'] the blocks allocated before and outside [T] are left
    as they were, and the blocks allocated since that are still live are
    exactly [new]. *)
Definition grows_by (T : nat -> Prop) (h : heap) (new : list part_ptr)
    (h' : heap) : Prop :=
  (next_block h <= next_block h')%nat /\
  (forall a, (a < next_block h)%nat -> ~ T a ->
     blocks h' !! a = blocks h !! a) /\
  (forall a, (next_block h <= a)%nat ->
     is_Some (blocks h' !! a) <-> a ∈ new) /\
  Forall (fun a => (next_block h <= a < next_block h')%nat) new /\
  NoDup new.

(** Every live block lies below [next_block]. *)
Definition heap_wf (h : heap) : Prop :=
  forall a, is_Some (blocks h !! a) -> (a < next_block h)%nat.

(** What a run of the splitting recursion on a part with the triangles
    [l] leaves behind: the decomposition is extended by live parts
    allocated during the run, which together hold the triangles [l] once
    each and of which there are at most [bound]; nothing else allocated
    during the run is still live. *)
Definition split_result (T : nat -> Prop) (h : heap)
    (d : convex_decomposition_t) (l : list nat) (bound : nat) (h' : heap)
    (d' : convex_decomposition_t) : Prop :=
  exists ps new,
    parts d = Some ps /\ parts d' = Some (ps ++ new) /\
    decomp_capacity d' = decomp_capacity d /\ strategy d' = strategy d /\
    grows_by T h new h' /\
    new ≫= part_triangles h' ≡ₚ l /\
    Forall (fun b => part_triangles h' b <> []) new /\
    (length new <= bound)%nat.

(** A part that can take a triangle: its array is there, it has room for
    at least one index and holds no more than its capacity. *)
Definition part_wf (part : convex_part_t) : Prop :=
  exists l,
    triangle_indices part = Some l /\ (1 <= capacity part)%N /\
    (N.of_nat (length l) <= capacity part)%N.

(** A part whose hull spans the whole range of [float]: its box volume
    overflows. *)
Definition huge_hull_part : convex_part_t :=
  ConvexPart
    (ConvexHull (Some (box_corners (rev bounds_sentinel))) 8 8
       (rev bounds_sentinel))
    (Some [0%nat]) 1 [F32.zero; F32.zero; F32.zero] F32.tenth.

(** Four points of the unit cube. *)
Definition tetra_points : list point3d_t :=
  [Point3d (fl 0) (fl 0) (fl 0); Point3d (fl 1) (fl 0) (fl 0);
   Point3d (fl 0) (fl 1) (fl 0); Point3d (fl 0) (fl 0) (fl 1)].

Definition square_points : list point2d_t :=
  [Point2d (fl 0) (fl 0); Point2d (fl 1) (fl 0); Point2d (fl 1) (fl 1);
   Point2d (fl 0) (fl 1)].

(** *** Lists whose entries are one of two values *)

Ltac corner_values :=
  repeat (apply List.Forall_cons;
          [first [left; reflexivity|right; reflexivity]|]);
  apply List.Forall_nil.

(** * Properties *)

Module F32Facts.
Import F32.

Lemma ltb_rank (x y : float) :
  ltb x y = true <->
  exists p q, rank x = Some p /\ rank y = Some q /\ lex_lt p q.
Proof.
  unfold ltb, SFltb, SFcompare.
  destruct x as [[]|[]| |[] mx ex], y as [[]|[]| |[] my ey]; simpl;
    rank_cases; simpl;
    (split;
     [ intros Hb; try discriminate Hb; do 2 eexists;
       (split; [reflexivity|split; [reflexivity|simpl; lia]])
     | intros (p & q & Hp & Hq & Hlt); try discriminate Hp;
       try discriminate Hq; inversion Hp; inversion Hq; subst;
       simpl in Hlt; try reflexivity; exfalso; lia ]).
Qed.

Lemma leb_rank (x y : float) :
  leb x y = true <->
  exists p q, rank x = Some p /\ rank y = Some q /\ lex_le p q.
Proof.
  unfold leb, SFleb, SFcompare, lex_le.
  destruct x as [[]|[]| |[] mx ex], y as [[]|[]| |[] my ey]; simpl;
    rank_cases; simpl;
    (split;
     [ intros Hb; try discriminate Hb; do 2 eexists;
       (split; [reflexivity|split; [reflexivity|simpl]]);
       first [ left; simpl; lia | right; subst; reflexivity
             | right; f_equal; lia | right; repeat f_equal; lia ]
     | intros (p & q & Hp & Hq & [Hlt|Heq]); try discriminate Hp;
       try discriminate Hq; inversion Hp; inversion Hq; subst;
       simpl in *; try reflexivity; exfalso;
       first [ lia | congruence | simplify_eq; lia ] ]).
Qed.
End F32Facts.

Module F32Order.
Import F32 F32Facts.

Lemma rank_is_Some (x : float) : is_nan x = false -> is_Some (rank x).
Proof. destruct x as [[]|[]| |[] m e]; simpl; intros; eauto; discriminate. Qed.

Lemma ltb_not_nan_l (x y : float) : ltb x y = true -> is_nan x = false.
Proof.
  intros (p & q & Hp & _)%ltb_rank. destruct x; simpl in *; congruence.
Qed.

Lemma ltb_leb (x y : float) : ltb x y = true -> leb x y = true.
Proof.
  intros (p & q & Hp & Hq & Hlt)%ltb_rank. apply leb_rank.
  exists p, q. unfold lex_le. auto.
Qed.

Lemma leb_refl (x : float) : is_nan x = false -> leb x x = true.
Proof.
  intros [p Hp]%rank_is_Some. apply leb_rank. exists p, p.
  unfold lex_le. auto.
Qed.

Lemma lex_total (p q : Z * Z * Z) : lex_lt p q \/ lex_le q p.
Proof.
  destruct p as [[a b] c], q as [[a' b'] c']. unfold lex_le, lex_lt.
  destruct (Z.lt_total a a') as [|[|]], (Z.lt_total b b') as [|[|]],
    (Z.lt_total c c') as [|[|]]; subst;
    first [left; lia | right; left; lia | right; right; reflexivity].
Qed.

Lemma lex_lt_le_False (p q : Z * Z * Z) : lex_lt p q -> lex_le q p -> False.
Proof.
  destruct p as [[a b] c], q as [[a' b'] c']. unfold lex_le, lex_lt.
  intros H [H'|H']; [lia|]. inversion H'; subst. lia.
Qed.

Lemma lex_le_trans (p q r : Z * Z * Z) :
  lex_le p q -> lex_le q r -> lex_le p r.
Proof.
  destruct p as [[a b] c], q as [[a' b'] c'], r as [[a'' b''] c''].
  unfold lex_le, lex_lt.
  intros [H|H] [H'|H']; simplify_eq; auto; left; lia.
Qed.

(** On numbers the order is total: [!(x < y)] gives [y <= x]. *)
Lemma not_ltb_leb (x y : float) :
  is_nan x = false -> is_nan y = false ->
  ltb x y = false -> leb y x = true.
Proof.
  intros [p Hp]%rank_is_Some [q Hq]%rank_is_Some Hlt.
  apply leb_rank. exists q, p. repeat split; auto.
  destruct (lex_total p q) as [H|H]; auto.
  assert (ltb x y = true) by (apply ltb_rank; eauto). congruence.
Qed.

Lemma ltb_leb_False (x y : float) :
  ltb x y = true -> leb y x = true -> False.
Proof.
  intros (p & q & Hp & Hq & Hlt)%ltb_rank (q' & p' & Hq' & Hp' & Hle)%leb_rank.
  simplify_eq. eauto using lex_lt_le_False.
Qed.

Lemma leb_trans (x y z : float) :
  leb x y = true -> leb y z = true -> leb x z = true.
Proof.
  intros (p & q & Hp & Hq & H1)%leb_rank (q' & r & Hq' & Hr & H2)%leb_rank.
  simplify_eq. apply leb_rank. exists p, r. eauto using lex_le_trans.
Qed.

Lemma leb_not_nan (x y : float) :
  leb x y = true -> is_nan x = false /\ is_nan y = false.
Proof.
  intros (p & q & Hp & Hq & _)%leb_rank.
  destruct x, y; simpl in *; try congruence; auto.
Qed.

Lemma finite_not_nan (x : float) : finite x = true -> is_nan x = false.
Proof. destruct x; simpl; congruence. Qed.

Lemma digits2_pos_bound (m : positive) :
  Z.pos m < 2 ^ Z.pos (digits2_pos m).
Proof.
  induction m as [m IH|m IH|]; simpl; [| |lia];
    rewrite Pos2Z.inj_succ, Z.pow_succ_r by lia; lia.
Qed.

Lemma bounded_range (m : positive) (e : Z) :
  bounded prec emax m e = true -> e <= 104 /\ Z.pos m <= 16777215.
Proof.
  unfold bounded, canonical_mantissa, fexp, SpecFloat.emin, prec, emax.
  intros [H1 H2]%andb_prop. apply Z.eqb_eq in H1. apply Z.leb_le in H2.
  split; [lia|].
  assert (Z.pos (digits2_pos m) <= 24) by lia.
  pose proof (digits2_pos_bound m).
  assert (2 ^ Z.pos (digits2_pos m) <= 2 ^ 24)
    by (apply Z.pow_le_mono_r; lia).
  change (2 ^ 24) with 16777216 in *. lia.
Qed.

Lemma finite_le_max (x : float) : finite x = true -> leb x FLT_MAX = true.
Proof.
  intros Hx. apply leb_rank.
  destruct x as [s| | |[] m e]; simpl in Hx; try discriminate;
    try apply bounded_range in Hx; simpl;
    do 2 eexists; (split; [reflexivity|split; [reflexivity|]]);
    unfold lex_le, lex_lt; try (left; lia).
  destruct (decide (e = 104)), (decide (Z.pos m = 16777215));
    [right; congruence|left; lia..].
Qed.

Lemma finite_ge_min (x : float) :
  finite x = true -> leb (opp FLT_MAX) x = true.
Proof.
  intros Hx. apply leb_rank.
  destruct x as [s| | |[] m e]; simpl in Hx; try discriminate;
    try apply bounded_range in Hx; simpl;
    do 2 eexists; (split; [reflexivity|split; [reflexivity|]]);
    unfold lex_le, lex_lt; try (left; lia).
  destruct (decide (e = 104)), (decide (Z.pos m = 16777215));
    [right; congruence|left; lia..].
Qed.

Lemma max_le_finite (x : float) :
  finite x = true -> leb FLT_MAX x = true -> x = FLT_MAX.
Proof.
  intros Hx (p & q & Hp & Hq & Hle)%leb_rank.
  destruct x as [s| | |[] m e]; simpl in *; try discriminate;
    try apply bounded_range in Hx; simplify_eq;
    unfold lex_le, lex_lt in Hle; destruct Hle as [?|Heq];
    try lia; try discriminate Heq.
  inversion Heq; subst. reflexivity.
Qed.

Lemma min_ge_finite (x : float) :
  finite x = true -> leb x (opp FLT_MAX) = true -> x = opp FLT_MAX.
Proof.
  intros Hx (p & q & Hp & Hq & Hle)%leb_rank.
  destruct x as [s| | |[] m e]; simpl in *; try discriminate;
    try apply bounded_range in Hx; simplify_eq;
    unfold lex_le, lex_lt in Hle; destruct Hle as [?|Heq];
    try lia; try discriminate Heq.
  inversion Heq; subst. assert (e = 104) by lia. subst. reflexivity.
Qed.

End F32Order.

(** ** The two insertion sorts meet the contract of [qsort_r] *)

Section InsertionSort.
Variable cmp : nat -> nat -> Z.
Variable before : nat -> nat -> bool.

Lemma insert_by_perm (x : nat) (l : list nat) :
  insert_by before x l ≡ₚ x :: l.
Proof.
  induction l as [|y l IH]; simpl; [done|].
  destruct (before x y); [done|]. rewrite IH. apply Permutation_swap.
Qed.

Lemma foldr_insert_by_perm (l : list nat) :
  foldr (insert_by before) [] l ≡ₚ l.
Proof.
  induction l as [|x l IH]; simpl; [done|].
  rewrite insert_by_perm. by f_equiv.
Qed.

(** [before x y] may hold only if [x] sorts no later than [y], and must
    hold if [x] sorts strictly earlier. *)
Hypothesis before_le : forall x y, before x y = true -> cmp x y <= 0.
Hypothesis before_lt : forall x y, cmp x y < 0 -> before x y = true.

Lemma insert_by_sorted (dom : list nat) (x : nat) (l : list nat) :
  cmp_consistent cmp dom -> x ∈ dom -> l ⊆ dom ->
  StronglySorted (fun a b => cmp a b <= 0) l ->
  StronglySorted (fun a b => cmp a b <= 0) (insert_by before x l).
Proof.
  intros [Hsign Htrans] Hx Hl Hs.
  induction Hs as [|y l Hs IH Hy]; simpl.
  - repeat constructor.
  - assert (y ∈ dom) as Hyd by (apply Hl; left).
    assert (l ⊆ dom) as Hld by (intros z Hz; apply Hl; by right).
    destruct (before x y) eqn:Hb.
    + apply before_le in Hb. constructor; [by constructor|].
      constructor; [done|].
      rewrite Forall_forall in Hy |- *. intros z Hz.
      apply (Htrans x y z); auto.
    + assert (cmp y x <= 0) as Hyx.
      { destruct (Z_lt_le_dec 0 (cmp y x)) as [Hpos|]; [|done].
        apply Hsign in Hpos; auto. apply before_lt in Hpos. congruence. }
      constructor; [by apply IH|].
      rewrite Forall_forall in Hy |- *. intros z Hz.
      rewrite insert_by_perm in Hz.
      apply elem_of_cons in Hz as [->|Hz]; [done|]. by apply Hy.
Qed.

Lemma foldr_insert_by_sorted (dom l : list nat) :
  cmp_consistent cmp dom -> l ⊆ dom ->
  StronglySorted (fun a b => cmp a b <= 0) (foldr (insert_by before) [] l).
Proof.
  intros Hc. induction l as [|x l IH]; intros Hl; simpl; [constructor|].
  apply (insert_by_sorted dom); auto.
  - apply Hl. left.
  - intros z Hz. rewrite foldr_insert_by_perm in Hz. apply Hl. by right.
  - apply IH. intros z Hz. apply Hl. by right.
Qed.
End InsertionSort.

Lemma stable_qsort_permutes : qsort_permutes stable_qsort.
Proof. intros cmp l. apply foldr_insert_by_perm. Qed.

Lemma reversing_qsort_permutes : qsort_permutes reversing_qsort.
Proof. intros cmp l. apply foldr_insert_by_perm. Qed.

Lemma stable_qsort_sorts : qsort_sorts stable_qsort.
Proof.
  intros cmp l Hc. apply (foldr_insert_by_sorted cmp _) with (dom := l);
    auto; intros x y; [apply Z.leb_le|intros; apply Z.leb_le; lia].
Qed.

Lemma reversing_qsort_sorts : qsort_sorts reversing_qsort.
Proof.
  intros cmp l Hc. apply (foldr_insert_by_sorted cmp _) with (dom := l);
    auto; intros x y; [intros ?%Z.ltb_lt; lia|apply Z.ltb_lt].
Qed.

(** ** Coverage of the leaves *)

Section BvhFacts.
Variable qsort_r : (nat -> nat -> Z) -> list nat -> list nat.
Variable node_garbage : list float.

Lemma bvh_build_from_nil gap stl depth mtl sa :
  bvh_build_from qsort_r node_garbage gap stl [] depth mtl sa = None.
Proof. by destruct gap. Qed.

Lemma bvh_build_from_leaf gap stl idxs depth mtl sa :
  idxs <> [] ->
  gap = O \/ (length idxs <= mtl)%nat ->
  bvh_build_from qsort_r node_garbage gap stl idxs depth mtl sa =
  Some (BVH_LEAF (leaf_bounds stl idxs) idxs).
Proof.
  intros Hne Hstop. destruct idxs as [|i idxs]; [done|].
  destruct gap as [|gap]; [done|]. destruct Hstop as [?|Hle]; [done|].
  cbn [bvh_build_from]. apply Nat.leb_le in Hle. by rewrite Hle.
Qed.

Lemma bvh_build_from_split gap stl idxs depth mtl sa :
  (mtl < length idxs)%nat ->
  bvh_build_from qsort_r node_garbage (S gap) stl idxs depth mtl sa =
  let sorted :=
    bvh_sort_triangles_by_axis qsort_r idxs stl
      (sort_axis_of_nat (depth mod 3)) in
  let mid := (length idxs / 2)%nat in
  match bvh_build_from qsort_r node_garbage gap stl (take mid sorted)
          (depth + 1) mtl sa,
        bvh_build_from qsort_r node_garbage gap stl (drop mid sorted)
          (depth + 1) mtl sa with
  | Some l, Some r =>
      Some (BVH_INTERNAL (internal_bounds (node_bounds l) (node_bounds r))
              l r)
  | _, _ => None
  end.
Proof.
  intros Hlt. destruct idxs as [|i idxs]; [simpl in Hlt; lia|].
  cbn [bvh_build_from].
  apply Nat.leb_gt in Hlt. rewrite Hlt. cbv zeta.
  repeat case_match; reflexivity.
Qed.

Lemma bvh_sort_perm idxs stl axis :
  qsort_permutes qsort_r ->
  bvh_sort_triangles_by_axis qsort_r idxs stl axis ≡ₚ idxs.
Proof. intros Hp. destruct idxs; [done|]. apply Hp. Qed.

(** Induction principle for the build: a leaf, or a split whose halves
    satisfy the property. *)
Lemma bvh_build_from_ind (P : list nat -> bvh_node_t -> Prop) stl mtl sa :
  (forall idxs, idxs <> [] -> P idxs (BVH_LEAF (leaf_bounds stl idxs) idxs)) ->
  (forall idxs depth l r,
     (mtl < length idxs)%nat ->
     let sorted :=
       bvh_sort_triangles_by_axis qsort_r idxs stl
         (sort_axis_of_nat (depth mod 3)) in
     let mid := (length idxs / 2)%nat in
     P (take mid sorted) l -> P (drop mid sorted) r ->
     P idxs (BVH_INTERNAL (internal_bounds (node_bounds l) (node_bounds r))
               l r)) ->
  forall gap idxs depth node,
    bvh_build_from qsort_r node_garbage gap stl idxs depth mtl sa
      = Some node ->
    P idxs node.
Proof.
  intros Hleaf Hsplit gap.
  induction gap as [|gap IH]; intros idxs depth node Hb.
  - destruct idxs as [|i idxs]; [done|].
    rewrite bvh_build_from_leaf in Hb by auto. simplify_eq. by apply Hleaf.
  - destruct idxs as [|i idxs]; [done|].
    destruct (decide (length (i :: idxs) <= mtl)%nat) as [Hle|Hgt].
    + rewrite bvh_build_from_leaf in Hb by auto. simplify_eq.
      by apply Hleaf.
    + rewrite bvh_build_from_split in Hb by lia. cbv zeta in Hb.
      destruct (bvh_build_from _ _ gap stl (take _ _) _ _ _) as [l|] eqn:Hl;
        [|done].
      destruct (bvh_build_from _ _ gap stl (drop _ _) _ _ _) as [r|] eqn:Hr;
        [|done].
      simplify_eq. apply (Hsplit (i :: idxs) depth l r); [lia|eauto..].
Qed.

Lemma bvh_build_from_leaves stl mtl sa gap idxs depth node :
  qsort_permutes qsort_r ->
  bvh_build_from qsort_r node_garbage gap stl idxs depth mtl sa
    = Some node ->
  leaf_indices node ≡ₚ idxs.
Proof.
  intros Hp. revert gap idxs depth node.
  apply bvh_build_from_ind with (P := fun idxs node => leaf_indices node ≡ₚ idxs).
  - done.
  - intros idxs depth l r _ sorted mid Hl Hr. simpl.
    rewrite Hl, Hr, take_drop. by apply bvh_sort_perm.
Qed.

(** With a leaf capacity of at least one the build never fails. *)
Lemma bvh_build_from_succeeds stl mtl sa gap idxs depth :
  qsort_permutes qsort_r -> (1 <= mtl)%nat -> idxs <> [] ->
  is_Some (bvh_build_from qsort_r node_garbage gap stl idxs depth mtl sa).
Proof.
  intros Hp Hm. revert idxs depth.
  induction gap as [|gap IH]; intros idxs depth Hne.
  - rewrite bvh_build_from_leaf by auto. eauto.
  - destruct (decide (length idxs <= mtl)%nat) as [Hle|Hgt].
    + rewrite bvh_build_from_leaf by auto. eauto.
    + rewrite bvh_build_from_split by lia. cbv zeta.
      pose proof (bvh_sort_perm idxs stl (sort_axis_of_nat (depth mod 3)) Hp)
        as Hperm.
      apply Permutation_length in Hperm.
      set (sorted := bvh_sort_triangles_by_axis _ _ _ _) in *.
      assert (2 <= length idxs)%nat by lia.
      assert (1 <= length idxs / 2 < length idxs)%nat.
      { split; [apply Nat.div_le_lower_bound; lia
               |apply Nat.Div0.div_lt_upper_bound; lia]. }
      destruct (IH (take (length idxs / 2) sorted) (depth + 1)%nat) as [l ->].
      { intros Hnil. apply (f_equal length) in Hnil.
        rewrite length_take in Hnil. cbn [length] in Hnil. lia. }
      destruct (IH (drop (length idxs / 2) sorted) (depth + 1)%nat) as [r ->].
      { intros Hnil. apply (f_equal length) in Hnil.
        rewrite length_drop in Hnil. cbn [length] in Hnil. lia. }
      eauto.
Qed.
End BvhFacts.

(** C1. The leaves of a tree built by [bvh_create] hold every triangle index
    of the mesh exactly once: their concatenation is a permutation of
    [0 .. num_triangles - 1].  Of [qsort_r] only the fact that it permutes
    its array is used. *)
Theorem bvh_leaves_cover qsort_r node_garbage stl mtl t :
  qsort_permutes qsort_r ->
  bvh_create qsort_r node_garbage stl mtl = Some t ->
  leaf_indices (root t) ≡ₚ seq 0 (num_triangles stl).
Proof.
  intros Hp. unfold bvh_create, bvh_build_recursive.
  destruct (num_triangles stl =? 0)%nat; [done|].
  destruct (bvh_build_from _ _ _ _ _ _ _ _) as [r|] eqn:Hb; [|done].
  intros [= <-]. simpl. eauto using bvh_build_from_leaves.
Qed.

Lemma bvh_leaves_cover_witness :
  exists t, bvh_create stable_qsort no_garbage cube_mesh 2 = Some t /\
            leaf_indices (root t) ≡ₚ seq 0 (num_triangles cube_mesh).
Proof.
  eexists. split; [vm_compute; reflexivity|].
  apply (bvh_leaves_cover stable_qsort no_garbage cube_mesh 2).
  - apply stable_qsort_permutes.
  - vm_compute; reflexivity.
Defined.

Lemma bvh_create_succeeds qsort_r node_garbage stl mtl :
  qsort_permutes qsort_r -> (1 <= mtl)%nat -> (1 <= num_triangles stl)%nat ->
  is_Some (bvh_create qsort_r node_garbage stl mtl).
Proof.
  intros Hp Hm Hn. unfold bvh_create, bvh_build_recursive.
  destruct (Nat.eqb_spec (num_triangles stl) 0); [lia|].
  destruct (bvh_build_from_succeeds qsort_r node_garbage stl mtl SORT_XYZ
              (20 - 0) (seq 0 (num_triangles stl)) 0%nat Hp Hm) as [r ->].
  - destruct (num_triangles stl); [lia|done].
  - eauto.
Qed.

(** ** Exactness of the boxes *)

Section Boxes.
Import F32 F32Order.

Lemma bounds_include_slots (b : list float) (k : nat) (val : float) :
  length b = 6%nat -> (k < 3)%nat ->
  length (bounds_include b k val) = 6%nat /\
  forall i, (i < 3)%nat ->
    bounds_include b k val !!! i =
      (if decide (i = k) then min_step (b !!! i) val else b !!! i) /\
    bounds_include b k val !!! (i + 3)%nat =
      (if decide (i = k) then max_step (b !!! (i + 3)%nat) val
       else b !!! (i + 3)%nat).
Proof.
  intros Hb Hk.
  destruct b as [|b0 [|b1 [|b2 [|b3 [|b4 [|b5 [|]]]]]]]; try discriminate.
  destruct k as [|[|[|]]]; try lia;
    unfold bounds_include, min_step, max_step, F32.gtb; cbn;
    (split; [repeat case_match; reflexivity|]);
    intros [|[|[|]]] Hi; try lia; cbn;
    repeat case_decide; try lia; repeat case_match; cbn; try done.
  all: cbn in *; split; congruence.
Qed.

(** One vertex: each of the six slots is updated once. *)
Lemma vertex_fold_slots (b : list float) (t : stl_triangle_t) (j : nat) :
  length b = 6%nat ->
  let b' := include_vertex t b j in
  length b' = 6%nat /\
  forall i, (i < 3)%nat ->
    b' !!! i = min_step (b !!! i) (vertex_coord t j i) /\
    b' !!! (i + 3)%nat = max_step (b !!! (i + 3)%nat) (vertex_coord t j i).
Proof.
  intros Hb. unfold include_vertex. cbn [foldl].
  destruct (bounds_include_slots b 0 (vertex_coord t j 0) Hb) as [H0 S0];
    [lia|].
  destruct (bounds_include_slots _ 1 (vertex_coord t j 1) H0) as [H1 S1];
    [lia|].
  destruct (bounds_include_slots _ 2 (vertex_coord t j 2) H1) as [H2 S2];
    [lia|].
  split; [done|]. intros i Hi.
  destruct (S0 i Hi) as [-> ->] || (destruct (S2 i Hi) as [E2 E2'];
    destruct (S1 i Hi) as [E1 E1']; destruct (S0 i Hi) as [E0 E0'];
    rewrite E2, E2', E1, E1', E0, E0';
    destruct i as [|[|[|]]]; try lia; simpl; done).
Qed.

Lemma triangle_fold_slots (b : list float) (t : stl_triangle_t) :
  length b = 6%nat ->
  let b' := foldl (include_vertex t) b [0; 1; 2]%nat in
  length b' = 6%nat /\
  forall i, (i < 3)%nat ->
    b' !!! i =
      foldl min_step (b !!! i)
        (map (fun j => vertex_coord t j i) [0; 1; 2]%nat) /\
    b' !!! (i + 3)%nat =
      foldl max_step (b !!! (i + 3)%nat)
        (map (fun j => vertex_coord t j i) [0; 1; 2]%nat).
Proof.
  intros Hb. cbn [foldl map].
  destruct (vertex_fold_slots b t 0 Hb) as [H0 S0].
  destruct (vertex_fold_slots _ t 1 H0) as [H1 S1].
  destruct (vertex_fold_slots _ t 2 H1) as [H2 S2].
  cbv zeta in *. cbn [foldl] in *.
  split; [done|]. intros i Hi.
  destruct (S2 i Hi) as [-> ->], (S1 i Hi) as [-> ->],
    (S0 i Hi) as [-> ->]. done.
Qed.

Lemma leaf_fold_slots (stl : stl_file_t) (idxs : list nat) (b : list float) :
  length b = 6%nat ->
  let b' := foldl (include_triangle stl) b idxs in
  length b' = 6%nat /\
  forall i, (i < 3)%nat ->
    b' !!! i = foldl min_step (b !!! i) (leaf_coords stl idxs i) /\
    b' !!! (i + 3)%nat =
      foldl max_step (b !!! (i + 3)%nat) (leaf_coords stl idxs i).
Proof.
  revert b. induction idxs as [|idx idxs IH]; intros b Hb; [done|].
  cbn [foldl]. cbv zeta.
  destruct (triangle_fold_slots b (triangles stl !!! idx) Hb) as [H1 S1].
  cbv zeta in H1, S1. fold (include_triangle stl b idx) in H1, S1.
  destruct (IH _ H1) as [H2 S2]. cbv zeta in H2, S2.
  split; [done|]. intros i Hi.
  destruct (S2 i Hi) as [-> ->], (S1 i Hi) as [-> ->].
  unfold leaf_coords. cbn [flat_map]. by rewrite !foldl_app.
Qed.

Lemma leaf_bounds_slots (stl : stl_file_t) (idxs : list nat) :
  length (leaf_bounds stl idxs) = 6%nat /\
  forall i, (i < 3)%nat ->
    leaf_bounds stl idxs !!! i =
      foldl min_step FLT_MAX (leaf_coords stl idxs i) /\
    leaf_bounds stl idxs !!! (i + 3)%nat =
      foldl max_step (opp FLT_MAX) (leaf_coords stl idxs i).
Proof.
  destruct (leaf_fold_slots stl idxs bounds_sentinel eq_refl) as [H S].
  split; [exact H|]. intros i Hi. destruct (S i Hi) as [E1 E2].
  unfold leaf_bounds. rewrite E1, E2.
  destruct i as [|[|[|]]]; try lia; split; reflexivity.
Qed.

(** *** Running minimum and maximum *)

Lemma min_step_not_nan (a v : float) :
  is_nan a = false -> is_nan (min_step a v) = false.
Proof.
  unfold min_step. destruct (ltb v a) eqn:H; [|done].
  intros _. by apply ltb_not_nan_l in H.
Qed.

Lemma max_step_not_nan (a v : float) :
  is_nan a = false -> is_nan (max_step a v) = false.
Proof.
  unfold max_step, gtb. fold (ltb a v). destruct (ltb a v) eqn:H; [|done].
  intros _. apply ltb_leb, leb_not_nan in H. tauto.
Qed.

Lemma foldl_min_step_not_nan (xs : list float) (a : float) :
  is_nan a = false -> is_nan (foldl min_step a xs) = false.
Proof.
  revert a. induction xs; simpl; auto using min_step_not_nan.
Qed.

Lemma foldl_max_step_not_nan (xs : list float) (a : float) :
  is_nan a = false -> is_nan (foldl max_step a xs) = false.
Proof.
  revert a. induction xs; simpl; auto using max_step_not_nan.
Qed.

Lemma foldl_min_step_spec (xs : list float) (a : float) :
  is_nan a = false -> Forall (fun x => is_nan x = false) xs ->
  let r := foldl min_step a xs in
  (r = a \/ r ∈ xs) /\ leb r a = true /\
  forall x, x ∈ xs -> leb r x = true.
Proof.
  revert a. induction xs as [|v xs IH]; intros a Ha Hxs; simpl.
  - split; [auto|]. split; [by apply leb_refl|]. by intros x ?%elem_of_nil.
  - apply Forall_cons in Hxs as [Hv Hxs].
    destruct (IH (min_step a v) (min_step_not_nan a v Ha) Hxs)
      as (Hin & Hle & Hall).
    assert (leb (min_step a v) a = true /\ leb (min_step a v) v = true
            /\ (min_step a v = a \/ min_step a v = v)) as (Ha' & Hv' & Hor).
    { unfold min_step. destruct (ltb v a) eqn:E.
      - split; [by apply ltb_leb|]. split; [by apply leb_refl|auto].
      - split; [by apply leb_refl|]. split; [by apply not_ltb_leb|auto]. }
    split; [|split].
    + destruct Hin as [->|Hin]; [|right; by right].
      destruct Hor as [->| ->]; [by left|right; left].
    + eauto using leb_trans.
    + intros x [->|Hx]%elem_of_cons; eauto using leb_trans.
Qed.

Lemma foldl_max_step_spec (xs : list float) (a : float) :
  is_nan a = false -> Forall (fun x => is_nan x = false) xs ->
  let r := foldl max_step a xs in
  (r = a \/ r ∈ xs) /\ leb a r = true /\
  forall x, x ∈ xs -> leb x r = true.
Proof.
  revert a. induction xs as [|v xs IH]; intros a Ha Hxs; simpl.
  - split; [auto|]. split; [by apply leb_refl|]. by intros x ?%elem_of_nil.
  - apply Forall_cons in Hxs as [Hv Hxs].
    destruct (IH (max_step a v) (max_step_not_nan a v Ha) Hxs)
      as (Hin & Hle & Hall).
    assert (leb a (max_step a v) = true /\ leb v (max_step a v) = true
            /\ (max_step a v = a \/ max_step a v = v)) as (Ha' & Hv' & Hor).
    { unfold max_step, gtb. fold (ltb a v). destruct (ltb a v) eqn:E.
      - split; [by apply ltb_leb|]. split; [by apply leb_refl|auto].
      - split; [by apply leb_refl|]. split; [by apply not_ltb_leb|auto]. }
    split; [|split].
    + destruct Hin as [->|Hin]; [|right; by right].
      destruct Hor as [->| ->]; [by left|right; left].
    + eauto using leb_trans.
    + intros x [->|Hx]%elem_of_cons; eauto using leb_trans.
Qed.

Lemma foldl_min_step_is_min (xs : list float) :
  xs <> [] -> Forall (fun x => finite x = true) xs ->
  is_min (foldl min_step FLT_MAX xs) xs.
Proof.
  intros Hne Hfin.
  destruct (foldl_min_step_spec xs FLT_MAX eq_refl) as (Hin & Hle & Hall).
  { eapply Forall_impl; [exact Hfin|]. auto using finite_not_nan. }
  split; [|exact Hall]. destruct Hin as [Heq|Hin]; [|done].
  destruct xs as [|x xs]; [done|]. rewrite Heq in *.
  apply Forall_cons in Hfin as [Hx _].
  rewrite <- (max_le_finite x Hx (Hall x ltac:(left))). left.
Qed.

Lemma foldl_max_step_is_max (xs : list float) :
  xs <> [] -> Forall (fun x => finite x = true) xs ->
  is_max (foldl max_step (opp FLT_MAX) xs) xs.
Proof.
  intros Hne Hfin.
  destruct (foldl_max_step_spec xs (opp FLT_MAX) eq_refl)
    as (Hin & Hle & Hall).
  { eapply Forall_impl; [exact Hfin|]. auto using finite_not_nan. }
  split; [|exact Hall]. destruct Hin as [Heq|Hin]; [|done].
  destruct xs as [|x xs]; [done|]. rewrite Heq in *.
  apply Forall_cons in Hfin as [Hx _].
  rewrite <- (min_ge_finite x Hx (Hall x ltac:(left))). left.
Qed.

Lemma internal_bounds_slots (lb rb : list float) :
  length lb = 6%nat -> length rb = 6%nat ->
  length (internal_bounds lb rb) = 6%nat /\
  forall i, (i < 3)%nat ->
    internal_bounds lb rb !!! i = min_step (lb !!! i) (rb !!! i) /\
    internal_bounds lb rb !!! (i + 3)%nat =
      max_step (lb !!! (i + 3)%nat) (rb !!! (i + 3)%nat).
Proof.
  intros Hl Hr.
  destruct lb as [|l0 [|l1 [|l2 [|l3 [|l4 [|l5 [|]]]]]]]; try discriminate.
  destruct rb as [|r0 [|r1 [|r2 [|r3 [|r4 [|r5 [|]]]]]]]; try discriminate.
  unfold internal_bounds, min_step, max_step, F32.gtb; cbn.
  split; [repeat case_match; reflexivity|].
  intros [|[|[|]]] Hi; try lia; cbn; repeat case_match; cbn in *;
    split; congruence.
Qed.

Lemma min_step_is_min (l r : float) :
  is_nan l = false -> is_nan r = false -> is_min (min_step l r) [l; r].
Proof.
  intros Hl Hr. unfold is_min, min_step. destruct (ltb r l) eqn:E.
  - split; [repeat constructor|]. intros x Hx.
    assert (x = l \/ x = r) as [-> | ->]
      by (apply elem_of_cons in Hx as [?|Hx%list_elem_of_singleton]; auto);
      auto using ltb_leb, leb_refl.
  - split; [repeat constructor|]. intros x Hx.
    assert (x = l \/ x = r) as [-> | ->]
      by (apply elem_of_cons in Hx as [?|Hx%list_elem_of_singleton]; auto);
      auto using not_ltb_leb, leb_refl.
Qed.

Lemma max_step_is_max (l r : float) :
  is_nan l = false -> is_nan r = false -> is_max (max_step l r) [l; r].
Proof.
  intros Hl Hr. unfold is_max, max_step, gtb. fold (ltb l r).
  destruct (ltb l r) eqn:E.
  - split; [repeat constructor|]. intros x Hx.
    assert (x = l \/ x = r) as [-> | ->]
      by (apply elem_of_cons in Hx as [?|Hx%list_elem_of_singleton]; auto);
      auto using ltb_leb, leb_refl.
  - split; [repeat constructor|]. intros x Hx.
    assert (x = l \/ x = r) as [-> | ->]
      by (apply elem_of_cons in Hx as [?|Hx%list_elem_of_singleton]; auto);
      auto using not_ltb_leb, leb_refl.
Qed.

Lemma vertex_coord_finite (stl : stl_file_t) (idx j k : nat) :
  mesh_finite stl -> (j < 3)%nat -> (k < 3)%nat ->
  finite (vertex_coord (triangles stl !!! idx) j k) = true.
Proof.
  intros Hm Hj Hk. destruct (triangles stl !! idx) as [t|] eqn:E.
  - rewrite (list_lookup_total_correct _ _ _ E).
    apply Hm; auto. eapply list_elem_of_lookup_2, E.
  - rewrite list_lookup_total_alt, E.
    by destruct j as [|[|[|]]], k as [|[|[|]]]; try lia.
Qed.

Lemma leaf_coords_finite (stl : stl_file_t) (idxs : list nat) (k : nat) :
  mesh_finite stl -> (k < 3)%nat ->
  Forall (fun x => finite x = true) (leaf_coords stl idxs k).
Proof.
  intros Hm Hk. unfold leaf_coords.
  induction idxs as [|idx idxs IH]; cbn [flat_map map]; [constructor|].
  repeat (constructor; [apply vertex_coord_finite; auto; lia|]).
  exact IH.
Qed.

Lemma leaf_coords_nonempty (stl : stl_file_t) (idxs : list nat) (k : nat) :
  idxs <> [] -> leaf_coords stl idxs k <> [].
Proof. by destruct idxs. Qed.

Lemma bvh_build_from_boxes qsort_r node_garbage stl mtl sa gap idxs depth
    node :
  mesh_finite stl ->
  bvh_build_from qsort_r node_garbage gap stl idxs depth mtl sa
    = Some node ->
  bounds_exact stl node /\ box_wf (node_bounds node).
Proof.
  intros Hm. revert gap idxs depth node.
  apply bvh_build_from_ind
    with (P := fun _ node => bounds_exact stl node /\
                             box_wf (node_bounds node)).
  - intros idxs Hne. destruct (leaf_bounds_slots stl idxs) as [Hlen Hs].
    cbn [bounds_exact node_bounds].
    split; [|split; [exact Hlen|]]; intros k Hk;
      destruct (Hs k Hk) as [E1 E2]; rewrite E1, E2.
    + split; [apply foldl_min_step_is_min|apply foldl_max_step_is_max];
        auto using leaf_coords_finite, leaf_coords_nonempty.
    + split; [by apply foldl_min_step_not_nan
             |by apply foldl_max_step_not_nan].
  - intros idxs depth l r _ sorted mid [Hl [Hll Hln]] [Hr [Hrl Hrn]].
    destruct (internal_bounds_slots _ _ Hll Hrl) as [Hlen Hs].
    cbn [bounds_exact node_bounds].
    split; [split; [|done]|split; [exact Hlen|]]; intros k Hk;
      destruct (Hs k Hk) as [E1 E2]; rewrite E1, E2;
      destruct (Hln k Hk) as [? ?], (Hrn k Hk) as [? ?].
    + split; [by apply min_step_is_min|by apply max_step_is_max].
    + split; [by apply min_step_not_nan|by apply max_step_not_nan].
Qed.
End Boxes.


Lemma cube_mesh_finite : mesh_finite cube_mesh.
Proof.
  intros t j k Ht Hj Hk. unfold cube_mesh in Ht. cbn [triangles] in Ht.
  repeat (apply elem_of_cons in Ht as [->|Ht];
          [by destruct j as [|[|[|]]], k as [|[|[|]]]; try lia|]).
  by apply elem_of_nil in Ht.
Qed.



(** ** Order of the candidates at a split *)

Section SortOrder.
Import F32 F32Order.
Variable stl : stl_file_t.
Variable axis : sort_axis_t.

Lemma compare_le_iff (a b : nat) :
  is_nan (centroid_coord stl axis a) = false ->
  is_nan (centroid_coord stl axis b) = false ->
  bvh_compare_triangles stl axis a b <= 0 <->
  leb (centroid_coord stl axis a) (centroid_coord stl axis b) = true.
Proof.
  intros Ha Hb. unfold bvh_compare_triangles, gtb.
  fold (centroid_coord stl axis a) (centroid_coord stl axis b).
  set (ca := centroid_coord stl axis a) in *.
  set (cb := centroid_coord stl axis b) in *.
  fold (ltb cb ca).
  destruct (ltb ca cb) eqn:E1; [|destruct (ltb cb ca) eqn:E2].
  - split; [auto using ltb_leb|lia].
  - split; [lia|]. intros Hle. exfalso. eauto using ltb_leb_False.
  - split; [auto using not_ltb_leb|lia].
Qed.

Lemma compare_sign (a b : nat) :
  bvh_compare_triangles stl axis a b < 0 <->
  0 < bvh_compare_triangles stl axis b a.
Proof.
  unfold bvh_compare_triangles, gtb.
  fold (centroid_coord stl axis a) (centroid_coord stl axis b).
  set (ca := centroid_coord stl axis a) in *.
  set (cb := centroid_coord stl axis b) in *.
  fold (ltb cb ca) (ltb ca cb).
  destruct (ltb ca cb) eqn:E1, (ltb cb ca) eqn:E2; try lia.
  exfalso. eauto using ltb_leb_False, ltb_leb.
Qed.

Lemma compare_consistent (l : list nat) :
  (forall i, i ∈ l -> is_nan (centroid_coord stl axis i) = false) ->
  cmp_consistent (bvh_compare_triangles stl axis) l.
Proof.
  intros Hl. split.
  - intros a b _ _. apply compare_sign.
  - intros a b c Ha Hb Hc. rewrite !compare_le_iff by auto.
    apply leb_trans.
Qed.
End SortOrder.

Lemma StronglySorted_impl_on {A} (R R' : A -> A -> Prop) (l : list A) :
  (forall a b, a ∈ l -> b ∈ l -> R a b -> R' a b) ->
  StronglySorted R l -> StronglySorted R' l.
Proof.
  intros HR Hs. induction Hs as [|x l Hs IH Hx]; constructor.
  - apply IH. intros a b Ha Hb. apply HR; by right.
  - rewrite Forall_forall in Hx |- *. intros y Hy.
    apply HR; [left|by right|by apply Hx].
Qed.




(** ** Assignment of triangles to partitions *)

Lemma find_partition_no_match (center_x : float) (pb : list float)
    (js : list nat) :
  (forall j, j ∈ js ->
     F32.geb center_x (pb !!! (j * 6)%nat)
     && F32.ltb center_x (pb !!! (j * 6 + 3)%nat) = false) ->
  find_partition center_x pb js = 0%nat.
Proof.
  induction js as [|j js IH]; intros H; simpl; [done|].
  rewrite (H j) by left. apply IH. intros j' Hj'. apply H. by right.
Qed.

(** C4, first half, on [boundary_mesh] with two partitions: the centroid of
    triangle 0 lies on the interior boundary x = 5 and the triangle goes to
    partition 1, whose range starts there. *)
Lemma partition_interior_boundary_example :
  exists sp,
    spatial_partition_create stable_qsort no_garbage boundary_mesh 2 SORT_X
      = Some sp /\
    triangle_center_x (triangles boundary_mesh !!! 0%nat) = fl 5 /\
    partition_bounds sp !!! 3%nat = fl 5 /\
    partition_bounds sp !!! 6%nat = fl 5 /\
    partition_ids sp !! 0%nat = Some 1%nat.
Proof. eexists. by_evaluation. Qed.

(** C4, second half, on the cube with two partitions: triangles 10 and 11
    lie in the face x = 10, their centroid x equals the mesh maximum, no
    range [lo <= x < hi] contains it, and both keep the initial partition
    id 0 instead of the last partition 1. *)
Lemma partition_max_x_example :
  exists sp,
    spatial_partition_create stable_qsort no_garbage cube_mesh 2 SORT_X
      = Some sp /\
    triangle_center_x (triangles cube_mesh !!! 10%nat)
      = stl_bounds cube_mesh !!! 3%nat /\
    triangle_center_x (triangles cube_mesh !!! 11%nat)
      = stl_bounds cube_mesh !!! 3%nat /\
    partition_bounds sp !!! 9%nat = stl_bounds cube_mesh !!! 3%nat /\
    num_partitions sp = 2%nat /\
    partition_ids sp !! 10%nat = Some 0%nat /\
    partition_ids sp !! 11%nat = Some 0%nat.
Proof. eexists. by_evaluation. Qed.

(** ** Computations on the store *)

Lemma bind_Done {A B} (m : M A) (f : A -> M B) h a h1 :
  m h = Done a h1 -> (m ≫= f) h = f a h1.
Proof. unfold mbind, M_bind. by intros ->. Qed.

Lemma bind_inv {A B} (m : M A) (f : A -> M B) h b h' :
  (m ≫= f) h = Done b h' ->
  exists a h1, m h = Done a h1 /\ f a h1 = Done b h'.
Proof. unfold mbind, M_bind. destruct (m h) as [a h1| |]; [eauto|done..]. Qed.

(** Two computations that agree step by step agree. *)
Lemma bind_ext {A B} (m1 m2 : M A) (f g : A -> M B) h :
  m1 h = m2 h -> (forall a h1, f a h1 = g a h1) ->
  (m1 ≫= f) h = (m2 ≫= g) h.
Proof.
  unfold mbind, M_bind. intros -> Hfg. destruct (m2 h); [apply Hfg|done..].
Qed.

Lemma mret_inv {A} (a b : A) h h' :
  (mret a : M A) h = Done b h' -> a = b /\ h = h'.
Proof. unfold mret, M_ret. by intros [= -> ->]. Qed.

Lemma load_inv p h part h' :
  load p h = Done part h' -> h' = h /\ blocks h !! p = Some part.
Proof. unfold load. destruct (blocks h !! p); [by intros [= -> ->]|done]. Qed.

Lemma load_Some p h part : blocks h !! p = Some part -> load p h = Done part h.
Proof. unfold load. by intros ->. Qed.

Lemma store_inv p part h u h' :
  store p part h = Done u h' ->
  is_Some (blocks h !! p) /\
  h' = Heap (<[p := part]> (blocks h)) (next_block h).
Proof.
  unfold store. destruct (blocks h !! p); [intros [= _ <-]; eauto|done].
Qed.

Lemma store_Some p part part0 h :
  blocks h !! p = Some part0 ->
  store p part h = Done tt (Heap (<[p := part]> (blocks h)) (next_block h)).
Proof. unfold store. by intros ->. Qed.

Lemma free_inv p h u h' :
  free_part p h = Done u h' ->
  is_Some (blocks h !! p) /\
  h' = Heap (delete p (blocks h)) (next_block h).
Proof.
  unfold free_part. destruct (blocks h !! p); [intros [= _ <-]; eauto|done].
Qed.

Lemma free_Some p part h :
  blocks h !! p = Some part ->
  free_part p h = Done tt (Heap (delete p (blocks h)) (next_block h)).
Proof. unfold free_part. by intros ->. Qed.

(** ** C9: the split threshold is dead *)

Section Threshold.
Variable uninit_bounds : nat -> list float.

Lemma hierarchical_split_from_threshold gap part stl decomp t1 t2 h :
  hierarchical_split_from uninit_bounds gap part stl decomp t1 h =
  hierarchical_split_from uninit_bounds gap part stl decomp t2 h.
Proof.
  revert part decomp h. induction gap as [|gap IH]; intros part decomp h.
  - reflexivity.
  - cbn [hierarchical_split_from].
    apply bind_ext; [reflexivity|]. intros p h1.
    destruct (part_num_triangles p <? 10)%nat; [reflexivity|].
    apply bind_ext; [reflexivity|]. intros left_part h2.
    apply bind_ext; [reflexivity|]. intros right_part h3.
    apply bind_ext; [reflexivity|]. intros [] h4.
    apply bind_ext; [reflexivity|]. intros l h5.
    apply bind_ext.
    { destruct (0 <? part_num_triangles l)%nat; [|reflexivity].
      apply bind_ext; [reflexivity|]. intros [] h6. apply IH. }
    intros decomp1 h6.
    apply bind_ext; [reflexivity|]. intros r h7.
    apply bind_ext; [|reflexivity].
    destruct (0 <? part_num_triangles r)%nat; [|reflexivity].
    apply bind_ext; [reflexivity|]. intros [] h8. apply IH.
Qed.
End Threshold.

(** C9. [hierarchical_decomposition] does not depend on [split_threshold]:
    from any store, with any contents of the uninitialised hull bounds, two
    runs that differ only in the threshold have the same outcome, the same
    decomposition (parts, triangle sets, order) and the same final store. *)
Theorem hierarchical_threshold_irrelevant uninit_bounds stl max_depth t1 t2 h :
  hierarchical_decomposition uninit_bounds stl max_depth t1 h =
  hierarchical_decomposition uninit_bounds stl max_depth t2 h.
Proof.
  unfold hierarchical_decomposition.
  destruct (num_triangles stl =? 0)%nat; [reflexivity|].
  destruct (31 <=? max_depth)%nat; [reflexivity|].
  apply bind_ext; [reflexivity|]. intros root_part h1.
  apply bind_ext; [|reflexivity].
  apply hierarchical_split_from_threshold.
Qed.

(** ** Effect of the part operations on the store *)

Lemma heap_eta (h : heap) : Heap (blocks h) (next_block h) = h.
Proof. by destruct h. Qed.

Lemma only_touches_refl S h : only_touches S h h.
Proof. repeat split; eauto. Qed.

Lemma only_touches_trans S h1 h2 h3 :
  only_touches S h1 h2 -> only_touches S h2 h3 -> only_touches S h1 h3.
Proof.
  intros (Hn1 & Ho1 & Hh1) (Hn2 & Ho2 & Hh2). split; [congruence|]. split.
  - intros a Ha. rewrite Ho2, Ho1; auto.
  - intros a p3 H3. destruct (Hh2 a p3 H3) as (p2 & H2 & E2).
    destruct (Hh1 a p2 H2) as (p1 & H1 & E1). exists p1. split; congruence.
Qed.

Lemma only_touches_mono (S S' : nat -> Prop) h h' :
  (forall a, S a -> S' a) -> only_touches S h h' -> only_touches S' h h'.
Proof. intros HS (Hn & Ho & Hh). repeat split; auto. Qed.

Lemma update_touches a part part' h :
  blocks h !! a = Some part -> hull part' = hull part ->
  only_touches (eq a) h (Heap (<[a := part']> (blocks h)) (next_block h)).
Proof.
  intros Ha Hh. split; [done|]. split; cbn [blocks].
  - intros b Hb. by rewrite lookup_insert_ne.
  - intros b p'. destruct (decide (a = b)) as [<-|Hne].
    + rewrite lookup_insert_eq. intros [= <-]. eauto.
    + rewrite lookup_insert_ne by done. eauto.
Qed.

Section PartOps.
Variable uninit_bounds : nat -> list float.

Lemma create_inv c h a h' :
  convex_part_create uninit_bounds c h = Done a h' ->
  a = next_block h /\
  h' = Heap (<[a := fresh_part uninit_bounds a c]> (blocks h)) (S a).
Proof. unfold convex_part_create, malloc_part. by intros [= <- <-]. Qed.

Lemma double_capacity_0 : double_capacity 0 = 0%N.
Proof. reflexivity. Qed.

(** Storing one more index when the array has room. *)
Lemma add_triangle_fits a i h part l :
  blocks h !! a = Some part -> triangle_indices part = Some l ->
  (N.of_nat (length l) < capacity part)%N ->
  convex_part_add_triangle a i h =
  Done tt (Heap (<[a := ConvexPart (hull part) (Some (l ++ [i]))
                        (capacity part) (center part) (volume part)]>
                   (blocks h)) (next_block h)).
Proof.
  intros Ha Hl Hcap. unfold convex_part_add_triangle.
  rewrite (bind_Done _ _ _ _ _ (load_Some _ _ _ Ha)).
  unfold grow, part_num_triangles. rewrite Hl.
  destruct (N.leb_spec (capacity part) (N.of_nat (length l))); [lia|].
  destruct (N.ltb_spec (N.of_nat (length l)) (capacity part)); [|lia].
  by erewrite store_Some.
Qed.

Lemma add_triangle_touches a i h t h' :
  convex_part_add_triangle a i h = Done t h' -> only_touches (eq a) h h'.
Proof.
  unfold convex_part_add_triangle.
  intros (p & h1 & [-> Ha]%load_inv & H)%bind_inv.
  destruct (grow _ _ _) as [cap [l|]].
  - destruct (_ <? _)%N; [|done].
    apply store_inv in H as [_ ->]. by eapply update_touches.
  - destruct (_ <=? _)%N; [|done].
    apply store_inv in H as [_ ->]. by eapply update_touches.
Qed.

(** [convex_part_compute_properties] rewrites the centre and the volume
    of the block and nothing else. *)
Lemma compute_properties_Some a stl h part :
  blocks h !! a = Some part ->
  exists c v,
    convex_part_compute_properties a stl h =
    Done tt (Heap (<[a := ConvexPart (hull part) (triangle_indices part)
                           (capacity part) c v]> (blocks h))
               (next_block h)).
Proof.
  intros Ha. unfold convex_part_compute_properties.
  rewrite (bind_Done _ _ _ _ _ (load_Some _ _ _ Ha)).
  assert (Done tt h =
          Done tt (Heap (<[a := ConvexPart (hull part)
                                 (triangle_indices part) (capacity part)
                                 (center part) (volume part)]> (blocks h))
                     (next_block h))) as Hid.
  { rewrite insert_id; [by rewrite heap_eta|]. by destruct part. }
  destruct (triangle_indices part) as [[|i l]|] eqn:El;
    [exists (center part), (volume part); exact Hid
    |
    |exists (center part), (volume part); exact Hid].
  erewrite store_Some by done. eauto.
Qed.

Lemma compute_properties_touches a stl h t h' :
  convex_part_compute_properties a stl h = Done t h' ->
  only_touches (eq a) h h'.
Proof.
  intros H. assert (is_Some (blocks h !! a)) as [part Ha].
  { unfold convex_part_compute_properties in H.
    apply bind_inv in H as (p & h1 & [-> Ha]%load_inv & _). eauto. }
  destruct (compute_properties_Some a stl h part Ha) as (c & v & E).
  rewrite E in H. injection H as _ <-. by eapply update_touches.
Qed.

Lemma foldM_invariant {A B} (I : B -> heap -> Prop) (f : B -> A -> M B)
    (l : list A) b h b' h' :
  (forall b x h b1 h1, x ∈ l -> I b h -> f b x h = Done b1 h1 -> I b1 h1) ->
  I b h -> foldM f b l h = Done b' h' -> I b' h'.
Proof.
  revert b h. induction l as [|x l IH]; intros b h Hstep HI H.
  - apply mret_inv in H as [<- <-]. done.
  - cbn [foldM] in H. apply bind_inv in H as (b1 & h1 & H1 & H).
    eapply IH; [|eapply Hstep; [left|exact HI|exact H1]|exact H].
    intros. eapply Hstep; eauto. by right.
Qed.

Lemma for_each_touches {A} (S : nat -> Prop) (f : A -> M unit) l h t h' :
  (forall x h t h', f x h = Done t h' -> only_touches S h h') ->
  for_each f l h = Done t h' -> only_touches S h h'.
Proof.
  intros Hf. unfold for_each.
  apply (foldM_invariant (fun _ h1 => only_touches S h h1)).
  - intros [] x h1 [] h2 _ H1 H2. eapply only_touches_trans; eauto.
  - apply only_touches_refl.
Qed.

Lemma distribute_touches stl idxs axis value l r h t h' :
  distribute stl idxs axis value l r h = Done t h' ->
  only_touches (fun a => a = l \/ a = r) h h'.
Proof.
  unfold distribute. apply for_each_touches. intros x h1 t1 h2.
  destruct (F32.ltb _ _); intros H%add_triangle_touches;
    eapply only_touches_mono; [|exact H| |exact H]; intros a <-; auto.
Qed.

(** Adding a part: the store is unchanged; the part list, if the array
    survives, is extended by the pointer, and the total by its volume. *)
Lemma add_part_inv d a h d' h' :
  convex_decomposition_add_part d a h = Done d' h' ->
  h' = h /\ strategy d' = strategy d /\
  forall ps', parts d' = Some ps' ->
    exists ps part,
      parts d = Some ps /\ ps' = ps ++ [a] /\
      blocks h !! a = Some part /\
      total_volume d' = F32.add (total_volume d) (volume part).
Proof.
  unfold convex_decomposition_add_part, grow, num_parts.
  destruct (N.leb_spec (decomp_capacity d)
              (N.of_nat match parts d with Some l => length l | None => 0%nat end))
    as [Hle|Hgt].
  - unfold realloc. destruct (N.eqb_spec (double_capacity (decomp_capacity d)) 0)
      as [E0|Hne].
    + destruct (parts d) as [l|] eqn:Ep.
      * intros [<- <-]%mret_inv. cbn. repeat split; auto. intros ps' [=].
      * rewrite E0. cbn. intros [=].
    + destruct (parts d) as [l|] eqn:Ep.
      * cbn [default]. destruct (_ <? _)%N; [|done].
        intros (p & h1 & [-> Ha]%load_inv & [<- <-]%mret_inv)%bind_inv.
        cbn. repeat split; auto. intros ps' [= <-]. eauto 10.
      * exfalso. apply Hne. cbn in Hle.
        assert (decomp_capacity d = 0%N) as -> by lia. reflexivity.
  - destruct (parts d) as [l|] eqn:Ep; [|done].
    destruct (_ <? _)%N; [|done].
    intros (p & h1 & [-> Ha]%load_inv & [<- <-]%mret_inv)%bind_inv.
    cbn. repeat split; auto. intros ps' [= <-]. eauto 10.
Qed.
End PartOps.

Lemma volumes_of_frame h h' ps vols :
  (forall a, a ∈ ps -> blocks h' !! a = blocks h !! a) ->
  volumes_of h ps vols -> volumes_of h' ps vols.
Proof.
  intros Hf Hv. induction Hv as [|a v ps vols (part & Ha & Hv) _ IH];
    constructor.
  - exists part. split; [|done]. rewrite Hf; [done|left].
  - apply IH. intros b Hb. apply Hf. by right.
Qed.

Lemma parts_ok_frame h h' new t0 t1 :
  (forall a, a ∈ new -> blocks h' !! a = blocks h !! a) ->
  parts_ok h new t0 t1 -> parts_ok h' new t0 t1.
Proof.
  intros Hf [(vols & Hv & Ht) Hh]. split.
  - exists vols. eauto using volumes_of_frame.
  - rewrite Forall_forall in Hh |- *. intros a Ha.
    destruct (Hh a Ha) as (part & Hp & He). exists part.
    rewrite Hf; auto.
Qed.

Lemma parts_ok_nil h t : parts_ok h [] t t.
Proof. split; [exists []; split; [constructor|done]|constructor]. Qed.

Lemma parts_ok_app h n1 n2 t0 t1 t2 :
  parts_ok h n1 t0 t1 -> parts_ok h n2 t1 t2 -> parts_ok h (n1 ++ n2) t0 t2.
Proof.
  intros [(v1 & Hv1 & ->) Hh1] [(v2 & Hv2 & ->) Hh2]. split.
  - exists (v1 ++ v2). split; [by apply Forall2_app|by rewrite foldl_app].
  - by apply Forall_app.
Qed.

Lemma extends_except_refl T h d : extends_except T h d h d.
Proof.
  split; [done|]. split; [done|]. split; [done|].
  intros ps Hps. exists ps, []. rewrite app_nil_r.
  split; [done|]. split; [done|]. split; [constructor|apply parts_ok_nil].
Qed.

Lemma extends_except_mono (T T' : nat -> Prop) h d h' d' :
  (forall a, T a -> T' a) ->
  extends_except T h d h' d' -> extends_except T' h d h' d'.
Proof.
  intros HT (Hn & Ho & Hs & Hp). repeat split; auto.
Qed.

Lemma extends_except_trans T h1 d1 h2 d2 h3 d3 :
  (forall a, T a -> (a < next_block h1)%nat) ->
  extends_except T h1 d1 h2 d2 -> extends_except T h2 d2 h3 d3 ->
  extends_except T h1 d1 h3 d3.
Proof.
  intros HT (Hn1 & Ho1 & Hs1 & Hp1) (Hn2 & Ho2 & Hs2 & Hp2).
  split; [lia|]. split; [|split; [congruence|]].
  - intros a Ha HTa. rewrite Ho2, Ho1; auto. lia.
  - intros ps3 H3.
    destruct (Hp2 ps3 H3) as (ps2 & new2 & H2 & -> & Hr2 & Hok2).
    destruct (Hp1 ps2 H2) as (ps1 & new1 & H1 & -> & Hr1 & Hok1).
    exists ps1, (new1 ++ new2). rewrite app_assoc.
    split; [done|]. split; [done|]. split.
    + apply Forall_app. split; (eapply Forall_impl; [eassumption|]);
        simpl; intros; lia.
    + eapply parts_ok_app; [|exact Hok2].
      eapply parts_ok_frame; [|exact Hok1].
      intros a Ha. rewrite Forall_forall in Hr1. specialize (Hr1 a Ha).
      apply Ho2; [lia|]. intros HTa%HT. lia.
Qed.

Lemma extends_except_touches (T S : nat -> Prop) h h' d :
  (forall a, S a -> T a) -> only_touches S h h' -> extends_except T h d h' d.
Proof.
  intros HS (Hn & Ho & _). split; [lia|]. split; [auto|]. split; [done|].
  intros ps Hps. exists ps, []. rewrite app_nil_r.
  split; [done|]. split; [done|]. split; [constructor|apply parts_ok_nil].
Qed.

Section Hierarchical.
Variable uninit_bounds : nat -> list float.

Lemma fresh_part_hull_empty a c :
  hull_empty (fresh_part uninit_bounds a c).
Proof. by split. Qed.

Lemma add_copy_extends p stl d h d' h' :
  add_copy_of_part uninit_bounds p stl d h = Done d' h' -> extends h d h' d'.
Proof.
  unfold add_copy_of_part.
  intros (a & h1 & [-> ->]%create_inv & H)%bind_inv.
  apply bind_inv in H as ([] & h2 & H2 & H).
  apply bind_inv in H as ([] & h3 & H3 & H).
  apply (for_each_touches (eq (next_block h))) in H2;
    [|intros; by eapply add_triangle_touches].
  apply compute_properties_touches in H3.
  pose proof (only_touches_trans _ _ _ _ H2 H3) as (Hn & Ho & Hh).
  apply add_part_inv in H as (-> & Hs & Hp). cbn [next_block blocks] in *.
  split; [lia|]. split; [|split; [done|]].
  - intros a Ha _. rewrite Ho by lia. apply lookup_insert_ne. lia.
  - intros ps' Hps'. destruct (Hp ps' Hps') as (ps & part & Hd & -> & Ha & Ht).
    exists ps, [next_block h]. repeat split; auto.
    + constructor; [lia|constructor].
    + exists [volume part]. split; [|by rewrite Ht].
      constructor; [eauto|constructor].
    + constructor; [|constructor]. exists part. split; [done|].
      destruct (Hh _ _ Ha) as (p0 & Hp0 & Ehull).
      rewrite lookup_insert_eq in Hp0. injection Hp0 as <-.
      unfold hull_empty. rewrite Ehull. apply fresh_part_hull_empty.
Qed.

Lemma hierarchical_split_extends gap part stl d thr h d' h' :
  hierarchical_split_from uninit_bounds gap part stl d thr h = Done d' h' ->
  extends h d h' d'.
Proof.
  revert part d h d' h'.
  induction gap as [|gap IH]; intros part d h d' h';
    cbn [hierarchical_split_from];
    intros (p & h0 & [-> Hpart]%load_inv & H)%bind_inv;
    [by eapply add_copy_extends|].
  destruct (part_num_triangles p <? 10)%nat; [by eapply add_copy_extends|].
  apply bind_inv in H as (al & h1 & [-> ->]%create_inv & H).
  apply bind_inv in H as (ar & h2 & [-> ->]%create_inv & H).
  cbn [next_block blocks] in H.
  remember (next_block h) as n0 eqn:En0.
  set (T := fun a : nat => a = n0 \/ a = S n0).
  match type of H with
  | context [distribute _ _ _ _ _ _] =>
      match type of H with (_ ≫= _) ?h2 = _ => set (h2' := h2) in * end
  end.
  apply bind_inv in H as ([] & h3 & Hd%distribute_touches & H).
  apply bind_inv in H as (l & h3' & [-> Hl]%load_inv & H).
  apply bind_inv in H as (d1 & h5 & Hleft & H).
  apply bind_inv in H as (r & h5' & [-> Hr]%load_inv & H).
  apply bind_inv in H as (d2 & h7 & Hright & H).
  apply bind_inv in H as ([] & h8 & [_ ->]%free_inv & H).
  apply bind_inv in H as ([] & h9 & [_ ->]%free_inv & [<- <-]%mret_inv).
  cbn [next_block blocks].
  assert (next_block h2' = S (S n0)) as Hn2 by done.
  assert (forall a, T a -> (a < next_block h2')%nat) as HT
    by (rewrite Hn2; intros a [-> | ->]; lia).
  assert (extends_except T h2' d h3 d) as E23
    by (eapply extends_except_touches; [|exact Hd]; auto).
  assert (forall h d h' d' a l0,
            T a ->
            (if (0 <? part_num_triangles l0)%nat
             then convex_part_compute_properties a stl;;
                  hierarchical_split_from uninit_bounds gap a stl d thr
             else mret d) h = Done d' h' ->
            (S (S n0) <= next_block h)%nat ->
            extends_except T h d h' d') as Hstep.
  { intros ha da ha' da' a l0 HTa Hrun Hnext.
    destruct (0 <? part_num_triangles l0)%nat.
    - apply bind_inv in Hrun as ([] & hb & Hc%compute_properties_touches & Hrec).
      apply IH in Hrec.
      eapply extends_except_trans;
        [intros b [-> | ->]; lia
        |eapply extends_except_touches; [|exact Hc]; by intros b <-
        |eapply extends_except_mono; [|exact Hrec]; done].
    - apply mret_inv in Hrun as [<- <-]. apply extends_except_refl. }
  assert (next_block h3 = S (S n0)) as Hn3
    by (destruct Hd as (-> & _); done).
  apply Hstep in Hleft; [|by left|lia].
  assert (S (S n0) <= next_block h5)%nat as Hn5
    by (destruct Hleft as (? & _); lia).
  apply Hstep in Hright; [|by right|lia].
  pose proof (extends_except_trans T _ _ _ _ _ _ HT E23 Hleft) as E25.
  pose proof (extends_except_trans T _ _ _ _ _ _ HT E25 Hright)
    as (Hn & Ho & Hs & Hp).
  rewrite Hn2 in Hn. unfold extends, extends_except. cbn [next_block blocks].
  split; [lia|]. split; [|split; [done|]].
  - intros a Ha _. rewrite !lookup_delete_ne by lia.
    rewrite Ho; [|rewrite Hn2; lia|intros [-> | ->]; lia].
    subst h2'. cbn [blocks]. rewrite !lookup_insert_ne by lia. done.
  - intros ps' Hps'.
    destruct (Hp ps' Hps') as (ps & new & Hd0 & -> & Hrange & Hok).
    exists ps, new. rewrite Hn2 in Hrange.
    split; [done|]. split; [done|]. split.
    + eapply Forall_impl; [exact Hrange|]. simpl. intros; lia.
    + eapply parts_ok_frame; [|exact Hok]. intros a Ha. cbn [blocks].
      rewrite Forall_forall in Hrange. specialize (Hrange a Ha).
      rewrite !lookup_delete_ne by lia. done.
Qed.
End Hierarchical.

Lemma volumes_of_inj h ps v1 v2 :
  volumes_of h ps v1 -> volumes_of h ps v2 -> v1 = v2.
Proof.
  intros H1. revert v2.
  induction H1 as [|a v ps vols (p & Hp & Hv) _ IH]; intros v2 H2;
    inversion H2 as [|a' v' ps' vols' (p' & Hp' & Hv') Hrest]; subst;
    [done|].
  f_equal; [congruence|auto].
Qed.

Lemma variance_loop_inv avg ps v0 h v h' :
  foldM (fun variance part =>
           p ← load part;
           let diff := F32.sub (volume p) avg in
           mret (F32.add variance (F32.mul diff diff))) v0 ps h = Done v h' ->
  h' = h /\
  exists vols,
    volumes_of h ps vols /\
    v = foldl (fun variance x =>
                 F32.add variance (F32.mul (F32.sub x avg) (F32.sub x avg)))
          v0 vols.
Proof.
  revert v0. induction ps as [|a ps IH]; intros v0; cbn [foldM].
  - intros [<- <-]%mret_inv. split; [done|]. exists []. by split; [constructor|].
  - intros (v1 & h1 & H1 & H)%bind_inv.
    apply bind_inv in H1 as (p & h2 & [-> Hp]%load_inv & [<- <-]%mret_inv).
    apply IH in H as (-> & vols & Hv & ->). split; [done|].
    exists (volume p :: vols). split; [|done]. constructor; eauto.
Qed.

Lemma quality_inv d h q h' :
  compute_decomposition_quality d h = Done q h' ->
  h' = h /\
  match parts d with
  | None | Some [] => q = F32.zero
  | Some ps =>
      exists vols,
        volumes_of h ps vols /\
        (total_volume d = f32_sum vols -> q = f32_quality vols)
  end.
Proof.
  unfold compute_decomposition_quality.
  destruct (parts d) as [[|a ps]|]; try (by intros [<- <-]%mret_inv).
  intros (v & h1 & (-> & vols & Hv & ->)%variance_loop_inv
          & [<- <-]%mret_inv)%bind_inv.
  split; [done|]. exists vols. split; [done|]. intros Ht.
  unfold f32_quality, f32_variance.
  rewrite <- Ht, <- (Forall2_length _ _ _ Hv). done.
Qed.

(** A decomposition that [parts_ok] describes from an empty part list, once
    scored, is [decomposition_ok]. *)
Lemma scored_decomposition_ok d h q h' new :
  (forall ps, parts d = Some ps -> ps = new /\
                                   parts_ok h new F32.zero (total_volume d)) ->
  compute_decomposition_quality d h = Done q h' ->
  h' = h /\ decomposition_ok h (set_quality d q).
Proof.
  intros Hd (-> & Hq)%quality_inv. split; [done|].
  unfold decomposition_ok, set_quality. cbn [parts total_volume
    decomposition_quality].
  destruct (parts d) as [ps|] eqn:Ep; [|done].
  destruct (Hd ps eq_refl) as (-> & (vols & Hv & Ht) & Hh).
  exists vols. repeat split; auto.
  destruct new as [|a ps]; [done|].
  destruct Hq as (vols' & Hv' & Hq).
  rewrite (volumes_of_inj _ _ _ _ Hv' Hv) in Hq. by apply Hq.
Qed.

Section HierarchicalResult.
Variable uninit_bounds : nat -> list float.

Lemma create_full_part_inv stl h a h1 :
  create_full_part uninit_bounds stl h = Done a h1 ->
  a = next_block h /\ next_block h1 = S a /\
  forall b, (b < a)%nat -> blocks h1 !! b = blocks h !! b.
Proof.
  unfold create_full_part.
  intros (a' & h2 & [-> ->]%create_inv & H)%bind_inv.
  apply bind_inv in H as ([] & h3 & H3 & H).
  apply bind_inv in H as ([] & h4 & H4 & [<- <-]%mret_inv).
  apply (for_each_touches (eq (next_block h))) in H3;
    [|intros; by eapply add_triangle_touches].
  apply compute_properties_touches in H4.
  destruct (only_touches_trans _ _ _ _ H3 H4) as (Hn & Ho & _).
  cbn [next_block blocks] in *. repeat split; auto.
  intros b Hb. rewrite Ho by lia. apply lookup_insert_ne. lia.
Qed.

Lemma hierarchical_decomposition_ok stl max_depth thr h0 d h :
  hierarchical_decomposition uninit_bounds stl max_depth thr h0
    = Done (Some d) h ->
  strategy d = DECOMP_HIERARCHICAL /\ decomposition_ok h d.
Proof.
  unfold hierarchical_decomposition, hierarchical_split_part.
  destruct (num_triangles stl =? 0)%nat; [by intros [[=] _]%mret_inv|].
  destruct (31 <=? max_depth)%nat; [done|].
  intros (a & h1 & (-> & Hn1 & _)%create_full_part_inv & H)%bind_inv.
  apply bind_inv in H as (d1 & h2 & He%hierarchical_split_extends & H).
  apply bind_inv in H as ([] & h3 & [_ ->]%free_inv & H).
  apply bind_inv in H as (q & h4 & Hq & [[= <-] <-]%mret_inv).
  destruct He as (Hn & Ho & Hs & Hp).
  eapply scored_decomposition_ok in Hq as [-> Hok].
  - split; [|exact Hok]. unfold set_quality. cbn [strategy]. by rewrite Hs.
  - instantiate (1 := default [] (parts d1)).
    intros ps Hps. rewrite Hps. cbn [default].
    destruct (Hp ps Hps) as (ps0 & new & [= <-] & -> & Hrange & Hok).
    split; [done|]. cbn [app] in *.
    eapply parts_ok_frame; [|exact Hok]. intros b Hb. cbn [blocks].
    rewrite Forall_forall in Hrange. specialize (Hrange b Hb).
    apply lookup_delete_ne. lia.
Qed.
End HierarchicalResult.

(** ** The voxel strategy *)

Lemma filter_index_length {A} `{!Inhabited A} (P : A -> Prop)
    `{!forall x, Decision (P x)} (pre l : list A) :
  length (filter (fun i => P ((pre ++ l) !!! i))
            (seq (length pre) (length l))) =
  length (filter P l).
Proof.
  revert pre. induction l as [|x l IH]; intros pre; [done|].
  cbn [length seq]. rewrite !filter_cons.
  rewrite list_lookup_total_middle by done.
  specialize (IH (pre ++ [x])). rewrite <- app_assoc in IH. cbn [app] in IH.
  rewrite length_app in IH. cbn [length] in IH.
  replace (length pre + 1)%nat with (S (length pre)) in IH by lia.
  destruct (decide (P x)); cbn [length]; by rewrite IH.
Qed.

Section Voxel.
Variable uninit_bounds : nat -> list float.
Variable stl : stl_file_t.
Variable voxel_size : float.
Variable min_triangles : nat.

Local Abbreviation vox i :=
  (voxel_of stl voxel_size (triangles stl !!! i)) (only parsing).

Lemma cell_triangles_length cell :
  length (cell_triangles stl voxel_size cell) =
  length (filter (fun t => voxel_of stl voxel_size t = Some cell)
            (triangles stl)).
Proof.
  unfold cell_triangles, num_triangles.
  exact (filter_index_length
           (fun t => voxel_of stl voxel_size t = Some cell) []
           (triangles stl)).
Qed.

(** The counting loop leaves in every cell of the grid the number of
    triangles that fall into it, and casts no unrepresentable value. *)
Lemma count_loop_inv dims l grid h grid' h' :
  foldM (fun (grid : gmap (Z * Z * Z) nat) triangle =>
           match voxel_of stl voxel_size triangle with
           | None => undefined CastOutOfRange
           | Some cell =>
               if in_grid dims cell
               then mret (<[cell := S (grid !!! cell)]> grid)
               else mret grid
           end) grid l h = Done grid' h' ->
  h' = h /\
  Forall (fun t => is_Some (voxel_of stl voxel_size t)) l /\
  forall cell, in_grid dims cell = true ->
    grid' !!! cell =
    (grid !!! cell +
     length (filter (fun t => voxel_of stl voxel_size t = Some cell) l))%nat.
Proof.
  revert grid h. induction l as [|t l IH]; intros grid h; cbn [foldM].
  - intros [<- <-]%mret_inv. repeat split; [constructor|].
    intros cell _. rewrite filter_nil. cbn [length]. lia.
  - intros (g1 & h1 & H1 & (-> & Hall & Hcount)%IH)%bind_inv.
    destruct (voxel_of stl voxel_size t) as [c|] eqn:Ec; [|done].
    assert (h1 = h /\
            forall cell, in_grid dims cell = true ->
              g1 !!! cell =
              (grid !!! cell + if decide (c = cell) then 1 else 0)%nat)
      as [-> Hg1].
    { destruct (in_grid dims c) eqn:Ein;
        apply mret_inv in H1 as [<- <-]; (split; [done|]); intros cell Hc.
      - destruct (decide (c = cell)) as [->|Hne].
        + rewrite lookup_total_insert_eq. lia.
        + rewrite lookup_total_insert_ne by done. lia.
      - destruct (decide (c = cell)) as [->|Hne]; [congruence|lia]. }
    split; [done|]. split; [constructor; [rewrite Ec; eauto|done]|].
    intros cell Hc. rewrite (Hcount cell Hc), (Hg1 cell Hc), filter_cons.
    rewrite Ec. destruct (decide (c = cell)) as [->|Hne].
    + rewrite decide_True by done. cbn [length]. lia.
    + rewrite decide_False by congruence. lia.
Qed.

Lemma count_voxels_inv dims h grid h' :
  count_voxels stl voxel_size dims h = Done grid h' ->
  h' = h /\
  Forall (fun t => is_Some (voxel_of stl voxel_size t)) (triangles stl) /\
  forall cell, in_grid dims cell = true ->
    grid !!! cell = length (cell_triangles stl voxel_size cell).
Proof.
  intros (-> & Hall & Hc)%count_loop_inv. repeat split; auto.
  intros cell Hcell. rewrite (Hc cell Hcell), lookup_total_empty.
  by rewrite cell_triangles_length.
Qed.

Lemma vox_defined i :
  Forall (fun t => is_Some (voxel_of stl voxel_size t)) (triangles stl) ->
  (i < num_triangles stl)%nat -> is_Some (vox i).
Proof.
  intros Hall Hi. rewrite Forall_forall in Hall. apply Hall.
  apply list_elem_of_lookup_total_2. exact Hi.
Qed.

(** The loop that collects the triangles of one cell into the part at
    [a]. *)
Lemma collect_loop cell a l acc h part :
  blocks h !! a = Some part -> triangle_indices part = Some acc ->
  (N.of_nat (length acc + length (filter (fun i => vox i = Some cell) l))
   <= capacity part)%N ->
  Forall (fun i => is_Some (vox i)) l ->
  for_each (fun i =>
              match voxel_of stl voxel_size (triangles stl !!! i) with
              | None => undefined CastOutOfRange
              | Some c =>
                  if decide (c = cell)
                  then convex_part_add_triangle a i
                  else mret tt
              end) l h =
  Done tt (Heap (<[a := ConvexPart (hull part)
                        (Some (acc ++ filter (fun i => vox i = Some cell) l))
                        (capacity part) (center part) (volume part)]>
                   (blocks h)) (next_block h)).
Proof.
  unfold for_each. revert acc h part.
  induction l as [|i l IH]; intros acc h part Ha Hacc Hcap Hall;
    cbn [foldM].
  - rewrite filter_nil, app_nil_r, <- Hacc.
    rewrite insert_id; [by rewrite heap_eta|]. by destruct part.
  - apply Forall_cons in Hall as [[c Hc] Hall].
    rewrite filter_cons in Hcap |- *. rewrite Hc in Hcap |- *.
    destruct (decide (c = cell)) as [->|Hne].
    + rewrite decide_True in Hcap |- * by done. cbn [length] in Hcap.
      erewrite bind_Done;
        [|apply (add_triangle_fits a i h part acc Ha Hacc); lia].
      erewrite (IH (acc ++ [i])); cbn [blocks next_block hull capacity
        center volume triangle_indices];
        [|apply lookup_insert_eq|reflexivity| |done].
      * by rewrite insert_insert_eq, <- app_assoc.
      * rewrite length_app. cbn [length capacity]. lia.
    + rewrite decide_False in Hcap |- * by congruence.
      erewrite bind_Done by reflexivity. by apply IH.
Qed.

Lemma emitted_frame h h' new cells :
  (forall a, a ∈ new -> blocks h' !! a = blocks h !! a) ->
  emitted stl voxel_size h new cells -> emitted stl voxel_size h' new cells.
Proof.
  intros Hf He. induction He as [|a c new cells (part & Ha & Hi) _ IH];
    constructor.
  - exists part. split; [|done]. rewrite Hf; [done|left].
  - apply IH. intros b Hb. apply Hf. by right.
Qed.

Lemma voxel_post_nil h d : voxel_post stl voxel_size min_triangles [] h d h d.
Proof.
  split; [done|]. split; [done|]. split; [done|].
  intros ps Hps. exists ps, []. rewrite app_nil_r.
  split; [done|]. split; [done|]. split; [constructor|].
  split; [apply parts_ok_nil|constructor].
Qed.

Lemma voxel_post_trans c1 c2 h1 d1 h2 d2 h3 d3 :
  voxel_post stl voxel_size min_triangles c1 h1 d1 h2 d2 ->
  voxel_post stl voxel_size min_triangles c2 h2 d2 h3 d3 ->
  voxel_post stl voxel_size min_triangles (c1 ++ c2) h1 d1 h3 d3.
Proof.
  intros (Hn1 & Ho1 & Hs1 & Hp1) (Hn2 & Ho2 & Hs2 & Hp2).
  split; [lia|]. split; [|split; [congruence|]].
  - intros a Ha. rewrite Ho2, Ho1; auto. lia.
  - intros ps3 H3.
    destruct (Hp2 ps3 H3) as (ps2 & new2 & H2 & -> & Hr2 & Hok2 & He2).
    destruct (Hp1 ps2 H2) as (ps1 & new1 & H1 & -> & Hr1 & Hok1 & He1).
    exists ps1, (new1 ++ new2). rewrite app_assoc.
    assert (forall a, a ∈ new1 -> blocks h3 !! a = blocks h2 !! a) as Hf.
    { intros a Ha. rewrite Forall_forall in Hr1. specialize (Hr1 a Ha).
      apply Ho2. lia. }
    split; [done|]. split; [done|]. split; [|split].
    + apply Forall_app. split; (eapply Forall_impl; [eassumption|]);
        simpl; intros; lia.
    + eapply parts_ok_app; [|exact Hok2]. by eapply parts_ok_frame.
    + rewrite filter_app. apply Forall2_app; [|done].
      by eapply emitted_frame.
Qed.

Lemma emit_voxel_post grid d cell h d' h' :
  Forall (fun i => is_Some (vox i)) (seq 0 (num_triangles stl)) ->
  grid !!! cell = length (cell_triangles stl voxel_size cell) ->
  emit_voxel uninit_bounds stl voxel_size min_triangles grid d cell h
    = Done d' h' ->
  voxel_post stl voxel_size min_triangles [cell] h d h' d'.
Proof.
  intros Hall Hgrid. unfold emit_voxel. rewrite Hgrid.
  set (tris := cell_triangles stl voxel_size cell).
  assert (forall hh, (forall a, (a < next_block h)%nat ->
                        blocks hh !! a = blocks h !! a) ->
                     (next_block h <= next_block hh)%nat ->
                     ~ qualifies stl voxel_size min_triangles cell ->
                     voxel_post stl voxel_size min_triangles [cell] h d hh
                       d)
    as Hskip.
  { intros hh Ho Hn Hq. split; [done|]. split; [done|]. split; [done|].
    intros ps Hps. exists ps, []. rewrite app_nil_r.
    split; [done|]. split; [done|]. split; [constructor|].
    split; [apply parts_ok_nil|].
    rewrite filter_cons_False by done. constructor. }
  destruct (Nat.leb_spec min_triangles (length tris)) as [Hmin|Hmin].
  2:{ intros [<- <-]%mret_inv. apply Hskip; auto.
      unfold qualifies. fold tris. lia. }
  intros (a & h1 & [-> ->]%create_inv & H)%bind_inv.
  remember (next_block h) as a eqn:Ea.
  erewrite bind_Done in H.
  2:{ apply (collect_loop cell a _ []) with
        (part := fresh_part uninit_bounds a (N.of_nat (length tris))).
      - apply lookup_insert_eq.
      - reflexivity.
      - change (N.of_nat (0 + length tris) <= N.of_nat (length tris))%N.
        lia.
      - exact Hall. }
  cbn [hull capacity center volume fresh_part app blocks next_block] in H.
  rewrite insert_insert_eq in H.
  change (filter (fun i => vox i = Some cell) (seq 0 (num_triangles stl)))
    with tris in H.
  erewrite bind_Done in H by (apply load_Some, lookup_insert_eq).
  cbn [part_num_triangles triangle_indices] in H.
  destruct (Nat.ltb_spec 0 (length tris)) as [Hpos|Hzero].
  - match type of H with
    | (_ ≫= _) ?hh = _ =>
        destruct (compute_properties_Some a stl hh _
                    (lookup_insert_eq _ _ _)) as (c & v & Ec)
    end.
    erewrite bind_Done in H by exact Ec.
    cbn [hull capacity triangle_indices blocks next_block] in H.
    rewrite insert_insert_eq in H.
    apply add_part_inv in H as (-> & Hs & Hp). unfold voxel_post.
    cbn [blocks next_block]. rewrite <- Ea.
    split; [lia|]. split; [|split; [done|]].
    + intros b Hb. apply lookup_insert_ne. lia.
    + intros ps' Hps'.
      destruct (Hp ps' Hps') as (ps & part & Hd & -> & Ha & Ht).
      cbn [blocks] in Ha. rewrite lookup_insert_eq in Ha.
      injection Ha as <-. cbn [volume] in Ht.
      exists ps, [a]. split; [done|]. split; [done|].
      split; [constructor; [lia|constructor]|]. split; [split|].
      * exists [v]. split; [|by rewrite Ht].
        constructor; [|constructor]. eexists. split;
          [apply lookup_insert_eq|done].
      * constructor; [|constructor]. eexists. split;
          [apply lookup_insert_eq|]. by split.
      * rewrite filter_cons_True by (unfold qualifies; fold tris; lia).
        constructor; [|constructor]. eexists. split;
          [apply lookup_insert_eq|done].
  - apply bind_inv in H as ([] & h2 & [_ ->]%free_inv & [<- <-]%mret_inv).
    apply Hskip; cbn [blocks next_block].
    + intros b Hb. rewrite lookup_delete_ne, lookup_insert_ne by lia. done.
    + lia.
    + unfold qualifies. fold tris. lia.
Qed.

Lemma emit_loop_post grid cells d h d' h' :
  Forall (fun i => is_Some (vox i)) (seq 0 (num_triangles stl)) ->
  (forall c, c ∈ cells ->
     grid !!! c = length (cell_triangles stl voxel_size c)) ->
  foldM (emit_voxel uninit_bounds stl voxel_size min_triangles grid) d
    cells h = Done d' h' ->
  voxel_post stl voxel_size min_triangles cells h d h' d'.
Proof.
  intros Hall. revert d h.
  induction cells as [|c cells IH]; intros d h Hgrid; cbn [foldM].
  - intros [<- <-]%mret_inv. apply voxel_post_nil.
  - intros (d1 & h1 & H1 & H)%bind_inv.
    apply (voxel_post_trans [c] cells _ _ h1 d1).
    + eapply emit_voxel_post; eauto. apply Hgrid. left.
    + apply IH; [|done]. intros c' Hc'. apply Hgrid. by right.
Qed.

Lemma grid_cells_in_grid dims c :
  c ∈ grid_cells dims -> in_grid dims c = true.
Proof.
  destruct dims as [[nx ny] nz]. unfold grid_cells.
  intros (x & Hc & Hx%elem_of_seqZ)%list_elem_of_bind.
  apply list_elem_of_bind in Hc as (y & Hc & Hy%elem_of_seqZ).
  apply list_elem_of_bind in Hc as (z & Hc & Hz%elem_of_seqZ).
  apply list_elem_of_singleton in Hc as ->. cbn.
  repeat (apply andb_true_intro; split); lia.
Qed.

Lemma grid_cells_NoDup dims : NoDup (grid_cells dims).
Proof.
  destruct dims as [[nx ny] nz]. unfold grid_cells.
  apply NoDup_bind; [| |apply NoDup_seqZ].
  - intros x1 x2 c _ _ (y1 & Hc1 & _)%list_elem_of_bind
      (y2 & Hc2 & _)%list_elem_of_bind.
    apply list_elem_of_bind in Hc1 as (z1 & ->%list_elem_of_singleton & _).
    apply list_elem_of_bind in Hc2 as (z2 & [= -> _ _]%list_elem_of_singleton & _).
    done.
  - intros x _. apply NoDup_bind; [| |apply NoDup_seqZ].
    + intros y1 y2 c _ _ (z1 & ->%list_elem_of_singleton & _)%list_elem_of_bind
        (z2 & [= -> _]%list_elem_of_singleton & _)%list_elem_of_bind.
      done.
    + intros y _. apply NoDup_bind; [| |apply NoDup_seqZ].
      * intros z1 z2 c _ _ ->%list_elem_of_singleton
          [= ->]%list_elem_of_singleton. done.
      * intros z _. apply NoDup_singleton.
Qed.
End Voxel.

(** ** The quality formula in exact arithmetic *)

Section ExactQuality.
Local Open Scope Q_scope.

Lemma Q_sum_nonneg (l : list Q) :
  Forall (fun q => 0 <= q) l -> 0 <= Q_sum l.
Proof.
  induction 1 as [|q l Hq _ IH]; unfold Q_sum in *; cbn [foldr]; lra.
Qed.

Lemma Q_sum_zero (l : list Q) :
  Forall (fun q => 0 <= q) l -> Q_sum l == 0 ->
  Forall (fun q => q == 0) l.
Proof.
  induction 1 as [|q l Hq Hl IH]; [constructor|].
  unfold Q_sum in *. cbn [foldr]. intros Hs.
  pose proof (Q_sum_nonneg l Hl) as Hn. unfold Q_sum in Hn.
  constructor; [lra|]. apply IH. lra.
Qed.

Lemma Q_sum_all_zero (l : list Q) :
  Forall (fun q => q == 0) l -> Q_sum l == 0.
Proof.
  induction 1 as [|q l Hq _ IH]; unfold Q_sum in *; cbn [foldr]; lra.
Qed.

Lemma Q_sum_const (c : Q) (l : list Q) :
  Forall (fun q => q == c) l ->
  Q_sum l == inject_Z (Z.of_nat (length l)) * c.
Proof.
  induction 1 as [|q l Hq _ IH]; unfold Q_sum in *.
  - cbn [foldr length]. change (inject_Z (Z.of_nat 0)) with 0. lra.
  - cbn [foldr length]. rewrite Nat2Z.inj_succ. unfold Z.succ.
    rewrite inject_Z_plus. change (inject_Z 1) with 1. lra.
Qed.

Lemma square_nonneg (x : Q) : 0 <= x * x.
Proof. nra. Qed.

Lemma square_zero (x : Q) : x * x == 0 -> x == 0.
Proof. intros [H|H]%Qmult_integral; exact H. Qed.

Lemma count_positive {A} (l : list A) :
  l <> [] -> 0 < inject_Z (Z.of_nat (length l)).
Proof.
  destruct l; [done|]. intros _. cbn [length].
  change 0 with (inject_Z 0). rewrite <- Zlt_Qlt. lia.
Qed.

Lemma Q_variance_nonneg (qs : list Q) : qs <> [] -> 0 <= Q_variance qs.
Proof.
  intros Hne. unfold Q_variance.
  pose proof (count_positive qs Hne) as Hn.
  apply Qle_shift_div_l; [done|]. rewrite Qmult_0_l.
  apply Q_sum_nonneg. apply Forall_fmap, Forall_forall.
  intros q _. apply square_nonneg.
Qed.

Lemma Q_variance_zero_iff (qs : list Q) :
  qs <> [] ->
  (Q_variance qs == 0 <-> forall q q', q ∈ qs -> q' ∈ qs -> q == q').
Proof.
  intros Hne. pose proof (count_positive qs Hne) as Hn.
  unfold Q_variance.
  set (sq := map (fun q => (q - Q_mean qs) * (q - Q_mean qs)) qs).
  assert (Forall (fun q => 0 <= q) sq) as Hsq.
  { apply Forall_fmap, Forall_forall. intros q _. apply square_nonneg. }
  split.
  - intros Hv.
    assert (Q_sum sq == 0) as Hs.
    { pose proof (Q_sum_nonneg sq Hsq).
      assert (Q_sum sq ==
              (Q_sum sq / inject_Z (Z.of_nat (length qs)))
              * inject_Z (Z.of_nat (length qs))) as E by (field; lra).
      rewrite Hv in E. lra. }
    apply Q_sum_zero in Hs; [|done].
    apply Forall_fmap in Hs. rewrite Forall_forall in Hs.
    intros q q' Hq Hq'.
    pose proof (square_zero _ (Hs q Hq)).
    pose proof (square_zero _ (Hs q' Hq')). lra.
  - intros Heq. destruct qs as [|q0 qs']; [done|].
    set (qs := q0 :: qs') in *.
    assert (Q_mean qs == q0) as Hmean.
    { unfold Q_mean. rewrite (Q_sum_const q0).
      - field. lra.
      - apply Forall_forall. intros q Hq. apply Heq; [done|left]. }
    assert (Q_sum sq == 0) as ->; [|field; lra].
    apply Q_sum_all_zero. apply Forall_fmap, Forall_forall.
    intros q Hq. cbn. assert (q == q0) by (apply Heq; [done|left]). nra.
Qed.

(** For at least one volume, the exact score lies in (0, 1] and is 1
    exactly when all volumes are equal. *)
Lemma Q_quality_range (qs : list Q) :
  qs <> [] ->
  0 < Q_quality qs /\ Q_quality qs <= 1 /\
  (Q_quality qs == 1 <-> forall q q', q ∈ qs -> q' ∈ qs -> q == q').
Proof.
  intros Hne. pose proof (Q_variance_nonneg qs Hne) as Hv.
  rewrite <- (Q_variance_zero_iff qs Hne). unfold Q_quality.
  set (v := Q_variance qs) in *.
  assert (0 < 1 + v) as Hpos by lra.
  split; [|split; [|split]].
  - apply Qlt_shift_div_l; lra.
  - apply Qle_shift_div_r; lra.
  - intros H1. assert (1 == (1 / (1 + v)) * (1 + v)) as E by (field; lra).
    rewrite H1 in E. lra.
  - intros ->. field.
Qed.
End ExactQuality.

Section VoxelResult.
Variable uninit_bounds : nat -> list float.
Variable stl : stl_file_t.
Variable voxel_size : float.
Variable min_triangles : nat.

Lemma voxel_decomposition_inv h0 d h :
  voxel_based_decomposition uninit_bounds stl voxel_size min_triangles h0
    = Done (Some d) h ->
  strategy d = DECOMP_VOXEL_BASED /\ decomposition_ok h d /\
  exists cells,
    NoDup cells /\
    Forall (qualifies stl voxel_size min_triangles) cells /\
    emitted stl voxel_size h (decomposition_parts d) cells.
Proof.
  unfold voxel_based_decomposition.
  destruct (_ || _); [by intros [[=] _]%mret_inv|].
  destruct (num_voxels stl voxel_size 0) as [nx|]; [|done].
  destruct (num_voxels stl voxel_size 1) as [ny|]; [|done].
  destruct (num_voxels stl voxel_size 2) as [nz|]; [|done].
  destruct (grid_alloc_fails _); [by intros [[=] _]%mret_inv|].
  intros (grid & h1 & (-> & Hall & Hgrid)%count_voxels_inv & H)%bind_inv.
  apply bind_inv in H as (d1 & h2 & Hloop & H).
  apply bind_inv in H as (q & h3 & Hq & [[= <-] <-]%mret_inv).
  apply emit_loop_post in Hloop as (Hn & Ho & Hs & Hp).
  2:{ apply Forall_forall. intros i [_ Hi]%elem_of_seq.
      apply vox_defined; [done|lia]. }
  2:{ intros c Hc. by apply Hgrid, grid_cells_in_grid. }
  eapply scored_decomposition_ok in Hq as [-> Hok].
  2:{ instantiate (1 := default [] (parts d1)).
      intros ps Hps. rewrite Hps. cbn [default].
      destruct (Hp ps Hps) as (ps0 & new & [= <-] & -> & _ & Hok & _).
      done. }
  split; [unfold set_quality; cbn [strategy]; by rewrite Hs|].
  split; [exact Hok|].
  unfold decomposition_parts, set_quality. cbn [parts].
  destruct (parts d1) as [ps|] eqn:Hps.
  - exists (filter (qualifies stl voxel_size min_triangles)
              (grid_cells (nx, ny, nz))).
    split; [apply NoDup_filter, grid_cells_NoDup|].
    split; [apply Forall_forall; by intros c [Hc _]%list_elem_of_filter|].
    destruct (Hp ps eq_refl) as (ps0 & new & [= <-] & -> & _ & _ & He).
    exact He.
  - exists []. split; [constructor|]. split; constructor.
Qed.

Lemma emitted_triangles h ps cells :
  emitted stl voxel_size h ps cells ->
  ps ≫= part_triangles h = cells ≫= cell_triangles stl voxel_size.
Proof.
  induction 1 as [|a c ps cells (part & Ha & Hi) _ IH]; [done|].
  rewrite !bind_cons, IH. f_equal.
  unfold part_triangles, indices_of. by rewrite Ha, Hi.
Qed.

Lemma cell_triangles_NoDup cells :
  NoDup cells -> NoDup (cells ≫= cell_triangles stl voxel_size).
Proof.
  intros Hnd. apply NoDup_bind; [| |done].
  - intros c1 c2 i _ _ [H1 _]%list_elem_of_filter [H2 _]%list_elem_of_filter.
    congruence.
  - intros c _. apply NoDup_filter, NoDup_seq.
Qed.
End VoxelResult.

(** C7. In a decomposition returned by [voxel_based_decomposition], every
    part holds exactly the triangles of one grid cell, is not empty and has
    at least [min_triangles_per_voxel] triangles; a triangle whose cell holds
    fewer than [min_triangles_per_voxel] triangles is in no part; and no
    triangle index occurs twice over all parts, so the parts hold at most as
    many triangles as the mesh. *)
Theorem voxel_parts uninit_bounds stl voxel_size min_triangles h0 d h :
  voxel_based_decomposition uninit_bounds stl voxel_size min_triangles h0
    = Done (Some d) h ->
  let ps := decomposition_parts d in
  Forall (fun a =>
            exists cell,
              part_triangles h a = cell_triangles stl voxel_size cell /\
              (min_triangles <= length (part_triangles h a))%nat /\
              (0 < length (part_triangles h a))%nat) ps /\
  (forall i cell,
     (i < num_triangles stl)%nat ->
     voxel_of stl voxel_size (triangles stl !!! i) = Some cell ->
     (length (cell_triangles stl voxel_size cell) < min_triangles)%nat ->
     forall a, a ∈ ps -> i ∉ part_triangles h a) /\
  NoDup (ps ≫= part_triangles h) /\
  (length (ps ≫= part_triangles h) <= num_triangles stl)%nat.
Proof.
  intros (_ & _ & cells & Hnd & Hq & He)%voxel_decomposition_inv ps.
  fold ps in He.
  assert (Forall (fun a =>
            exists cell,
              part_triangles h a = cell_triangles stl voxel_size cell /\
              (min_triangles <= length (part_triangles h a))%nat /\
              (0 < length (part_triangles h a))%nat) ps) as Hparts.
  { clear Hnd. induction He as [|a c ps' cells' (part & Ha & Hi) He IH];
      [constructor|].
    apply Forall_cons in Hq as [[Hmin Hpos] Hq].
    constructor; [|by apply IH]. exists c.
    unfold part_triangles, indices_of. rewrite Ha, Hi. by cbn [default]. }
  assert (NoDup (ps ≫= part_triangles h)) as Hdisj.
  { rewrite (emitted_triangles _ _ _ _ _ He).
    by apply cell_triangles_NoDup. }
  split; [exact Hparts|]. split; [|split; [exact Hdisj|]].
  - intros i cell Hi Hcell Hfew a Ha Hin.
    rewrite Forall_forall in Hparts.
    destruct (Hparts a Ha) as (c & Hc & Hmin & _).
    rewrite Hc in Hin, Hmin.
    apply list_elem_of_filter in Hin as [Hin _].
    rewrite Hcell in Hin. injection Hin as ->. lia.
  - etrans; [|by rewrite <- (length_seq (num_triangles stl) 0)].
    apply submseteq_length, NoDup_submseteq; [exact Hdisj|].
    intros i (a & Hil & Ha)%list_elem_of_bind.
    rewrite Forall_forall in Hparts.
    destruct (Hparts a Ha) as (c & Hc & _). rewrite Hc in Hil.
    by apply list_elem_of_filter in Hil as [_ Hil].
Qed.

Lemma voxel_parts_witness :
  exists d h,
    voxel_based_decomposition zero_bounds cube_mesh (fl 4) 2 empty_heap
      = Done (Some d) h /\
    num_parts d = 3%nat /\
    NoDup (decomposition_parts d ≫= part_triangles h) /\
    (length (decomposition_parts d ≫= part_triangles h)
     < num_triangles cube_mesh)%nat.
Proof.
  eexists _, _. split; [vm_compute; reflexivity|].
  split; [reflexivity|].
  split; [|vm_compute; lia].
  eapply (voxel_parts zero_bounds cube_mesh (fl 4) 2 empty_heap).
  vm_compute; reflexivity.
Defined.

(** ** The score of a decomposition *)




(** ** Hulls *)

Lemma hull_empty_concavity part :
  hull_empty part -> part_concavity part = F32.zero.
Proof.
  intros [Hn _]. unfold part_concavity, compute_volume. rewrite Hn.
  by destruct (part_num_triangles part =? 0)%nat.
Qed.

(** In a decomposition returned by the hierarchical or the voxel strategy
    every part is live, has no hull vertex, and has concavity 0. *)
Lemma hull_never_populated uninit_bounds stl h0 d h :
  (exists max_depth split_threshold,
     hierarchical_decomposition uninit_bounds stl max_depth split_threshold h0
       = Done (Some d) h) \/
  (exists voxel_size min_triangles,
     voxel_based_decomposition uninit_bounds stl voxel_size min_triangles h0
       = Done (Some d) h) ->
  Forall (fun a =>
            exists part,
              blocks h !! a = Some part /\ hull_empty part /\
              compute_part_concavity a stl h = Done F32.zero h)
    (decomposition_parts d).
Proof.
  intros H.
  assert (decomposition_ok h d) as Hok.
  { destruct H as [(md & thr & H)|(vs & mt & H)].
    - by apply hierarchical_decomposition_ok in H as [_ ?].
    - by apply voxel_decomposition_inv in H as (_ & ? & _). }
  unfold decomposition_ok, decomposition_parts in *.
  destruct (parts d) as [ps|]; cbn [default]; [|constructor].
  destruct Hok as (vols & _ & _ & _ & Hh).
  eapply Forall_impl; [exact Hh|]. cbn beta.
  intros a (part & Ha & He). exists part. split; [done|]. split; [done|].
  unfold compute_part_concavity.
  rewrite (bind_Done _ _ _ _ _ (load_Some _ _ _ Ha)).
  by rewrite hull_empty_concavity.
Qed.

(** ** The approximate strategy *)

Section Approximate.
Variable uninit_bounds : nat -> list float.

Lemma fill_loop a l acc h part :
  blocks h !! a = Some part -> triangle_indices part = Some acc ->
  (N.of_nat (length acc + length l) <= capacity part)%N ->
  for_each (convex_part_add_triangle a) l h =
  Done tt (Heap (<[a := ConvexPart (hull part) (Some (acc ++ l))
                        (capacity part) (center part) (volume part)]>
                   (blocks h)) (next_block h)).
Proof.
  unfold for_each. revert acc h part.
  induction l as [|i l IH]; intros acc h part Ha Hacc Hcap; cbn [foldM].
  - rewrite app_nil_r, <- Hacc.
    rewrite insert_id; [by rewrite heap_eta|]. by destruct part.
  - cbn [length] in Hcap.
    erewrite bind_Done;
      [|apply (add_triangle_fits a i h part acc Ha Hacc); lia].
    erewrite (IH (acc ++ [i])); cbn [blocks next_block hull capacity
      center volume triangle_indices];
      [|apply lookup_insert_eq|reflexivity|].
    + by rewrite insert_insert_eq, <- app_assoc.
    + rewrite length_app. cbn [length capacity]. lia.
Qed.

(** The initial part: all triangle indices, an empty hull. *)
Lemma create_full_part_spec stl h :
  exists part,
    create_full_part uninit_bounds stl h =
    Done (next_block h)
      (Heap (<[next_block h := part]> (blocks h)) (S (next_block h))) /\
    triangle_indices part = Some (seq 0 (num_triangles stl)) /\
    hull_empty part.
Proof.
  unfold create_full_part.
  erewrite bind_Done by reflexivity.
  erewrite bind_Done.
  2:{ apply (fill_loop _ _ []) with
        (part := fresh_part uninit_bounds (next_block h)
                   (N.of_nat (num_triangles stl))).
      - apply lookup_insert_eq.
      - reflexivity.
      - cbn [capacity fresh_part length]. rewrite length_seq. lia. }
  cbn [hull capacity center volume fresh_part app blocks next_block].
  rewrite insert_insert_eq.
  match goal with
  | |- context [(_ ≫= _) ?hh] =>
      destruct (compute_properties_Some (next_block h) stl hh _
                  (lookup_insert_eq _ _ _)) as (c & v & Ec)
  end.
  erewrite bind_Done by exact Ec.
  cbn [hull capacity triangle_indices blocks next_block].
  rewrite insert_insert_eq. eexists. split; [reflexivity|]. by split.
Qed.

(** With a tolerance of at least 0 and room for one part, a part without
    hull vertices is accepted as it is: its address is stored in the
    decomposition. *)
Lemma approximate_decompose_part_accepts fuel a part stl max_parts tol h :
  blocks h !! a = Some part -> hull_empty part ->
  (1 <= part_num_triangles part)%nat -> (1 <= max_parts)%N ->
  F32.leb F32.zero tol = true ->
  approximate_decompose_part uninit_bounds (S fuel) a stl
    (set_strategy (convex_decomposition_create max_parts)
       DECOMP_APPROX_CONVEX) max_parts tol h =
  Done (ConvexDecomposition (Some [a]) max_parts DECOMP_APPROX_CONVEX
          (F32.add F32.zero (volume part)) F32.zero) h.
Proof.
  intros Ha Hempty Hn Hmax Htol. cbn [approximate_decompose_part].
  erewrite bind_Done by (apply load_Some, Ha).
  destruct (Nat.eqb_spec (part_num_triangles part) 0) as [|_]; [lia|].
  cbn [num_parts parts set_strategy convex_decomposition_create default
       length].
  destruct (N.leb_spec max_parts (N.of_nat 0)) as [|_]; [lia|].
  unfold compute_part_concavity.
  erewrite bind_Done.
  2:{ erewrite bind_Done by (apply load_Some, Ha). reflexivity. }
  rewrite (hull_empty_concavity _ Hempty), Htol, orb_true_l.
  unfold convex_decomposition_add_part, grow.
  cbn [num_parts parts set_strategy convex_decomposition_create default
       length decomp_capacity].
  destruct (N.leb_spec max_parts (N.of_nat 0)) as [|_]; [lia|].
  destruct (N.ltb_spec (N.of_nat 0) max_parts) as [_|]; [|lia].
  erewrite bind_Done by (apply load_Some, Ha).
  reflexivity.
Qed.

(** The caller then frees the part. *)
Lemma approximate_build_accepts fuel stl max_parts tol h :
  (1 <= num_triangles stl)%nat -> (1 <= max_parts)%N ->
  F32.leb F32.zero tol = true ->
  exists d h',
    approximate_build uninit_bounds (S fuel) stl max_parts tol h
      = Done d h' /\
    parts d = Some [next_block h] /\
    blocks h' !! next_block h = None.
Proof.
  intros Hn Hmax Htol. unfold approximate_build.
  destruct (create_full_part_spec stl h) as (part & Ec & Hidx & Hempty).
  assert (part_num_triangles part = num_triangles stl) as Hnum
    by (unfold part_num_triangles; rewrite Hidx; apply length_seq).
  erewrite bind_Done by exact Ec.
  erewrite bind_Done.
  2:{ apply approximate_decompose_part_accepts with (part := part);
        [apply lookup_insert_eq|done|lia|done..]. }
  erewrite bind_Done
    by (unfold convex_part_free; eapply free_Some, lookup_insert_eq).
  eexists _, _. split; [reflexivity|].
  cbn [parts blocks]. split; [reflexivity|]. apply lookup_delete_eq.
Qed.

Lemma quality_of_freed_part d a h :
  parts d = Some [a] -> blocks h !! a = None ->
  compute_decomposition_quality d h = Undefined UseAfterFree.
Proof.
  intros Hd Ha. unfold compute_decomposition_quality. rewrite Hd.
  cbn [foldM]. unfold mbind, M_bind, load. by rewrite Ha.
Qed.
End Approximate.

(** C3. For every non-empty mesh, every [max_parts >= 1] and every
    tolerance of at least 0, [approximate_convex_decomposition] stores the
    address of the initial part in the decomposition, frees that part, and
    then reads its volume to compute the score: it does not return a
    decomposition holding the initial part, it runs into a use after free. *)
Theorem approximate_use_after_free uninit_bounds fuel stl max_parts
    quality_threshold tol h :
  (1 <= num_triangles stl)%nat -> (1 <= max_parts)%N ->
  F32.leb F32.zero tol = true ->
  approximate_convex_decomposition uninit_bounds (S fuel) stl max_parts
    quality_threshold tol h = Undefined UseAfterFree.
Proof.
  intros Hn Hmax Htol. unfold approximate_convex_decomposition.
  destruct (Nat.eqb_spec (num_triangles stl) 0) as [|_]; [lia|].
  destruct (approximate_build_accepts uninit_bounds fuel stl max_parts tol h
              Hn Hmax Htol) as (d & h' & Eb & Hd & Hfree).
  erewrite bind_Done by exact Eb.
  unfold mbind, M_bind.
  by rewrite (quality_of_freed_part d _ h' Hd Hfree).
Qed.

Lemma approximate_use_after_free_witness :
  approximate_convex_decomposition zero_bounds 1 cube_mesh 8 F32.one
    F32.tenth empty_heap = Undefined UseAfterFree.
Proof.
  apply (approximate_use_after_free zero_bounds 0 cube_mesh 8 F32.one
           F32.tenth empty_heap).
  - vm_compute. lia.
  - lia.
  - reflexivity.
Defined.

(** C2. On the mesh of two clusters with [max_parts = 1] and a negative
    tolerance the first split yields two parts, both of which are added:
    the decomposition holds two parts, more than [max_parts]; both are
    freed by the caller of the recursive calls, and the score is computed
    from freed parts. *)
Lemma approximate_exceeds_max_parts :
  (exists d h,
     approximate_build zero_bounds 3 two_cluster_mesh 1 (F32.opp F32.one)
       empty_heap = Done d h /\
     parts d = Some [1; 2]%nat /\ (1 < N.of_nat (num_parts d))%N /\
     blocks h !! 1%nat = None /\ blocks h !! 2%nat = None) /\
  approximate_convex_decomposition zero_bounds 3 two_cluster_mesh 1 F32.one
    (F32.opp F32.one) empty_heap = Undefined UseAfterFree.
Proof.
  split; [eexists _, _|]; by_evaluation.
Qed.

(** C10. For the approximate strategy the parts of the returned
    decomposition are not there to be inspected: on the cube the one part
    recorded in the decomposition has been freed, and computing its
    concavity reads freed memory. *)
Lemma approximate_part_dangling :
  exists d h,
    approximate_build zero_bounds 1 cube_mesh 8 F32.tenth empty_heap
      = Done d h /\
    parts d = Some [0%nat] /\
    blocks h !! 0%nat = None /\
    compute_part_concavity 0%nat cube_mesh h = Undefined UseAfterFree.
Proof.
  eexists _, _. by_evaluation.
Qed.

(** * Further properties of the tree *)

Section BvhShape.
Variable qsort_r : (nat -> nat -> Z) -> list nat -> list nat.
Variable node_garbage : list float.

Lemma bvh_sort_length idxs stl axis :
  qsort_permutes qsort_r ->
  length (bvh_sort_triangles_by_axis qsort_r idxs stl axis) = length idxs.
Proof. intros Hp. by rewrite (bvh_sort_perm qsort_r idxs stl axis Hp). Qed.

(** The recursion is at most [gap] levels deep. *)
Lemma bvh_build_from_height stl mtl sa gap idxs depth node :
  bvh_build_from qsort_r node_garbage gap stl idxs depth mtl sa
    = Some node ->
  (node_height node <= gap)%nat.
Proof.
  revert idxs depth node.
  induction gap as [|gap IH]; intros idxs depth node Hb.
  - destruct idxs as [|i idxs]; [done|].
    rewrite bvh_build_from_leaf in Hb by auto. by simplify_eq.
  - destruct idxs as [|i idxs]; [done|].
    destruct (decide (length (i :: idxs) <= mtl)%nat) as [Hle|Hgt].
    + rewrite bvh_build_from_leaf in Hb by auto. simplify_eq. simpl. lia.
    + rewrite bvh_build_from_split in Hb by lia. cbv zeta in Hb.
      destruct (bvh_build_from _ _ gap stl (take _ _) _ _ _) as [l|] eqn:Hl;
        [|done].
      destruct (bvh_build_from _ _ gap stl (drop _ _) _ _ _) as [r|] eqn:Hr;
        [|done].
      simplify_eq. apply IH in Hl. apply IH in Hr. simpl. lia.
Qed.

(** Halving keeps the sizes below [mtl * 2 ^ gap], so the depth limit is
    not what ends the recursion. *)
Lemma bvh_build_from_leaf_sizes stl mtl sa gap idxs depth node :
  qsort_permutes qsort_r ->
  (length idxs <= mtl * 2 ^ gap)%nat ->
  bvh_build_from qsort_r node_garbage gap stl idxs depth mtl sa
    = Some node ->
  Forall (fun l => (1 <= length l <= mtl)%nat) (leaves node).
Proof.
  intros Hp. revert idxs depth node.
  induction gap as [|gap IH]; intros idxs depth node Hlen Hb.
  - destruct idxs as [|i idxs]; [done|].
    rewrite bvh_build_from_leaf in Hb by auto. simplify_eq.
    constructor; [|constructor]. cbn [length] in *. simpl in Hlen. lia.
  - destruct idxs as [|i idxs]; [done|].
    destruct (decide (length (i :: idxs) <= mtl)%nat) as [Hle|Hgt].
    + rewrite bvh_build_from_leaf in Hb by auto. simplify_eq.
      constructor; [|constructor]. cbn [length] in *. lia.
    + rewrite bvh_build_from_split in Hb by lia. cbv zeta in Hb.
      pose proof (bvh_sort_length (i :: idxs) stl
                    (sort_axis_of_nat (depth mod 3)) Hp) as Hs.
      set (sorted := bvh_sort_triangles_by_axis _ _ _ _) in *.
      set (n := length (i :: idxs)) in *.
      rewrite Nat.pow_succ_r' in Hlen.
      remember (mtl * 2 ^ gap)%nat as M eqn:EM.
      assert (n <= 2 * M)%nat as Hn by lia.
      pose proof (Nat.div_mod_eq n 2) as Hdm.
      pose proof (Nat.mod_upper_bound n 2 ltac:(lia)) as Hmod.
      destruct (bvh_build_from _ _ gap stl (take _ _) _ _ _) as [l|] eqn:Hl;
        [|done].
      destruct (bvh_build_from _ _ gap stl (drop _ _) _ _ _) as [r|] eqn:Hr;
        [|done].
      simplify_eq. simpl. apply Forall_app. split.
      * eapply IH; [|exact Hl]. rewrite length_take. lia.
      * eapply IH; [|exact Hr]. rewrite length_drop. lia.
Qed.

(** With a leaf capacity of zero every array is split, down to an array
    of one index whose left half is empty: the build fails unless the
    depth limit ends the recursion first. *)
Lemma bvh_build_from_zero_capacity stl sa gap idxs depth :
  qsort_permutes qsort_r ->
  (length idxs < 2 ^ gap)%nat ->
  bvh_build_from qsort_r node_garbage gap stl idxs depth 0 sa = None.
Proof.
  intros Hp. revert idxs depth.
  induction gap as [|gap IH]; intros idxs depth Hlen.
  - destruct idxs; [done|]. simpl in Hlen. lia.
  - destruct idxs as [|i idxs]; [done|].
    rewrite bvh_build_from_split by (cbn [length]; lia). cbv zeta.
    pose proof (bvh_sort_length (i :: idxs) stl
                  (sort_axis_of_nat (depth mod 3)) Hp) as Hs.
    set (sorted := bvh_sort_triangles_by_axis _ _ _ _) in *.
    set (n := length (i :: idxs)) in *.
    rewrite Nat.pow_succ_r' in Hlen.
    pose proof (Nat.div_mod_eq n 2) as Hdm.
    pose proof (Nat.mod_upper_bound n 2 ltac:(lia)) as Hmod.
    rewrite (IH (take (n / 2) sorted)); [done|].
    rewrite length_take. lia.
Qed.
End BvhShape.

Lemma bvh_create_null_iff_empty_aux qsort_r node_garbage stl :
  qsort_permutes qsort_r ->
  bvh_create qsort_r node_garbage stl 10 = None <->
  num_triangles stl = 0%nat.
Proof.
  intros Hp. split.
  - intros Hnone. destruct (decide (num_triangles stl = 0%nat)) as [|Hn];
      [done|].
    destruct (bvh_create_succeeds qsort_r node_garbage stl 10 Hp)
      as [t Ht]; [lia|lia|congruence].
  - intros Hn. unfold bvh_create. by rewrite Hn.
Qed.

(** X1. [bvh_create] with a leaf capacity of at least one returns [NULL] on
    the empty mesh and on no other. *)
Theorem bvh_create_null_iff_empty qsort_r node_garbage stl mtl :
  qsort_permutes qsort_r -> (1 <= mtl)%nat ->
  bvh_create qsort_r node_garbage stl mtl = None <->
  num_triangles stl = 0%nat.
Proof.
  intros Hp Hm. split.
  - intros Hnone. destruct (decide (num_triangles stl = 0%nat)) as [|Hn];
      [done|].
    destruct (bvh_create_succeeds qsort_r node_garbage stl mtl Hp Hm)
      as [t Ht]; [lia|congruence].
  - intros Hn. unfold bvh_create. by rewrite Hn.
Qed.

Lemma bvh_create_null_iff_empty_witness :
  bvh_create stable_qsort no_garbage cube_mesh 2 = None <->
  num_triangles cube_mesh = 0%nat.
Proof.
  apply (bvh_create_null_iff_empty stable_qsort no_garbage cube_mesh 2).
  - exact stable_qsort_permutes.
  - lia.
Defined.

(** X2. No leaf of a tree built by [bvh_create] lies deeper than 20 levels
    below the root. *)
Theorem bvh_height_bounded qsort_r node_garbage stl mtl t :
  bvh_create qsort_r node_garbage stl mtl = Some t ->
  (node_height (root t) <= 20)%nat.
Proof.
  unfold bvh_create, bvh_build_recursive.
  destruct (num_triangles stl =? 0)%nat; [done|].
  destruct (bvh_build_from _ _ _ _ _ _ _ _) as [r|] eqn:Hb; [|done].
  intros [= <-]. simpl. by apply bvh_build_from_height in Hb.
Qed.

Lemma bvh_height_bounded_witness :
  exists t, bvh_create stable_qsort no_garbage cube_mesh 2 = Some t /\
            (node_height (root t) <= 20)%nat.
Proof.
  eexists. split; [vm_compute; reflexivity|].
  apply (bvh_height_bounded stable_qsort no_garbage cube_mesh 2).
  vm_compute; reflexivity.
Defined.

(** X3. For a mesh of at most [max_triangles_per_leaf * 2^20] triangles every
    leaf of the tree holds at least one and at most
    [max_triangles_per_leaf] triangle indices. *)
Theorem bvh_leaf_sizes qsort_r node_garbage stl mtl t :
  qsort_permutes qsort_r ->
  (num_triangles stl <= mtl * 2 ^ 20)%nat ->
  bvh_create qsort_r node_garbage stl mtl = Some t ->
  Forall (fun l => (1 <= length l <= mtl)%nat) (leaves (root t)).
Proof.
  intros Hp Hn. unfold bvh_create, bvh_build_recursive.
  destruct (num_triangles stl =? 0)%nat; [done|].
  destruct (bvh_build_from _ _ _ _ _ _ _ _) as [r|] eqn:Hb; [|done].
  intros [= <-]. simpl.
  eapply bvh_build_from_leaf_sizes; [exact Hp| |exact Hb].
  by rewrite length_seq.
Qed.

Lemma bvh_leaf_sizes_witness :
  exists t, bvh_create stable_qsort no_garbage cube_mesh 2 = Some t /\
            Forall (fun l => (1 <= length l <= 2)%nat) (leaves (root t)).
Proof.
  eexists. split; [vm_compute; reflexivity|].
  apply (bvh_leaf_sizes stable_qsort no_garbage cube_mesh 2).
  - exact stable_qsort_permutes.
  - apply Nat.leb_le. vm_compute; reflexivity.
  - vm_compute; reflexivity.
Defined.

(** X4. With [max_triangles_per_leaf = 0], [bvh_create] returns [NULL] for
    every mesh of fewer than [2^20] triangles. *)
Theorem bvh_create_zero_capacity qsort_r node_garbage stl :
  qsort_permutes qsort_r ->
  (num_triangles stl < 2 ^ 20)%nat ->
  bvh_create qsort_r node_garbage stl 0 = None.
Proof.
  intros Hp Hn. unfold bvh_create, bvh_build_recursive.
  destruct (num_triangles stl =? 0)%nat; [done|].
  rewrite bvh_build_from_zero_capacity; [done|exact Hp|].
  by rewrite length_seq.
Qed.

Lemma bvh_create_zero_capacity_witness :
  bvh_create stable_qsort no_garbage cube_mesh 0 = None.
Proof.
  apply (bvh_create_zero_capacity stable_qsort no_garbage cube_mesh).
  - exact stable_qsort_permutes.
  - apply Nat.ltb_lt. vm_compute; reflexivity.
Defined.

(** * Boxes of subtrees and of the mesh *)

Section Tight.
Import F32 F32Order.

Lemma leaf_coords_app stl l r k :
  leaf_coords stl (l ++ r) k = leaf_coords stl l k ++ leaf_coords stl r k.
Proof. unfold leaf_coords. apply flat_map_app. Qed.

Lemma is_min_app m a b xs ys :
  is_min m [a; b] -> is_min a xs -> is_min b ys -> is_min m (xs ++ ys).
Proof.
  intros [Hm Hle] [Ha Hxs] [Hb Hys]. split.
  - apply elem_of_app.
    apply elem_of_cons in Hm as [->|Hm]; [by left|].
    apply list_elem_of_singleton in Hm as ->. by right.
  - intros x [Hx|Hx]%elem_of_app.
    + eapply leb_trans; [apply Hle; left|by apply Hxs].
    + eapply leb_trans; [apply Hle; right; left|by apply Hys].
Qed.

Lemma is_max_app m a b xs ys :
  is_max m [a; b] -> is_max a xs -> is_max b ys -> is_max m (xs ++ ys).
Proof.
  intros [Hm Hle] [Ha Hxs] [Hb Hys]. split.
  - apply elem_of_app.
    apply elem_of_cons in Hm as [->|Hm]; [by left|].
    apply list_elem_of_singleton in Hm as ->. by right.
  - intros x [Hx|Hx]%elem_of_app.
    + eapply leb_trans; [by apply Hxs|apply Hle; left].
    + eapply leb_trans; [by apply Hys|apply Hle; right; left].
Qed.

(** Exact boxes at every node give, at every node, the box of the
    triangles stored below it. *)
Lemma bounds_exact_below stl node k :
  bounds_exact stl node -> (k < 3)%nat ->
  is_min (node_bounds node !!! k)
    (leaf_coords stl (leaf_indices node) k) /\
  is_max (node_bounds node !!! (k + 3)%nat)
    (leaf_coords stl (leaf_indices node) k).
Proof.
  intros He Hk. induction node as [b idxs|b l IHl r IHr]; simpl in *.
  - by apply He.
  - destruct He as (Hb & Hl & Hr).
    destruct (Hb k Hk) as [Hmin Hmax].
    destruct (IHl Hl) as [Hlmin Hlmax], (IHr Hr) as [Hrmin Hrmax].
    rewrite leaf_coords_app. split.
    + eapply is_min_app; eauto.
    + eapply is_max_app; eauto.
Qed.

Lemma bounds_exact_subtrees stl node node' :
  bounds_exact stl node -> node' ∈ subtrees node -> bounds_exact stl node'.
Proof.
  induction node as [b idxs|b l IHl r IHr]; cbn [subtrees];
    intros He [->|Hin]%elem_of_cons; try done.
  - by apply elem_of_nil in Hin.
  - destruct He as (_ & Hl & Hr).
    apply elem_of_app in Hin as [Hin|Hin]; auto.
Qed.

Lemma map_lookup_total_seq {A} `{Inhabited A} (l : list A) :
  map (fun i => l !!! i) (seq 0 (length l)) = l.
Proof.
  apply list_eq. intros i. rewrite list_lookup_fmap.
  destruct (decide (i < length l)%nat) as [Hlt|Hge].
  - rewrite lookup_seq_lt by done. simpl.
    destruct (lookup_lt_is_Some_2 l i Hlt) as [x Hx].
    by rewrite (list_lookup_total_correct _ _ _ Hx).
  - rewrite lookup_seq_ge by lia. simpl. symmetry.
    apply lookup_ge_None. lia.
Qed.

Lemma leaf_coords_map stl idxs k :
  leaf_coords stl idxs k =
  flat_map (fun t => map (fun j => vertex_coord t j k) [0; 1; 2]%nat)
    (map (fun i => triangles stl !!! i) idxs).
Proof.
  unfold leaf_coords. induction idxs as [|i idxs IH]; [done|].
  simpl. do 3 f_equal. exact IH.
Qed.

Lemma leaf_coords_all stl k :
  leaf_coords stl (seq 0 (num_triangles stl)) k = mesh_coords stl k.
Proof.
  rewrite leaf_coords_map. unfold num_triangles.
  by rewrite map_lookup_total_seq.
Qed.

Lemma leaf_coords_perm stl l1 l2 k x :
  l1 ≡ₚ l2 -> x ∈ leaf_coords stl l1 k -> x ∈ leaf_coords stl l2 k.
Proof.
  unfold leaf_coords. intros Hp.
  rewrite !list_elem_of_In, !in_flat_map.
  intros (i & Hi & Hx). exists i. split; [|done].
  apply list_elem_of_In. rewrite <- Hp. by apply list_elem_of_In.
Qed.

Lemma is_min_perm stl l1 l2 k m :
  l1 ≡ₚ l2 -> is_min m (leaf_coords stl l1 k) ->
  is_min m (leaf_coords stl l2 k).
Proof.
  intros Hp [Hm Hle]. split; [by eapply leaf_coords_perm|].
  intros x Hx. apply Hle. by eapply leaf_coords_perm.
Qed.

Lemma is_max_perm stl l1 l2 k m :
  l1 ≡ₚ l2 -> is_max m (leaf_coords stl l1 k) ->
  is_max m (leaf_coords stl l2 k).
Proof.
  intros Hp [Hm Hle]. split; [by eapply leaf_coords_perm|].
  intros x Hx. apply Hle. by eapply leaf_coords_perm.
Qed.

(** [stl_calculate_bounds] computes the box of the leaf that would hold
    every triangle. *)
Lemma stl_calculate_bounds_leaf stl :
  num_triangles stl <> 0%nat ->
  stl_bounds (stl_calculate_bounds stl) =
  leaf_bounds stl (seq 0 (num_triangles stl)).
Proof.
  intros Hn. unfold stl_calculate_bounds.
  destruct (Nat.eqb_spec (num_triangles stl) 0); [done|].
  cbn [stl_bounds]. unfold leaf_bounds, num_triangles.
  rewrite <- (map_lookup_total_seq (triangles stl)) at 1.
  generalize (seq 0 (length (triangles stl))). generalize bounds_sentinel.
  intros b l. revert b. induction l as [|i l IH]; intros b; [done|].
  cbn [map foldl]. by rewrite IH.
Qed.

(** A box that contains a point of another box on every axis. *)
Lemma intersects_widen q c p :
  (forall k, (k < 3)%nat ->
     leb (p !!! k) (c !!! k) = true /\
     leb (c !!! (k + 3)%nat) (p !!! (k + 3)%nat) = true) ->
  bvh_intersects_bounds q c = true -> bvh_intersects_bounds q p = true.
Proof.
  intros Hp. unfold bvh_intersects_bounds, geb.
  fold (leb (c !!! 0%nat) (q !!! 3%nat)) (leb (c !!! 1%nat) (q !!! 4%nat))
    (leb (c !!! 2%nat) (q !!! 5%nat)) (leb (p !!! 0%nat) (q !!! 3%nat))
    (leb (p !!! 1%nat) (q !!! 4%nat)) (leb (p !!! 2%nat) (q !!! 5%nat)).
  rewrite !andb_true_iff.
  destruct (Hp 0%nat ltac:(lia)) as [H0 H3], (Hp 1%nat ltac:(lia)) as [H1 H4],
    (Hp 2%nat ltac:(lia)) as [H2 H5]. simpl in H3, H4, H5.
  intros (((((A & B) & C) & D) & E) & G).
  repeat split; eauto using leb_trans.
Qed.

(** The box of a node lies within the box of every node above it. *)
Lemma bounds_exact_encloses stl node node' :
  bounds_exact stl node -> node' ∈ subtrees node ->
  forall k, (k < 3)%nat ->
    leb (node_bounds node !!! k) (node_bounds node' !!! k) = true /\
    leb (node_bounds node' !!! (k + 3)%nat)
      (node_bounds node !!! (k + 3)%nat) = true.
Proof.
  induction node as [b idxs|b l IHl r IHr]; cbn [subtrees];
    intros He [->|Hin]%elem_of_cons k Hk.
  - destruct (He k Hk) as [[Hm Hle] [HM Hge]]. simpl. auto.
  - by apply elem_of_nil in Hin.
  - destruct He as (Hb & _). destruct (Hb k Hk) as [[Hm Hle] [HM Hge]].
    simpl. auto.
  - destruct He as (Hb & Hl & Hr).
    destruct (Hb k Hk) as [[_ Hle] [_ Hge]]. cbn [node_bounds].
    apply elem_of_app in Hin as [Hin|Hin].
    + destruct (IHl Hl Hin k Hk) as [H1 H2]. split.
      * eapply leb_trans; [apply Hle; left|exact H1].
      * eapply leb_trans; [exact H2|apply Hge; left].
    + destruct (IHr Hr Hin k Hk) as [H1 H2]. split.
      * eapply leb_trans; [apply Hle; right; left|exact H1].
      * eapply leb_trans; [exact H2|apply Hge; right; left].
Qed.
End Tight.

(** X5. In a tree built from a mesh with finite coordinates the box of every
    node, at any depth, is the exact box of the triangles stored in the
    leaves below that node: each bound is attained by a vertex of one of
    them and bounds all of them. *)
Theorem bvh_node_box_tight qsort_r node_garbage stl mtl t node k :
  mesh_finite stl ->
  bvh_create qsort_r node_garbage stl mtl = Some t ->
  node ∈ subtrees (root t) -> (k < 3)%nat ->
  is_min (node_bounds node !!! k) (leaf_coords stl (leaf_indices node) k) /\
  is_max (node_bounds node !!! (k + 3)%nat)
    (leaf_coords stl (leaf_indices node) k).
Proof.
  intros Hm Hc Hin Hk. apply bounds_exact_below; [|done].
  eapply bounds_exact_subtrees; [|exact Hin].
  revert Hc. unfold bvh_create, bvh_build_recursive.
  destruct (num_triangles stl =? 0)%nat; [done|].
  destruct (bvh_build_from _ _ _ _ _ _ _ _) as [r|] eqn:Hb; [|done].
  intros [= <-]. simpl. by eapply bvh_build_from_boxes.
Qed.

Lemma bvh_node_box_tight_witness :
  exists t l r b,
    bvh_create stable_qsort no_garbage cube_mesh 2 = Some t /\
    root t = BVH_INTERNAL b l r /\
    is_min (node_bounds l !!! 0%nat)
      (leaf_coords cube_mesh (leaf_indices l) 0) /\
    is_max (node_bounds l !!! 3%nat)
      (leaf_coords cube_mesh (leaf_indices l) 0).
Proof.
  eexists _, _, _, _. split; [vm_compute; reflexivity|].
  split; [reflexivity|].
  eapply (bvh_node_box_tight stable_qsort no_garbage cube_mesh 2 _ _ 0).
  - exact cube_mesh_finite.
  - vm_compute; reflexivity.
  - cbn [root subtrees]. right. apply elem_of_app. left. left.
  - lia.
Defined.

(** X6. The root box of the tree is the exact box of the mesh. *)
Theorem bvh_root_box_is_mesh_box qsort_r node_garbage stl mtl t k :
  qsort_permutes qsort_r -> mesh_finite stl ->
  bvh_create qsort_r node_garbage stl mtl = Some t -> (k < 3)%nat ->
  is_min (node_bounds (root t) !!! k) (mesh_coords stl k) /\
  is_max (node_bounds (root t) !!! (k + 3)%nat) (mesh_coords stl k).
Proof.
  intros Hp Hm Hc Hk. rewrite <- leaf_coords_all.
  revert Hc. unfold bvh_create, bvh_build_recursive.
  destruct (num_triangles stl =? 0)%nat; [done|].
  destruct (bvh_build_from _ _ _ _ _ _ _ _) as [r|] eqn:Hb; [|done].
  intros [= <-]. cbn [root].
  pose proof (bvh_build_from_leaves _ _ _ _ _ _ _ _ _ Hp Hb) as Hperm.
  destruct (bvh_build_from_boxes _ _ _ _ _ _ _ _ _ Hm Hb) as [He _].
  destruct (bounds_exact_below stl r k He Hk) as [Hmin Hmax].
  split; [by eapply is_min_perm|by eapply is_max_perm].
Qed.

Lemma bvh_root_box_is_mesh_box_witness :
  exists t,
    bvh_create stable_qsort no_garbage cube_mesh 2 = Some t /\
    is_min (node_bounds (root t) !!! 0%nat) (mesh_coords cube_mesh 0) /\
    is_max (node_bounds (root t) !!! 3%nat) (mesh_coords cube_mesh 0).
Proof.
  eexists. split; [vm_compute; reflexivity|].
  apply (bvh_root_box_is_mesh_box stable_qsort no_garbage cube_mesh 2 _ 0).
  - exact stable_qsort_permutes.
  - exact cube_mesh_finite.
  - vm_compute; reflexivity.
  - lia.
Defined.



(** X8. The overlap test is symmetric. *)
Theorem bvh_intersects_bounds_sym (bounds1 bounds2 : list float) :
  bvh_intersects_bounds bounds1 bounds2 =
  bvh_intersects_bounds bounds2 bounds1.
Proof.
  unfold bvh_intersects_bounds, F32.geb, F32.leb.
  repeat match goal with
         | |- context [SFleb ?a ?b] => destruct (SFleb a b)
         end; reflexivity.
Qed.

(** X9. Pruning is sound: in a tree built from a mesh with finite coordinates,
    a query box that overlaps the box of a node overlaps the box of every
    node above it, so a traversal that skips the subtrees whose box the
    query misses skips no node the query overlaps. *)
Theorem bvh_pruning_sound qsort_r node_garbage stl mtl t node node' query :
  mesh_finite stl ->
  bvh_create qsort_r node_garbage stl mtl = Some t ->
  node ∈ subtrees (root t) -> node' ∈ subtrees node ->
  bvh_intersects_bounds query (node_bounds node') = true ->
  bvh_intersects_bounds query (node_bounds node) = true.
Proof.
  intros Hm Hc Hin Hin'. apply intersects_widen.
  apply bounds_exact_encloses with (stl := stl); [|done].
  eapply bounds_exact_subtrees; [|exact Hin].
  revert Hc. unfold bvh_create, bvh_build_recursive.
  destruct (num_triangles stl =? 0)%nat; [done|].
  destruct (bvh_build_from _ _ _ _ _ _ _ _) as [r|] eqn:Hb; [|done].
  intros [= <-]. simpl. by eapply bvh_build_from_boxes.
Qed.

Lemma bvh_pruning_sound_witness :
  exists t l r b,
    bvh_create stable_qsort no_garbage cube_mesh 2 = Some t /\
    root t = BVH_INTERNAL b l r /\
    bvh_intersects_bounds [fl 1; fl 1; fl 1; fl 2; fl 2; fl 2]
      (node_bounds l) = true /\
    bvh_intersects_bounds [fl 1; fl 1; fl 1; fl 2; fl 2; fl 2]
      (node_bounds (root t)) = true.
Proof.
  eexists _, _, _, _. split; [vm_compute; reflexivity|].
  split; [reflexivity|]. split; [vm_compute; reflexivity|].
  eapply (bvh_pruning_sound stable_qsort no_garbage cube_mesh 2).
  - exact cube_mesh_finite.
  - vm_compute; reflexivity.
  - left.
  - cbn [subtrees]. right. apply elem_of_app. left. left.
  - vm_compute; reflexivity.
Defined.

(** * The partition index *)

Lemma find_partition_seq (center_x : float) (pb : list float) (a len : nat) :
  let j := find_partition center_x pb (seq a len) in
  ((a <= j < a + len)%nat /\ in_slab center_x pb j = true /\
   forall j', (a <= j' < j)%nat -> in_slab center_x pb j' = false) \/
  (j = 0%nat /\
   forall j', (a <= j' < a + len)%nat -> in_slab center_x pb j' = false).
Proof.
  revert a. induction len as [|len IH]; intros a; cbn [seq find_partition].
  - right. split; [done|]. intros j' Hj'. lia.
  - fold (in_slab center_x pb a).
    destruct (in_slab center_x pb a) eqn:Ea.
    + left. split; [lia|]. split; [done|]. intros j' Hj'. lia.
    + destruct (IH (S a)) as [(Hr & Hin & Hbefore)|(H0 & Hnone)].
      * left. split; [lia|]. split; [done|]. intros j' Hj'.
        destruct (decide (j' = a)) as [->|Hne]; [done|].
        apply Hbefore. lia.
      * right. split; [done|]. intros j' Hj'.
        destruct (decide (j' = a)) as [->|Hne]; [done|].
        apply Hnone. lia.
Qed.

Lemma length_flat_map_const {A B} (f : A -> list B) (l : list A) (n : nat) :
  (forall x, length (f x) = n) -> length (flat_map f l) = (n * length l)%nat.
Proof.
  intros Hf. induction l as [|x l IH]; simpl; [lia|].
  rewrite length_app, Hf, IH. lia.
Qed.







(** * Hulls *)

Section Hulls.
Import F32 F32Facts F32Order.

Lemma lower_bound_slots (b : list float) (k : nat) (v : float) :
  (k < length b)%nat ->
  length (lower_bound b k v) = length b /\
  lower_bound b k v !!! k = min_step (b !!! k) v /\
  forall i, i <> k -> lower_bound b k v !!! i = b !!! i.
Proof.
  intros Hk. unfold lower_bound, min_step.
  destruct (ltb v (b !!! k)).
  - rewrite length_insert. split; [done|]. split.
    + by rewrite list_lookup_total_insert_eq.
    + intros i Hi. by rewrite list_lookup_total_insert_ne.
  - auto.
Qed.

Lemma raise_bound_slots (b : list float) (k : nat) (v : float) :
  (k < length b)%nat ->
  length (raise_bound b k v) = length b /\
  raise_bound b k v !!! k = max_step (b !!! k) v /\
  forall i, i <> k -> raise_bound b k v !!! i = b !!! i.
Proof.
  intros Hk. unfold raise_bound, max_step.
  destruct (gtb v (b !!! k)).
  - rewrite length_insert. split; [done|]. split.
    + by rewrite list_lookup_total_insert_eq.
    + intros i Hi. by rewrite list_lookup_total_insert_ne.
  - auto.
Qed.

(** The six updates of [convex_hull_add_vertex]. *)
Lemma widen_slots (b : list float) (x y z : float) :
  length b = 6%nat ->
  let b' :=
    raise_bound
      (raise_bound
         (raise_bound
            (lower_bound (lower_bound (lower_bound b 0 x) 1 y) 2 z) 3 x)
         4 y) 5 z in
  length b' = 6%nat /\
  forall k, (k < 3)%nat ->
    b' !!! k = min_step (b !!! k) (point_coord (Point3d x y z) k) /\
    b' !!! (k + 3)%nat =
      max_step (b !!! (k + 3)%nat) (point_coord (Point3d x y z) k).
Proof.
  intros Hb.
  destruct (lower_bound_slots b 0 x) as (L1 & E1 & O1); [lia|].
  set (b1 := lower_bound b 0 x) in *.
  destruct (lower_bound_slots b1 1 y) as (L2 & E2 & O2); [lia|].
  set (b2 := lower_bound b1 1 y) in *.
  destruct (lower_bound_slots b2 2 z) as (L3 & E3 & O3); [lia|].
  set (b3 := lower_bound b2 2 z) in *.
  destruct (raise_bound_slots b3 3 x) as (L4 & E4 & O4); [lia|].
  set (b4 := raise_bound b3 3 x) in *.
  destruct (raise_bound_slots b4 4 y) as (L5 & E5 & O5); [lia|].
  set (b5 := raise_bound b4 4 y) in *.
  destruct (raise_bound_slots b5 5 z) as (L6 & E6 & O6); [lia|].
  set (b6 := raise_bound b5 5 z) in *.
  cbv zeta. split; [lia|].
  intros [|[|[|k]]] Hk; [| | |lia]; cbn [Nat.add point_coord px py pz].
  - rewrite O6, O5, O4, O3, O2, E1 by lia. split; [done|].
    by rewrite O6, O5, E4, O3, O2, O1 by lia.
  - rewrite O6, O5, O4, O3, E2, O1 by lia. split; [done|].
    by rewrite O6, E5, O4, O3, O2, O1 by lia.
  - rewrite O6, O5, O4, E3, O2, O1 by lia. split; [done|].
    by rewrite E6, O5, O4, O3, O2, O1 by lia.
Qed.

Lemma double_capacity_small (c : N) :
  (c < 2147483648)%N -> double_capacity c = (2 * c)%N.
Proof. intros Hc. unfold double_capacity. rewrite N.mod_small; lia. Qed.

Lemma add_vertex_spec hull x y z :
  hull_wf hull -> (N.of_nat (hull_num_vertices hull) < 2147483648)%N ->
  exists hull',
    convex_hull_add_vertex hull x y z = Returns hull' /\
    hull_wf hull' /\
    hull_points hull' = hull_points hull ++ [Point3d x y z] /\
    hull_num_vertices hull' = S (hull_num_vertices hull) /\
    ((hull_capacity hull' = hull_capacity hull /\
      (N.of_nat (hull_num_vertices hull) < hull_capacity hull)%N) \/
     (hull_capacity hull' = (2 * hull_capacity hull)%N /\
      N.of_nat (hull_num_vertices hull) = hull_capacity hull)) /\
    forall k, (k < 3)%nat ->
      hull_bounds hull' !!! k =
        min_step (hull_bounds hull !!! k)
          (point_coord (Point3d x y z) k) /\
      hull_bounds hull' !!! (k + 3)%nat =
        max_step (hull_bounds hull !!! (k + 3)%nat)
          (point_coord (Point3d x y z) k).
Proof.
  intros (l & Hl & Hlen & Hc1 & Hnc & Hb) Hsmall.
  destruct (widen_slots (hull_bounds hull) x y z Hb) as [Hb' Hslots].
  unfold convex_hull_add_vertex, grow, hull_points. rewrite Hl.
  destruct (N.leb_spec (hull_capacity hull)
              (N.of_nat (hull_num_vertices hull))) as [Hle|Hgt].
  - assert (N.of_nat (hull_num_vertices hull) = hull_capacity hull) as Heq
      by lia.
    rewrite double_capacity_small by lia.
    unfold realloc. destruct (N.eqb_spec (2 * hull_capacity hull) 0);
      [lia|]. cbn [default].
    destruct (N.ltb_spec (N.of_nat (hull_num_vertices hull))
                (2 * hull_capacity hull)); [|lia].
    eexists. split; [reflexivity|].
    rewrite <- Hlen, firstn_all. cbn [hull_vertices hull_num_vertices
      hull_capacity hull_bounds default].
    split; [|split; [done|split; [done|split; [right; split; lia|done]]]].
    exists (l ++ [Point3d x y z]).
    cbn [hull_vertices hull_num_vertices hull_capacity hull_bounds].
    rewrite length_app. cbn [length].
    split; [done|]. split; [lia|]. split; [lia|]. split; [lia|done].
  - destruct (N.ltb_spec (N.of_nat (hull_num_vertices hull))
                (hull_capacity hull)); [|lia].
    eexists. split; [reflexivity|].
    rewrite <- Hlen, firstn_all. cbn [hull_vertices hull_num_vertices
      hull_capacity hull_bounds default].
    split; [|split; [done|split; [done|split; [left; split; lia|done]]]].
    exists (l ++ [Point3d x y z]).
    cbn [hull_vertices hull_num_vertices hull_capacity hull_bounds].
    rewrite length_app. cbn [length].
    split; [done|]. split; [lia|]. split; [lia|]. split; [lia|done].
Qed.

Lemma convex_hull_create_wf (c : N) :
  (1 <= c)%N -> hull_wf (convex_hull_create c).
Proof.
  intros Hc. exists []. cbn. split; [done|]. split; [done|].
  split; [done|]. split; [lia|done].
Qed.

Lemma add_vertices_spec ps hull :
  hull_wf hull ->
  (N.of_nat (hull_num_vertices hull + length ps) <= 2147483648)%N ->
  exists hull',
    add_vertices hull ps = Returns hull' /\
    hull_wf hull' /\
    hull_points hull' = hull_points hull ++ ps /\
    hull_num_vertices hull' = (hull_num_vertices hull + length ps)%nat /\
    forall k, (k < 3)%nat ->
      hull_bounds hull' !!! k =
        foldl min_step (hull_bounds hull !!! k)
          (map (fun p => point_coord p k) ps) /\
      hull_bounds hull' !!! (k + 3)%nat =
        foldl max_step (hull_bounds hull !!! (k + 3)%nat)
          (map (fun p => point_coord p k) ps).
Proof.
  revert hull. induction ps as [|p ps IH]; intros hull Hwf Hn.
  - exists hull. cbn [add_vertices length map foldl].
    rewrite app_nil_r, Nat.add_0_r. repeat split; auto.
  - cbn [length] in Hn.
    destruct (add_vertex_spec hull (px p) (py p) (pz p) Hwf)
      as (h1 & E1 & W1 & P1 & N1 & _ & B1); [lia|].
    destruct (IH h1 W1) as (h2 & E2 & W2 & P2 & N2 & B2); [lia|].
    exists h2. cbn [add_vertices]. rewrite E1. cbn. rewrite E2.
    split; [done|]. split; [done|]. split.
    { rewrite P2, P1, <- app_assoc. by destruct p. }
    split; [cbn [length]; lia|].
    intros k Hk. destruct (B2 k Hk) as [-> ->], (B1 k Hk) as [-> ->].
    cbn [map foldl]. by destruct p.
Qed.

Lemma extremes_fold ps e :
  let e' := foldl extremes_step e ps in
  min_x e' = foldl min_step (min_x e) (map px ps) /\
  max_x e' = foldl max_step (max_x e) (map px ps) /\
  min_y e' = foldl min_step (min_y e) (map py ps) /\
  max_y e' = foldl max_step (max_y e) (map py ps) /\
  min_z e' = foldl min_step (min_z e) (map pz ps) /\
  max_z e' = foldl max_step (max_z e) (map pz ps).
Proof.
  revert e. induction ps as [|p ps IH]; intros e; [by cbn|].
  cbn [foldl map]. specialize (IH (extremes_step e p)). cbv zeta in *.
  exact IH.
Qed.

Lemma min_step_sentinel (m : float) :
  finite m = true -> min_step FLT_MAX m = m.
Proof.
  intros Hm. unfold min_step. destruct (ltb m FLT_MAX) eqn:E; [done|].
  symmetry. apply max_le_finite; [done|].
  apply not_ltb_leb; auto using finite_not_nan.
Qed.

Lemma max_step_sentinel (m : float) :
  finite m = true -> max_step (opp FLT_MAX) m = m.
Proof.
  intros Hm. unfold max_step, gtb. fold (ltb (opp FLT_MAX) m).
  destruct (ltb (opp FLT_MAX) m) eqn:E; [done|].
  symmetry. apply min_ge_finite; [done|].
  apply not_ltb_leb; auto using finite_not_nan.
Qed.

Lemma min_step_keep (m v : float) : leb m v = true -> min_step m v = m.
Proof.
  intros Hle. unfold min_step. destruct (ltb v m) eqn:E; [|done].
  exfalso. eauto using ltb_leb_False.
Qed.

Lemma max_step_keep (m v : float) : leb v m = true -> max_step m v = m.
Proof.
  intros Hle. unfold max_step, gtb. fold (ltb m v).
  destruct (ltb m v) eqn:E; [|done].
  exfalso. eauto using ltb_leb_False.
Qed.

(** The least and the greatest of a first value and a list of values. *)
Lemma running_extremes (a : float) (xs : list float) :
  finite a = true -> Forall (fun x => finite x = true) xs ->
  let lo := foldl min_step a xs in
  let hi := foldl max_step a xs in
  is_min lo (a :: xs) /\ is_max hi (a :: xs) /\ leb lo hi = true /\
  finite lo = true /\ finite hi = true.
Proof.
  intros Ha Hxs lo hi.
  assert (Forall (fun x => is_nan x = false) xs) as Hnan
    by (eapply Forall_impl; [exact Hxs|]; auto using finite_not_nan).
  destruct (foldl_min_step_spec xs a (finite_not_nan _ Ha) Hnan)
    as (Hin & Hle & Hall).
  destruct (foldl_max_step_spec xs a (finite_not_nan _ Ha) Hnan)
    as (Hin' & Hge & Hall').
  fold lo in Hin, Hle, Hall. fold hi in Hin', Hge, Hall'.
  assert (forall r, r = a \/ r ∈ xs -> r ∈ a :: xs /\ finite r = true)
    as Hmem.
  { intros r [->|Hr]; [split; [left|done]|].
    split; [by right|]. by eapply Forall_forall in Hxs. }
  destruct (Hmem lo Hin) as [? ?], (Hmem hi Hin') as [? ?].
  repeat split; try done.
  - intros x [->|Hx]%elem_of_cons; auto.
  - intros x [->|Hx]%elem_of_cons; auto.
  - eapply leb_trans; eauto.
Qed.

Lemma leb_ltb_trans (x y z : float) :
  leb x y = true -> ltb y z = true -> ltb x z = true.
Proof.
  intros (p & q & Hp & Hq & H1)%leb_rank (q' & r & Hq' & Hr & H2)%ltb_rank.
  simplify_eq. apply ltb_rank. exists p, r. split; [done|]. split; [done|].
  destruct p as [[a b] c], q as [[a' b'] c'], r as [[a'' b''] c''].
  unfold lex_le, lex_lt in *.
  destruct H1 as [H1|H1]; [lia|]. by simplify_eq.
Qed.

Lemma ltb_leb_trans (x y z : float) :
  ltb x y = true -> leb y z = true -> ltb x z = true.
Proof.
  intros (p & q & Hp & Hq & H1)%ltb_rank (q' & r & Hq' & Hr & H2)%leb_rank.
  simplify_eq. apply ltb_rank. exists p, r. split; [done|]. split; [done|].
  destruct p as [[a b] c], q as [[a' b'] c'], r as [[a'' b''] c''].
  unfold lex_le, lex_lt in *.
  destruct H2 as [H2|H2]; [lia|]. by simplify_eq.
Qed.

(** The running minimum and the running maximum of the same values are
    apart, or they are the same value. *)
Lemma running_apart (xs : list float) (lo hi : float) :
  is_nan lo = false -> is_nan hi = false ->
  Forall (fun x => is_nan x = false) xs ->
  ltb lo hi = true \/ lo = hi ->
  ltb (foldl min_step lo xs) (foldl max_step hi xs) = true \/
  foldl min_step lo xs = foldl max_step hi xs.
Proof.
  intros Hlo Hhi Hxs. revert lo hi Hlo Hhi.
  induction Hxs as [|v xs Hv _ IH]; intros lo hi Hlo Hhi H; [done|].
  cbn [foldl].
  apply IH; [by apply min_step_not_nan|by apply max_step_not_nan|].
  unfold min_step, max_step, gtb. fold (ltb hi v).
  destruct (ltb v lo) eqn:E1, (ltb hi v) eqn:E2.
  - left. eapply ltb_leb_trans; [exact E1|].
    destruct H as [H| ->]; [|by apply ltb_leb].
    eapply leb_trans; apply ltb_leb; eauto.
  - left. destruct H as [H| ->]; [|done].
    eauto using ltb_leb_trans, ltb_leb.
  - left. destruct H as [H| ->]; [|done].
    eauto using ltb_leb_trans, ltb_leb.
  - done.
Qed.

(** The box spanned by corners whose coordinates are the least and the
    greatest value: the fold of [convex_hull_add_vertex] over them. *)
Lemma corners_fold (lo hi : float) (vs : list float) :
  finite lo = true -> finite hi = true -> leb lo hi = true ->
  ltb lo hi = true \/ lo = hi ->
  Forall (fun v => v = lo \/ v = hi) vs -> hi ∈ vs ->
  foldl min_step FLT_MAX (lo :: vs) = lo /\
  foldl max_step (opp FLT_MAX) (lo :: vs) = hi.
Proof.
  intros Hlo Hhi Hle Hap Hvs Hin. cbn [foldl].
  rewrite min_step_sentinel, max_step_sentinel by done. split.
  - clear Hin. induction Hvs as [|v vs [-> | ->] _ IH]; [done| |];
      cbn [foldl]; rewrite min_step_keep; auto.
    apply leb_refl. by apply finite_not_nan.
  - destruct Hap as [Hlt| ->].
    + assert (forall vs, Forall (fun v => v = lo \/ v = hi) vs ->
                foldl max_step hi vs = hi) as Hstay.
      { clear -Hle Hhi. intros vs Hvs.
        induction Hvs as [|v vs [-> | ->] _ IH]; [done| |];
          cbn [foldl]; rewrite max_step_keep; auto.
        apply leb_refl. by apply finite_not_nan. }
      induction Hvs as [|v vs [-> | ->] Hvs IH]; cbn [foldl].
      * by apply elem_of_nil in Hin.
      * rewrite max_step_keep by (apply leb_refl; by apply finite_not_nan).
        apply IH. by apply elem_of_cons in Hin as [Hin|Hin];
          [exfalso; subst; eapply ltb_leb_False;
           [exact Hlt|apply leb_refl; by apply finite_not_nan]|].
      * unfold max_step at 2, gtb. fold (ltb lo hi). rewrite Hlt.
        by apply Hstay.
    + clear Hin. induction Hvs as [|v vs [-> | ->] _ IH]; [done| |];
        cbn [foldl]; rewrite max_step_keep; auto.
Qed.

Lemma list_of_six (b : list float) :
  length b = 6%nat ->
  b = [b !!! 0%nat; b !!! 1%nat; b !!! 2%nat; b !!! 3%nat; b !!! 4%nat;
       b !!! 5%nat].
Proof. by destruct b as [|? [|? [|? [|? [|? [|? [|]]]]]]]. Qed.
End Hulls.

(** X13. Adding a vertex to a hull that has a capacity of at least one and
    fewer than [2^31] vertices stores the vertex after the ones already
    there, doubles the capacity when the array is full (and only then), and
    widens the box just enough to hold the vertex. *)
Theorem convex_hull_add_vertex_appends hull x y z :
  hull_wf hull -> (N.of_nat (hull_num_vertices hull) < 2147483648)%N ->
  exists hull',
    convex_hull_add_vertex hull x y z = Returns hull' /\
    hull_wf hull' /\
    hull_points hull' = hull_points hull ++ [Point3d x y z] /\
    hull_num_vertices hull' = S (hull_num_vertices hull) /\
    ((hull_capacity hull' = hull_capacity hull /\
      (N.of_nat (hull_num_vertices hull) < hull_capacity hull)%N) \/
     (hull_capacity hull' = (2 * hull_capacity hull)%N /\
      N.of_nat (hull_num_vertices hull) = hull_capacity hull)) /\
    forall k, (k < 3)%nat ->
      hull_bounds hull' !!! k =
        min_step (hull_bounds hull !!! k) (point_coord (Point3d x y z) k) /\
      hull_bounds hull' !!! (k + 3)%nat =
        max_step (hull_bounds hull !!! (k + 3)%nat)
          (point_coord (Point3d x y z) k).
Proof. apply add_vertex_spec. Qed.

Lemma convex_hull_add_vertex_appends_witness :
  exists hull',
    convex_hull_add_vertex (convex_hull_create 1) (fl 1) (fl 2) (fl 3)
      = Returns hull' /\
    hull_wf hull' /\
    hull_points hull' =
      hull_points (convex_hull_create 1) ++ [Point3d (fl 1) (fl 2) (fl 3)] /\
    hull_num_vertices hull' = 1%nat.
Proof.
  destruct (convex_hull_add_vertex_appends (convex_hull_create 1) (fl 1)
              (fl 2) (fl 3)) as (hull' & H1 & H2 & H3 & H4 & _).
  - apply convex_hull_create_wf. lia.
  - cbn. lia.
  - exists hull'. auto.
Defined.

Section HullOfPoints.
Import F32 F32Facts F32Order.

Lemma point_coords_finite points k :
  Forall point_finite points ->
  Forall (fun x => finite x = true) (map (fun p => point_coord p k) points).
Proof.
  intros H. apply Forall_fmap. eapply Forall_impl; [exact H|].
  intros p Hp. apply Hp.
Qed.

(** Least and greatest coordinate [k] as the loop "find extreme points"
    computes them. *)
Lemma extremes_axis p0 rest k :
  Forall point_finite (p0 :: rest) ->
  let cs := map (fun p => point_coord p k) in
  let lo := foldl min_step (point_coord p0 k) (cs rest) in
  let hi := foldl max_step (point_coord p0 k) (cs rest) in
  is_min lo (cs (p0 :: rest)) /\ is_max hi (cs (p0 :: rest)) /\
  leb lo hi = true /\ finite lo = true /\ finite hi = true /\
  (ltb lo hi = true \/ lo = hi).
Proof.
  intros Hfin cs lo hi.
  pose proof (point_coords_finite _ k Hfin) as Hall.
  cbn [map] in Hall. apply Forall_cons in Hall as [Ha Hxs].
  destruct (running_extremes _ _ Ha Hxs) as (H1 & H2 & H3 & H4 & H5).
  repeat split; try done; try apply H1; try apply H2.
  apply running_apart; auto using finite_not_nan.
  eapply Forall_impl; [exact Hxs|]. auto using finite_not_nan.
Qed.

Lemma compute_convex_hull_3d_spec points algorithm :
  Forall point_finite points -> (4 <= length points)%nat ->
  exists hull,
    compute_convex_hull_3d points algorithm = Returns (Some hull) /\
    hull_num_vertices hull = 8%nat /\
    length (hull_bounds hull) = 6%nat /\
    hull_points hull = box_corners (hull_bounds hull) /\
    forall k, (k < 3)%nat ->
      is_min (hull_bounds hull !!! k)
        (map (fun p => point_coord p k) points) /\
      is_max (hull_bounds hull !!! (k + 3)%nat)
        (map (fun p => point_coord p k) points).
Proof.
  intros Hfin Hlen. destruct points as [|p0 rest]; [simpl in Hlen; lia|].
  unfold compute_convex_hull_3d.
  destruct (Nat.ltb_spec (length (p0 :: rest)) 4) as [|_]; [lia|].
  set (e := foldl extremes_step _ rest).
  destruct (extremes_fold rest
              (Extremes (px p0) (px p0) (py p0) (py p0) (pz p0) (pz p0)))
    as (Ex & EX & Ey & EY & Ez & EZ).
  fold e in Ex, EX, Ey, EY, Ez, EZ. cbn [min_x max_x min_y max_y min_z max_z]
    in Ex, EX, Ey, EY, Ez, EZ.
  destruct (extremes_axis p0 rest 0 Hfin) as (Mx & MX & Lx & Fx & FX & Ax).
  destruct (extremes_axis p0 rest 1 Hfin) as (My & MY & Ly & Fy & FY & Ay).
  destruct (extremes_axis p0 rest 2 Hfin) as (Mz & MZ & Lz & Fz & FZ & Az).
  cbv zeta in *. cbn [point_coord] in *.
  change (map (fun p => px p) rest) with (map px rest) in *.
  change (map (fun p => py p) rest) with (map py rest) in *.
  change (map (fun p => pz p) rest) with (map pz rest) in *.
  rewrite <- Ex in Mx, Lx, Fx, Ax. rewrite <- EX in MX, Lx, FX, Ax.
  rewrite <- Ey in My, Ly, Fy, Ay. rewrite <- EY in MY, Ly, FY, Ay.
  rewrite <- Ez in Mz, Lz, Fz, Az. rewrite <- EZ in MZ, Lz, FZ, Az.
  clearbody e. clear Ex EX Ey EY Ez EZ.
  set (cs := [Point3d (min_x e) (min_y e) (min_z e);
              Point3d (max_x e) (min_y e) (min_z e);
              Point3d (max_x e) (max_y e) (min_z e);
              Point3d (min_x e) (max_y e) (min_z e);
              Point3d (min_x e) (min_y e) (max_z e);
              Point3d (max_x e) (min_y e) (max_z e);
              Point3d (max_x e) (max_y e) (max_z e);
              Point3d (min_x e) (max_y e) (max_z e)]).
  set (hull0 := convex_hull_create (N.of_nat (length (p0 :: rest)))).
  destruct (add_vertices_spec cs hull0) as (hull & E & W & P & N8 & B).
  { apply convex_hull_create_wf. lia. }
  { cbn. lia. }
  exists hull. split.
  { revert E. unfold cs. cbn [add_vertices px py pz].
    unfold mbind, checked_bind.
    repeat match goal with
           | |- context [convex_hull_add_vertex ?h ?x ?y ?z] =>
               destruct (convex_hull_add_vertex h x y z); [|done]
           end.
    by intros [= ->]. }
  split; [exact N8|].
  destruct W as (l & _ & _ & _ & _ & L6). split; [exact L6|].
  assert (hull_bounds hull =
          [min_x e; min_y e; min_z e; max_x e; max_y e; max_z e]) as Hb.
  { rewrite (list_of_six _ L6).
    destruct (B 0%nat ltac:(lia)) as [B0 B3], (B 1%nat ltac:(lia)) as [B1 B4],
      (B 2%nat ltac:(lia)) as [B2 B5].
    cbn [Nat.add] in B3, B4, B5. rewrite B0, B1, B2, B3, B4, B5.
    cbn [Nat.add hull0 convex_hull_create hull_bounds bounds_sentinel
         list_lookup_total lookup_total list_lookup_total].
    unfold cs. cbn [map point_coord px py pz].
    change (bounds_sentinel !!! 0%nat) with FLT_MAX.
    change (bounds_sentinel !!! 1%nat) with FLT_MAX.
    change (bounds_sentinel !!! 2%nat) with FLT_MAX.
    change (bounds_sentinel !!! 3%nat) with (opp FLT_MAX).
    change (bounds_sentinel !!! 4%nat) with (opp FLT_MAX).
    change (bounds_sentinel !!! 5%nat) with (opp FLT_MAX).
    destruct (corners_fold (min_x e) (max_x e)
                [max_x e; max_x e; min_x e; min_x e; max_x e; max_x e;
                 min_x e] Fx FX Lx Ax) as [-> ->];
      [corner_values|left|].
    destruct (corners_fold (min_y e) (max_y e)
                [min_y e; max_y e; max_y e; min_y e; min_y e; max_y e;
                 max_y e] Fy FY Ly Ay) as [-> ->];
      [corner_values|right; left|].
    destruct (corners_fold (min_z e) (max_z e)
                [min_z e; min_z e; min_z e; max_z e; max_z e; max_z e;
                 max_z e] Fz FZ Lz Az) as [-> ->];
      [corner_values|do 3 right; left|].
    reflexivity. }
  split.
  { rewrite P, Hb. reflexivity. }
  rewrite Hb. intros [|[|[|k]]] Hk; [| | |lia]; cbn; auto.
Qed.
End HullOfPoints.


Lemma tetra_points_finite : Forall point_finite tetra_points.
Proof.
  repeat (apply List.Forall_cons; [by intros [|[|[|k]]]|]).
  apply List.Forall_nil.
Qed.




(** * Parts in the store *)

Section PartArrays.
Variable uninit_bounds : nat -> list float.

(** Storing one more index, with growth of the array when it is full. *)
Lemma add_triangle_spec a i h part l :
  blocks h !! a = Some part -> triangle_indices part = Some l ->
  (1 <= capacity part)%N -> (N.of_nat (length l) <= capacity part)%N ->
  (N.of_nat (length l) < 2147483648)%N ->
  exists cap,
    convex_part_add_triangle a i h =
    Done tt (Heap (<[a := ConvexPart (hull part) (Some (l ++ [i])) cap
                          (center part) (volume part)]> (blocks h))
               (next_block h)) /\
    (N.of_nat (length l) + 1 <= cap)%N /\
    ((cap = capacity part /\ (N.of_nat (length l) < capacity part)%N) \/
     (cap = (2 * capacity part)%N /\
      N.of_nat (length l) = capacity part)).
Proof.
  intros Ha Hl Hc1 Hle Hsmall.
  destruct (N.eq_dec (N.of_nat (length l)) (capacity part)) as [Heq|Hne].
  - exists (2 * capacity part)%N. unfold convex_part_add_triangle.
    rewrite (bind_Done _ _ _ _ _ (load_Some _ _ _ Ha)).
    unfold grow, part_num_triangles. rewrite Hl.
    destruct (N.leb_spec (capacity part) (N.of_nat (length l))); [|lia].
    rewrite double_capacity_small by lia.
    unfold realloc. destruct (N.eqb_spec (2 * capacity part) 0); [lia|].
    cbn [default].
    destruct (N.ltb_spec (N.of_nat (length l)) (2 * capacity part)); [|lia].
    erewrite store_Some by done. split; [done|]. split; [lia|].
    right. split; [done|lia].
  - exists (capacity part). rewrite (add_triangle_fits a i h part l) by
      (done || lia).
    split; [done|]. split; [lia|]. left. split; [done|lia].
Qed.

(** A loop of [convex_part_add_triangle] on one part. *)
Lemma fill_grow_spec a l2 : forall h part l,
  blocks h !! a = Some part -> triangle_indices part = Some l ->
  (1 <= capacity part)%N -> (N.of_nat (length l) <= capacity part)%N ->
  (N.of_nat (length l + length l2) <= 2147483648)%N ->
  exists cap,
    for_each (convex_part_add_triangle a) l2 h =
    Done tt (Heap (<[a := ConvexPart (hull part) (Some (l ++ l2)) cap
                          (center part) (volume part)]> (blocks h))
               (next_block h)) /\
    (1 <= cap)%N /\ (N.of_nat (length (l ++ l2)) <= cap)%N.
Proof.
  unfold for_each. induction l2 as [|i l2 IH];
    intros h part l Ha Hl Hc1 Hle Hsmall; cbn [foldM].
  - exists (capacity part). rewrite app_nil_r, <- Hl.
    split; [|split; [done|done]].
    rewrite insert_id; [by rewrite heap_eta|]. by destruct part.
  - cbn [length] in Hsmall.
    destruct (add_triangle_spec a i h part l Ha Hl Hc1 Hle)
      as (cap1 & E1 & Hcap1 & Hcase); [lia|].
    erewrite bind_Done by exact E1.
    set (p1 := ConvexPart (hull part) (Some (l ++ [i])) cap1 (center part)
                 (volume part)) in *.
    destruct (IH (Heap (<[a := p1]> (blocks h)) (next_block h)) p1
                (l ++ [i])) as (cap & E & Hc & Hlen);
      cbn [p1 capacity blocks next_block hull center volume
           triangle_indices] in *.
    + apply lookup_insert_eq.
    + reflexivity.
    + lia.
    + rewrite length_app. cbn [length]. lia.
    + rewrite length_app. cbn [length]. lia.
    + exists cap. rewrite E, insert_insert_eq.
      rewrite <- app_assoc in Hlen |- *. cbn [app] in *. auto.
Qed.

(** The loop "distribute triangles": the left part receives the indices
    whose centre lies below the split value, the right part the others,
    both in the order of the source. *)
Lemma distribute_spec stl axis value al ar idxs : forall h L R accL accR,
  al <> ar ->
  blocks h !! al = Some L -> triangle_indices L = Some accL ->
  (1 <= capacity L)%N -> (N.of_nat (length accL) <= capacity L)%N ->
  blocks h !! ar = Some R -> triangle_indices R = Some accR ->
  (1 <= capacity R)%N -> (N.of_nat (length accR) <= capacity R)%N ->
  (N.of_nat (length accL + length idxs) <= 2147483648)%N ->
  (N.of_nat (length accR + length idxs) <= 2147483648)%N ->
  exists capL capR,
    distribute stl idxs axis value al ar h =
    Done tt
      (Heap
         (<[ar := ConvexPart (hull R)
                    (Some (accR ++
                           filter (fun i => left_of stl axis value i = false)
                             idxs))
                    capR (center R) (volume R)]>
            (<[al := ConvexPart (hull L)
                       (Some (accL ++
                              filter
                                (fun i => left_of stl axis value i = true)
                                idxs))
                       capL (center L) (volume L)]> (blocks h)))
         (next_block h)) /\
    (1 <= capL)%N /\ (1 <= capR)%N.
Proof.
  unfold distribute, for_each. induction idxs as [|i idxs IH];
    intros h L R accL accR Hne HL HaccL HcL HlL HR HaccR HcR HlR HsL HsR;
    cbn [foldM].
  - exists (capacity L), (capacity R). rewrite !filter_nil, !app_nil_r.
    split; [|done]. rewrite <- HaccL, <- HaccR.
    rewrite (insert_id (blocks h) al) by (by destruct L).
    rewrite insert_id by (by destruct R). by rewrite heap_eta.
  - cbn [length] in HsL, HsR. rewrite !filter_cons.
    fold (left_of stl axis value i).
    destruct (left_of stl axis value i) eqn:Ei.
    + destruct (add_triangle_spec al i h L accL HL HaccL HcL HlL)
        as (cap1 & E1 & Hcap1 & _); [lia|].
      erewrite bind_Done by exact E1.
      destruct (decide (true = true)) as [_|?]; [|done].
      destruct (decide (true = false)) as [?|_]; [done|].
      set (p1 := ConvexPart (hull L) (Some (accL ++ [i])) cap1 (center L)
                   (volume L)) in *.
      destruct (IH (Heap (<[al := p1]> (blocks h)) (next_block h)) p1 R
                  (accL ++ [i]) accR Hne)
        as (capL & capR & E & HL' & HR');
        cbn [p1 capacity blocks next_block hull center volume
             triangle_indices] in *.
      * apply lookup_insert_eq.
      * reflexivity.
      * lia.
      * rewrite length_app. cbn [length]. lia.
      * by rewrite lookup_insert_ne.
      * done.
      * done.
      * done.
      * rewrite length_app. cbn [length]. lia.
      * lia.
      * exists capL, capR. rewrite E, insert_insert_eq, <- app_assoc. done.
    + destruct (add_triangle_spec ar i h R accR HR HaccR HcR HlR)
        as (cap1 & E1 & Hcap1 & _); [lia|].
      erewrite bind_Done by exact E1.
      destruct (decide (false = true)) as [?|_]; [done|].
      destruct (decide (false = false)) as [_|?]; [|done].
      set (p1 := ConvexPart (hull R) (Some (accR ++ [i])) cap1 (center R)
                   (volume R)) in *.
      destruct (IH (Heap (<[ar := p1]> (blocks h)) (next_block h)) L p1
                  accL (accR ++ [i]) Hne)
        as (capL & capR & E & HL' & HR');
        cbn [p1 capacity blocks next_block hull center volume
             triangle_indices] in *.
      * by rewrite lookup_insert_ne.
      * done.
      * done.
      * done.
      * apply lookup_insert_eq.
      * reflexivity.
      * lia.
      * rewrite length_app. cbn [length]. lia.
      * lia.
      * rewrite length_app. cbn [length]. lia.
      * exists capL, capR. rewrite E.
        rewrite (insert_insert_ne (blocks h) al ar) by done.
        rewrite insert_insert_eq, <- app_assoc. done.
Qed.
End PartArrays.

(** X16. [convex_part_add_triangle] on a part with a capacity of at least one
    and fewer than [2^31] indices stores the index after the ones already
    there; it doubles the capacity when the array is full, and only then;
    it changes nothing else in the part and no other block. *)
Theorem convex_part_add_triangle_appends a i h part l :
  blocks h !! a = Some part -> triangle_indices part = Some l ->
  (1 <= capacity part)%N -> (N.of_nat (length l) <= capacity part)%N ->
  (N.of_nat (length l) < 2147483648)%N ->
  exists h' part',
    convex_part_add_triangle a i h = Done tt h' /\
    blocks h' !! a = Some part' /\
    triangle_indices part' = Some (l ++ [i]) /\
    part_wf part' /\
    ((capacity part' = capacity part /\
      (N.of_nat (length l) < capacity part)%N) \/
     (capacity part' = (2 * capacity part)%N /\
      N.of_nat (length l) = capacity part)) /\
    hull part' = hull part /\ center part' = center part /\
    volume part' = volume part /\
    next_block h' = next_block h /\
    forall b, b <> a -> blocks h' !! b = blocks h !! b.
Proof.
  intros Ha Hl Hc1 Hle Hsmall.
  destruct (add_triangle_spec a i h part l Ha Hl Hc1 Hle Hsmall)
    as (cap & E & Hcap & Hcase).
  eexists _, _. split; [exact E|]. cbn [blocks next_block].
  split; [apply lookup_insert_eq|].
  cbn [triangle_indices capacity hull center volume].
  split; [done|]. split.
  { exists (l ++ [i]). cbn [triangle_indices capacity].
    rewrite length_app. cbn [length]. split; [done|]. split; lia. }
  split; [exact Hcase|]. do 4 (split; [done|]).
  intros b Hb. by rewrite lookup_insert_ne.
Qed.

Lemma convex_part_add_triangle_appends_witness :
  exists h' part',
    convex_part_add_triangle 0%nat 7%nat
      (Heap {[0%nat := fresh_part zero_bounds 0%nat 1]} 1) = Done tt h' /\
    blocks h' !! 0%nat = Some part' /\
    triangle_indices part' = Some ([] ++ [7%nat]) /\
    part_wf part'.
Proof.
  destruct (convex_part_add_triangle_appends 0%nat 7%nat
              (Heap {[0%nat := fresh_part zero_bounds 0%nat 1]} 1)
              (fresh_part zero_bounds 0%nat 1) [])
    as (h' & part' & H1 & H2 & H3 & H4 & _).
  - reflexivity.
  - reflexivity.
  - cbn. lia.
  - cbn. lia.
  - cbn. lia.
  - exists h', part'. auto.
Defined.

(** X17. A part created with a capacity of zero never holds a triangle: the
    first [convex_part_add_triangle] doubles zero to zero, has the array
    reallocated to size zero, which frees it, and returns with the array
    [NULL] and nothing stored; the next call obtains an empty block and
    writes past its end. *)
Theorem convex_part_add_triangle_zero_capacity a i j h part :
  blocks h !! a = Some part -> triangle_indices part = Some [] ->
  capacity part = 0%N ->
  exists h',
    convex_part_add_triangle a i h = Done tt h' /\
    part_triangles h' a = [] /\
    (exists part', blocks h' !! a = Some part' /\
                   triangle_indices part' = None) /\
    convex_part_add_triangle a j h' = Undefined WriteOutOfBounds.
Proof.
  intros Ha Hl Hc. destruct part as [hl idxs cap ctr vol].
  cbn [triangle_indices capacity] in Hl, Hc. subst idxs cap.
  unfold convex_part_add_triangle at 1.
  rewrite (bind_Done _ _ _ _ _ (load_Some _ _ _ Ha)).
  cbn [part_num_triangles triangle_indices capacity length hull center
       volume].
  assert (@grow nat (Some []) 0 0 = (0%N, None)) as -> by reflexivity.
  change (0 <=? N.of_nat 0)%N with true. cbv iota.
  erewrite store_Some by done.
  eexists. split; [reflexivity|]. unfold part_triangles. cbn [blocks].
  rewrite lookup_insert_eq. split; [done|]. split; [eauto|].
  unfold convex_part_add_triangle.
  erewrite bind_Done
    by (apply load_Some; cbn [blocks]; apply lookup_insert_eq).
  reflexivity.
Qed.

Lemma convex_part_add_triangle_zero_capacity_witness :
  exists h',
    convex_part_add_triangle 0%nat 7%nat
      (Heap {[0%nat := fresh_part zero_bounds 0%nat 0]} 1) = Done tt h' /\
    part_triangles h' 0%nat = [] /\
    (exists part', blocks h' !! 0%nat = Some part' /\
                   triangle_indices part' = None) /\
    convex_part_add_triangle 0%nat 8%nat h' = Undefined WriteOutOfBounds.
Proof.
  apply (convex_part_add_triangle_zero_capacity 0%nat 7%nat 8%nat
           (Heap {[0%nat := fresh_part zero_bounds 0%nat 0]} 1)
           (fresh_part zero_bounds 0%nat 0)); reflexivity.
Defined.

Section Concavity.
Import F32 F32Order.

Lemma part_concavity_clamped (p : convex_part_t) :
  is_nan (part_concavity p) = true \/
  (leb zero (part_concavity p) = true /\
   leb (part_concavity p) one = true).
Proof.
  unfold part_concavity.
  destruct (part_num_triangles p =? 0)%nat; [by right|].
  destruct (leb (compute_volume (hull p)) zero); [by right|].
  set (c := div _ _). destruct (is_nan c) eqn:Hnan.
  - left. destruct c; try discriminate. reflexivity.
  - right. destruct (ltb c zero) eqn:E0.
    + by vm_compute.
    + unfold gtb. fold (ltb one c). destruct (ltb one c) eqn:E1.
      * by vm_compute.
      * split; apply not_ltb_leb; auto.
Qed.
End Concavity.

(** X18. The concavity of a live part is computed without touching the store,
    and it is a number between 0 and 1 or it is a NaN: the two clamps let
    a NaN through. *)
Theorem compute_part_concavity_range a stl h part :
  blocks h !! a = Some part ->
  exists c,
    compute_part_concavity a stl h = Done c h /\
    (F32.is_nan c = true \/
     (F32.leb F32.zero c = true /\ F32.leb c F32.one = true)).
Proof.
  intros Ha. exists (part_concavity part). split.
  - unfold compute_part_concavity.
    by rewrite (bind_Done _ _ _ _ _ (load_Some _ _ _ Ha)).
  - apply part_concavity_clamped.
Qed.

Lemma compute_part_concavity_range_witness :
  exists c,
    compute_part_concavity 0%nat cube_mesh (Heap {[0%nat := huge_hull_part]} 1)
      = Done c (Heap {[0%nat := huge_hull_part]} 1) /\
    (F32.is_nan c = true \/
     (F32.leb F32.zero c = true /\ F32.leb c F32.one = true)) /\
    F32.is_nan c = true.
Proof.
  destruct (compute_part_concavity_range 0%nat cube_mesh
              (Heap {[0%nat := huge_hull_part]} 1) huge_hull_part)
    as (c & E & Hc); [reflexivity|].
  exists c. split; [exact E|]. split; [exact Hc|].
  assert (Done c (Heap {[0%nat := huge_hull_part]} 1) =
          Done S754_nan (Heap {[0%nat := huge_hull_part]} 1)) as [= ->]
    by (rewrite <- E; vm_compute; reflexivity).
  reflexivity.
Defined.

(** * The hierarchical strategy: what it returns *)

Lemma grows_by_refl T h : heap_wf h -> grows_by T h [] h.
Proof.
  intros Hwf. split; [done|]. split; [done|]. split.
  - intros a Ha. split; [intros Hl%Hwf; lia|by intros ?%elem_of_nil].
  - split; constructor.
Qed.

Lemma grows_by_wf T h new h' : heap_wf h -> grows_by T h new h' -> heap_wf h'.
Proof.
  intros Hwf (Hn & Ho & Hnew & Hr & _) a Ha.
  destruct (decide (a < next_block h)%nat) as [Hlt|Hge]; [lia|].
  apply Hnew in Ha; [|lia]. rewrite Forall_forall in Hr.
  specialize (Hr a Ha). lia.
Qed.

Lemma grows_by_trans T h1 n1 h2 n2 h3 :
  (forall a, T a -> (a < next_block h1)%nat) ->
  grows_by T h1 n1 h2 -> grows_by T h2 n2 h3 -> grows_by T h1 (n1 ++ n2) h3.
Proof.
  intros HT (Hn1 & Ho1 & Hnew1 & Hr1 & Hd1) (Hn2 & Ho2 & Hnew2 & Hr2 & Hd2).
  rewrite Forall_forall in Hr1, Hr2.
  split; [lia|]. split; [|split; [|split]].
  - intros a Ha HTa. rewrite Ho2, Ho1; auto. lia.
  - intros a Ha. rewrite elem_of_app.
    destruct (decide (a < next_block h2)%nat) as [Hlt|Hge].
    + assert (~ T a) as HTa by (intros ?%HT; lia).
      rewrite Ho2, Hnew1 by done. split; [auto|].
      intros [?|Hin]; [done|]. apply Hr2 in Hin. lia.
    + rewrite Hnew2 by lia. split; [auto|].
      intros [Hin|?]; [|done]. apply Hr1 in Hin. lia.
  - apply Forall_app. split; apply Forall_forall; intros a Ha.
    + apply Hr1 in Ha. lia.
    + apply Hr2 in Ha. lia.
  - apply NoDup_app. split; [done|]. split; [|done].
    intros a Ha1 Ha2. apply Hr1 in Ha1. apply Hr2 in Ha2. lia.
Qed.

Lemma heap_wf_insert a part h :
  heap_wf h -> (a < next_block h)%nat ->
  heap_wf (Heap (<[a := part]> (blocks h)) (next_block h)).
Proof.
  intros Hwf Ha b. cbn [blocks next_block].
  destruct (decide (b = a)) as [->|Hne]; [done|].
  rewrite lookup_insert_ne by done. apply Hwf.
Qed.

Lemma filter_left_of_partition stl axis value (l : list nat) :
  filter (fun i => left_of stl axis value i = true) l ++
  filter (fun i => left_of stl axis value i = false) l ≡ₚ l.
Proof.
  induction l as [|i l IH]; [done|]. rewrite !filter_cons.
  destruct (left_of stl axis value i).
  - destruct (decide (true = true)) as [_|?]; [|done].
    destruct (decide (true = false)) as [?|_]; [done|].
    cbn. by rewrite IH.
  - destruct (decide (false = true)) as [?|_]; [done|].
    destruct (decide (false = false)) as [_|?]; [|done].
    rewrite <- Permutation_middle. by rewrite IH.
Qed.

Lemma length_filter_le {A} (P : A -> Prop) `{forall x, Decision (P x)}
    (l : list A) :
  (length (filter P l) <= length l)%nat.
Proof. apply length_filter. Qed.

Lemma pow2_pos (n : nat) : (1 <= 2 ^ n)%nat.
Proof. induction n; simpl; lia. Qed.

(** Adding a part when the array has room. *)
Lemma add_part_spec d a h ps part :
  parts d = Some ps -> (N.of_nat (length ps) < decomp_capacity d)%N ->
  blocks h !! a = Some part ->
  convex_decomposition_add_part d a h =
  Done (ConvexDecomposition (Some (ps ++ [a])) (decomp_capacity d)
          (strategy d) (F32.add (total_volume d) (volume part))
          (decomposition_quality d)) h.
Proof.
  intros Hps Hcap Ha. unfold convex_decomposition_add_part, grow, num_parts.
  rewrite Hps.
  destruct (N.leb_spec (decomp_capacity d) (N.of_nat (length ps))); [lia|].
  destruct (N.ltb_spec (N.of_nat (length ps)) (decomp_capacity d)); [|lia].
  by rewrite (bind_Done _ _ _ _ _ (load_Some _ _ _ Ha)).
Qed.

(** The score of a decomposition whose parts are all live. *)
Lemma quality_spec d h :
  Forall (fun a => is_Some (blocks h !! a)) (default [] (parts d)) ->
  exists q, compute_decomposition_quality d h = Done q h.
Proof.
  unfold compute_decomposition_quality.
  destruct (parts d) as [[|a ps]|]; cbn [default]; [by eexists..| |by eexists].
  intros Hlive.
  assert (forall l v0, Forall (fun a => is_Some (blocks h !! a)) l ->
            exists v,
              foldM (fun variance part =>
                       p ← load part;
                       let diff :=
                         F32.sub (volume p)
                           (F32.div (total_volume d)
                              (F32.of_nat (length (a :: ps)))) in
                       mret (F32.add variance (F32.mul diff diff)))
                v0 l h = Done v h) as Hloop.
  { induction l as [|b l IH]; intros v0 Hl; cbn [foldM]; [by eexists|].
    apply Forall_cons in Hl as [[p Hp] Hl].
    erewrite bind_Done.
    2:{ erewrite bind_Done by (apply load_Some, Hp). reflexivity. }
    by apply IH. }
  destruct (Hloop (a :: ps) F32.zero Hlive) as [v Ev].
  erewrite bind_Done by exact Ev. by eexists.
Qed.

Section HierarchicalSpec.
Variable uninit_bounds : nat -> list float.
Variable stl : stl_file_t.
Variable thr : float.

Lemma create_spec c h :
  convex_part_create uninit_bounds c h =
  Done (next_block h)
    (Heap (<[next_block h := fresh_part uninit_bounds (next_block h) c]>
             (blocks h)) (S (next_block h))).
Proof. reflexivity. Qed.

Lemma length_indices_of p : length (indices_of p) = part_num_triangles p.
Proof. unfold indices_of, part_num_triangles. by destruct (triangle_indices p). Qed.

Lemma grows_by_alloc h part :
  heap_wf h ->
  grows_by (fun _ => False) h [next_block h]
    (Heap (<[next_block h := part]> (blocks h)) (S (next_block h))).
Proof.
  intros Hwf. split; [cbn; lia|]. cbn [blocks next_block]. split; [|split].
  - intros a Ha _. apply lookup_insert_ne. lia.
  - intros a Ha. rewrite list_elem_of_singleton.
    destruct (decide (a = next_block h)) as [->|Hne].
    + rewrite lookup_insert_eq. split; eauto.
    + rewrite lookup_insert_ne by done. split; [|done].
      intros Hl%Hwf. lia.
  - split; [|apply NoDup_singleton]. constructor; [lia|constructor].
Qed.

(** The first branch of [hierarchical_split_part]. *)
Lemma add_copy_spec p d ps h :
  heap_wf h -> parts d = Some ps ->
  (N.of_nat (length ps) < decomp_capacity d)%N ->
  indices_of p <> [] ->
  exists d' h',
    add_copy_of_part uninit_bounds p stl d h = Done d' h' /\
    split_result (fun _ => False) h d (indices_of p) 1 h' d'.
Proof.
  intros Hwf Hps Hcap Hne. unfold add_copy_of_part.
  rewrite (bind_Done _ _ _ _ _ (create_spec _ h)).
  set (b := next_block h).
  set (p1 := fresh_part uninit_bounds b (N.of_nat (part_num_triangles p))).
  erewrite bind_Done.
  2:{ apply (fill_loop b (indices_of p) [] _ p1).
      - apply lookup_insert_eq.
      - reflexivity.
      - cbn [length p1 fresh_part capacity Nat.add].
        rewrite length_indices_of. lia. }
  cbn [blocks next_block app]. rewrite insert_insert_eq.
  match goal with
  | |- context [(_ ≫= _) ?hh] =>
      destruct (compute_properties_Some b stl hh _ (lookup_insert_eq _ _ _))
        as (c & v & Ec)
  end.
  erewrite bind_Done by exact Ec.
  cbn [blocks next_block hull triangle_indices capacity].
  rewrite insert_insert_eq.
  erewrite add_part_spec; [|exact Hps|exact Hcap|apply lookup_insert_eq].
  eexists _, _. split; [reflexivity|].
  exists ps, [b]. cbn [parts decomp_capacity strategy].
  split; [done|]. split; [done|]. split; [done|]. split; [done|].
  split; [by apply grows_by_alloc|].
  split; [|split].
  - rewrite bind_cons. cbn [mbind list_bind]. rewrite app_nil_r.
    unfold part_triangles.
    cbn [blocks]. by rewrite lookup_insert_eq.
  - constructor; [|constructor]. unfold part_triangles.
    cbn [blocks]. by rewrite lookup_insert_eq.
  - cbn [length]. lia.
Qed.
End HierarchicalSpec.

Lemma heap_wf_alloc part h :
  heap_wf h ->
  heap_wf (Heap (<[next_block h := part]> (blocks h)) (S (next_block h))).
Proof.
  intros Hwf b. cbn [blocks next_block].
  destruct (decide (b = next_block h)) as [->|Hne]; [lia|].
  rewrite lookup_insert_ne by done. intros Hb%Hwf. lia.
Qed.

Lemma grows_by_mono (T T' : nat -> Prop) h new h' :
  (forall a, T a -> T' a) -> grows_by T h new h' -> grows_by T' h new h'.
Proof. intros HT (Hn & Ho & Hrest). split; [done|]. split; [auto|done]. Qed.

Lemma split_result_bound T h d l b b' h' d' :
  (b <= b')%nat -> split_result T h d l b h' d' -> split_result T h d l b' h' d'.
Proof.
  intros Hb (ps & new & H1 & H2 & H3 & H4 & H5 & H6 & H7 & H8).
  exists ps, new. repeat (split; [done|]). lia.
Qed.

Section HierarchicalRecursion.
Variable uninit_bounds : nat -> list float.
Variable stl : stl_file_t.
Variable thr : float.

(** One of the two recursive calls of [hierarchical_split_part], with
    the test that guards it. *)
Lemma child_step gap :
  (forall a h d ps part l,
     heap_wf h -> blocks h !! a = Some part ->
     triangle_indices part = Some l -> l <> [] ->
     (N.of_nat (length l) < 2147483648)%N -> parts d = Some ps ->
     (length ps + 2 ^ gap <= N.to_nat (decomp_capacity d))%nat ->
     exists d' h',
       hierarchical_split_from uninit_bounds gap a stl d thr h
         = Done d' h' /\
       split_result (fun _ => False) h d l (2 ^ gap) h' d') ->
  forall c h d ps part l,
    heap_wf h -> blocks h !! c = Some part ->
    triangle_indices part = Some l ->
    (N.of_nat (length l) < 2147483648)%N -> parts d = Some ps ->
    (length ps + 2 ^ gap <= N.to_nat (decomp_capacity d))%nat ->
    exists d' h',
      (if (0 <? part_num_triangles part)%nat
       then convex_part_compute_properties c stl;;
            hierarchical_split_from uninit_bounds gap c stl d thr
       else mret d) h = Done d' h' /\
      split_result (eq c) h d l (2 ^ gap) h' d' /\
      is_Some (blocks h' !! c).
Proof.
  intros IH c h d ps part l Hwf Hc Hl Hsmall Hps Hbud.
  unfold part_num_triangles. rewrite Hl.
  destruct l as [|i l]; cbn [length Nat.ltb Nat.leb].
  - exists d, h. split; [done|]. split; [|eauto].
    exists ps, []. rewrite app_nil_r. repeat (split; [done|]).
    split; [by apply grows_by_refl|]. split; [done|].
    split; [constructor|]. cbn [length]. lia.
  - destruct (compute_properties_Some c stl h part Hc) as (cv & v & Ec).
    erewrite bind_Done by exact Ec.
    set (p1 := ConvexPart (hull part) (triangle_indices part)
                 (capacity part) cv v) in *.
    assert (c < next_block h)%nat as Hlt by (apply Hwf; eauto).
    destruct (IH c (Heap (<[c := p1]> (blocks h)) (next_block h)) d ps p1
                (i :: l)) as (d' & h' & E & R); try done.
    { by apply heap_wf_insert. }
    { apply lookup_insert_eq. }
    exists d', h'. split; [exact E|].
    destruct R as (ps' & new & H1 & H2 & H3 & H4 & G & H6 & H7 & H8).
    destruct G as (Gn & Go & Gnew & Gr & Gd).
    cbn [blocks next_block] in Gn, Go, Gnew, Gr.
    split.
    + exists ps', new. repeat (split; [done|]).
      split; [|done]. split; [done|]. split; [|done].
      intros a Ha1 Ha2. rewrite Go by auto. apply lookup_insert_ne. auto.
    + rewrite Go by auto. rewrite lookup_insert_eq. eauto.
Qed.

Lemma split_from_spec gap : forall a h d ps part l,
  heap_wf h -> blocks h !! a = Some part ->
  triangle_indices part = Some l -> l <> [] ->
  (N.of_nat (length l) < 2147483648)%N -> parts d = Some ps ->
  (length ps + 2 ^ gap <= N.to_nat (decomp_capacity d))%nat ->
  exists d' h',
    hierarchical_split_from uninit_bounds gap a stl d thr h = Done d' h' /\
    split_result (fun _ => False) h d l (2 ^ gap) h' d'.
Proof.
  induction gap as [|gap IH];
    intros a h d ps part l Hwf Ha Hl Hne Hsmall Hps Hbud;
    cbn [hierarchical_split_from];
    rewrite (bind_Done _ _ _ _ _ (load_Some _ _ _ Ha));
    assert (indices_of part = l) as Hidx
      by (unfold indices_of; by rewrite Hl);
    assert (part_num_triangles part = length l) as Hnum
      by (unfold part_num_triangles; by rewrite Hl).
  - destruct (add_copy_spec uninit_bounds stl part d ps h Hwf Hps)
      as (d' & h' & E & R); [cbn in Hbud; lia|by rewrite Hidx|].
    exists d', h'. rewrite Hidx in R. eauto.
  - pose proof (pow2_pos gap) as Hpow.
    destruct (Nat.ltb_spec (part_num_triangles part) 10) as [Hlt|Hge].
    { destruct (add_copy_spec uninit_bounds stl part d ps h Hwf Hps)
        as (d' & h' & E & R);
        [rewrite Nat.pow_succ_r' in Hbud; lia|by rewrite Hidx|].
      exists d', h'. rewrite Hidx in R. split; [exact E|].
      eapply split_result_bound; [|exact R].
      rewrite Nat.pow_succ_r'. lia. }
    rewrite Nat.pow_succ_r' in Hbud |- *.
    set (axis := longest_axis (hull_bounds (hull part))).
    set (value := split_value (hull_bounds (hull part)) axis).
    set (c := N.of_nat (part_num_triangles part / 2)).
    assert (1 <= c)%N as Hc.
    { unfold c. pose proof (Nat.div_mod_eq (part_num_triangles part) 2).
      pose proof (Nat.mod_upper_bound (part_num_triangles part) 2). lia. }
    rewrite (bind_Done _ _ _ _ _ (create_spec uninit_bounds c h)).
    set (al := next_block h).
    set (h1 := Heap (<[al := fresh_part uninit_bounds al c]> (blocks h))
                 (S al)).
    rewrite (bind_Done _ _ _ _ _ (create_spec uninit_bounds c h1)).
    cbn [next_block blocks h1]. set (ar := S al).
    set (h2 := Heap (<[ar := fresh_part uninit_bounds ar c]>
                       (<[al := fresh_part uninit_bounds al c]> (blocks h)))
                 (S ar)).
    assert (al <> ar) as Hlr by (unfold ar; lia).
    assert (heap_wf h2) as Hwf2.
    { apply (heap_wf_alloc _ h1). by apply heap_wf_alloc. }
    rewrite Hidx.
    destruct (distribute_spec stl axis value al ar l h2
                (fresh_part uninit_bounds al c)
                (fresh_part uninit_bounds ar c) [] [] Hlr)
      as (capL & capR & Ed & HcL & HcR);
      try (cbn [fresh_part capacity triangle_indices length Nat.add];
           first [reflexivity|lia]).
    { cbn [h2 blocks]. rewrite lookup_insert_ne by done.
      apply lookup_insert_eq. }
    { cbn [h2 blocks]. apply lookup_insert_eq. }
    erewrite bind_Done by exact Ed. clear Ed.
    cbn [app hull center volume fresh_part].
    set (lL := filter (fun i => left_of stl axis value i = true) l).
    set (lR := filter (fun i => left_of stl axis value i = false) l).
    match goal with
    | |- context [(load al ≫= _) ?hh] => set (h3 := hh)
    end.
    assert (heap_wf h3) as Hwf3.
    { intros b. unfold h3, h2. cbn [blocks next_block].
      destruct (decide (b = ar)) as [->|?]; [lia|].
      destruct (decide (b = al)) as [->|?]; [unfold ar; lia|].
      rewrite !lookup_insert_ne by done. intros Hb%Hwf.
      unfold ar, al. lia. }
    assert (exists Lp, blocks h3 !! al = Some Lp /\
                       triangle_indices Lp = Some lL) as (Lp & HLp & HLi).
    { eexists. split.
      - unfold h3. cbn [blocks]. rewrite lookup_insert_ne by done.
        apply lookup_insert_eq.
      - reflexivity. }
    assert (exists Rp, blocks h3 !! ar = Some Rp /\
                       triangle_indices Rp = Some lR) as (Rp & HRp & HRi).
    { eexists. split.
      - unfold h3. cbn [blocks]. apply lookup_insert_eq.
      - reflexivity. }
    assert (forall b, (b < al)%nat -> blocks h3 !! b = blocks h !! b)
      as Hold.
    { intros b Hb. unfold h3, h2. cbn [blocks].
      rewrite !lookup_insert_ne by (unfold ar; lia). done. }
    assert (next_block h3 = S ar) as Hn3 by reflexivity.
    clearbody h3. clear h1 h2 Hwf2.
    pose proof (length_filter_le
                  (fun i => left_of stl axis value i = true) l) as HlenL.
    pose proof (length_filter_le
                  (fun i => left_of stl axis value i = false) l) as HlenR.
    fold lL in HlenL. fold lR in HlenR.
    rewrite (bind_Done _ _ _ _ _ (load_Some _ _ _ HLp)).
    destruct (child_step gap IH al h3 d ps Lp lL Hwf3 HLp HLi)
      as (d1 & h5 & E1 & R1 & Hal5); [lia|done|lia|].
    erewrite bind_Done by exact E1. clear E1.
    destruct R1 as (ps1 & new1 & P1 & P1' & C1 & S1 & G1 & T1 & F1 & B1).
    assert (ps1 = ps) as -> by congruence.
    assert (heap_wf h5) as Hwf5 by (eapply grows_by_wf; eauto).
    pose proof G1 as (Gn1 & Go1 & Gnew1 & Gr1 & Gd1).
    assert (blocks h5 !! ar = Some Rp) as HRp5.
    { rewrite Go1; [done|lia|lia]. }
    rewrite (bind_Done _ _ _ _ _ (load_Some _ _ _ HRp5)).
    destruct (child_step gap IH ar h5 d1 (ps ++ new1) Rp lR Hwf5 HRp5 HRi)
      as (d2 & h7 & E2 & R2 & Har7);
      [lia|done|rewrite length_app, C1; lia|].
    erewrite bind_Done by exact E2. clear E2.
    destruct R2 as (ps2 & new2 & P2 & P2' & C2 & S2 & G2 & T2 & F2 & B2).
    assert (ps2 = ps ++ new1) as -> by congruence.
    pose proof G2 as (Gn2 & Go2 & Gnew2 & Gr2 & Gd2).
    assert (is_Some (blocks h7 !! al)) as [La Hal7].
    { rewrite Go2; [done|lia|lia]. }
    unfold convex_part_free.
    rewrite (bind_Done _ _ _ _ _ (free_Some _ _ _ Hal7)).
    destruct Har7 as [Ra Har7].
    erewrite bind_Done.
    2:{ eapply free_Some. cbn [blocks].
        rewrite lookup_delete_ne by done. exact Har7. }
    cbn [blocks next_block].
    eexists _, _. split; [reflexivity|].
    set (T := fun a => a = al \/ a = ar).
    assert (grows_by T h3 (new1 ++ new2) h7) as G.
    { eapply grows_by_trans.
      - intros b [->| ->]; lia.
      - eapply grows_by_mono; [|exact G1]. intros b <-. by left.
      - eapply grows_by_mono; [|exact G2]. intros b <-. by right. }
    destruct G as (Gn & Go & Gnew & Gr & Gd).
    rewrite Forall_forall in Gr, Gr1, Gr2.
    exists ps, (new1 ++ new2).
    split; [done|]. split; [by rewrite P2', app_assoc|].
    split; [congruence|]. split; [congruence|].
    assert (forall b, b ∈ new1 ++ new2 -> b <> al /\ b <> ar) as Hfresh.
    { intros b Hb%Gr. lia. }
    assert (forall b, b <> al -> b <> ar ->
              blocks (Heap (delete ar (delete al (blocks h7)))
                        (next_block h7)) !! b = blocks h7 !! b) as Hdel.
    { intros b H1 H2. cbn [blocks]. by rewrite !lookup_delete_ne. }
    split; [|split; [|split]].
    + split; [cbn [next_block]; lia|]. split; [|split; [|split]].
      * intros b Hb _. rewrite Hdel by lia.
        rewrite Go; [by apply Hold|lia|]. unfold T. lia.
      * intros b Hb. destruct (decide (b = al)) as [->|Hnl].
        { cbn [blocks]. rewrite lookup_delete_ne by done.
          rewrite lookup_delete_eq. split; [by intros [? ?]|].
          intros Hin%Hfresh. lia. }
        destruct (decide (b = ar)) as [->|Hnr].
        { cbn [blocks]. rewrite lookup_delete_eq.
          split; [by intros [? ?]|]. intros Hin%Hfresh. lia. }
        rewrite Hdel by done. apply Gnew. lia.
      * apply Forall_forall. intros b Hb%Gr. cbn [next_block]. lia.
      * done.
    + rewrite bind_app.
      rewrite (Forall_bind_ext _ (part_triangles h5) new1).
      2:{ apply Forall_forall. intros b Hb. unfold part_triangles.
          destruct (Hfresh b) as [? ?]; [apply elem_of_app; by left|].
          rewrite Hdel by done. apply Gr1 in Hb.
          rewrite Go2; [done|lia|lia]. }
      rewrite (Forall_bind_ext _ (part_triangles h7) new2).
      2:{ apply Forall_forall. intros b Hb. unfold part_triangles.
          destruct (Hfresh b) as [? ?]; [apply elem_of_app; by right|].
          by rewrite Hdel. }
      rewrite T1, T2. apply filter_left_of_partition.
    + apply Forall_app. split; apply Forall_forall; intros b Hb.
      * destruct (Hfresh b) as [? ?]; [apply elem_of_app; by left|].
        unfold part_triangles. rewrite Hdel by done.
        rewrite Forall_forall in F1. specialize (F1 b Hb).
        unfold part_triangles in F1. apply Gr1 in Hb.
        rewrite Go2; [done|lia|lia].
      * destruct (Hfresh b) as [? ?]; [apply elem_of_app; by right|].
        unfold part_triangles. rewrite Hdel by done.
        rewrite Forall_forall in F2. by apply F2.
    + rewrite length_app. lia.
Qed.
End HierarchicalRecursion.

Lemma empty_heap_wf : heap_wf empty_heap.
Proof.
  intros a [p Hp]. unfold empty_heap in Hp. cbn [blocks] in Hp.
  by rewrite lookup_empty in Hp.
Qed.

(** Freeing the parts of a list without repetition whose parts are live. *)
Lemma free_all_spec ps : forall h,
  NoDup ps -> Forall (fun a => is_Some (blocks h !! a)) ps ->
  exists h',
    for_each convex_part_free ps h = Done tt h' /\
    next_block h' = next_block h /\
    forall a, blocks h' !! a = if decide (a ∈ ps) then None else blocks h !! a.
Proof.
  unfold for_each. induction ps as [|b ps IH]; intros h Hd Hl; cbn [foldM].
  - exists h. split; [done|]. split; [done|]. intros a.
    by rewrite decide_False by apply not_elem_of_nil.
  - apply NoDup_cons in Hd as [Hb Hd]. apply Forall_cons in Hl as [[p Hp] Hl].
    unfold convex_part_free at 1.
    rewrite (bind_Done _ _ _ _ _ (free_Some _ _ _ Hp)).
    destruct (IH (Heap (delete b (blocks h)) (next_block h)) Hd)
      as (h' & E & Hn & Hlook).
    { apply Forall_forall. intros a Ha. cbn [blocks].
      rewrite Forall_forall in Hl. rewrite lookup_delete_ne; [by apply Hl|].
      by intros ->. }
    exists h'. split; [exact E|]. split; [exact Hn|]. intros a.
    rewrite Hlook. cbn [blocks].
    destruct (decide (a = b)) as [->|Hne].
    + rewrite decide_False by done. rewrite lookup_delete_eq.
      by rewrite decide_True by left.
    + rewrite lookup_delete_ne by done.
      destruct (decide (a ∈ ps)) as [Hin|Hnin].
      * by rewrite decide_True by (by right).
      * rewrite decide_False; [done|]. by intros [?|?]%elem_of_cons.
Qed.

Lemma length_bind_nonempty {A B} (f : A -> list B) (l : list A) :
  Forall (fun a => f a <> []) l -> (length l <= length (l ≫= f))%nat.
Proof.
  induction 1 as [|a l Ha _ IH]; [done|].
  rewrite bind_cons, length_app. cbn [length].
  destruct (f a); [done|]. cbn [length]. lia.
Qed.

Section HierarchicalDecomposition.
Variable uninit_bounds : nat -> list float.

Lemma hierarchical_decomposition_spec stl max_depth thr h0 :
  heap_wf h0 -> (1 <= num_triangles stl)%nat ->
  (N.of_nat (num_triangles stl) < 2147483648)%N -> (max_depth < 31)%nat ->
  exists d h,
    hierarchical_decomposition uninit_bounds stl max_depth thr h0
      = Done (Some d) h /\
    strategy d = DECOMP_HIERARCHICAL /\
    grows_by (fun _ => False) h0 (decomposition_parts d) h /\
    decomposition_parts d ≫= part_triangles h
      ≡ₚ seq 0 (num_triangles stl) /\
    Forall (fun b => part_triangles h b <> []) (decomposition_parts d) /\
    (length (decomposition_parts d) <= 2 ^ max_depth)%nat.
Proof.
  intros Hwf Hn Hsmall Hmd. unfold hierarchical_decomposition.
  destruct (Nat.eqb_spec (num_triangles stl) 0) as [|_]; [lia|].
  destruct (Nat.leb_spec 31 max_depth) as [|_]; [lia|].
  destruct (create_full_part_spec uninit_bounds stl h0)
    as (root & Ec & Hidx & _).
  erewrite bind_Done by exact Ec. clear Ec.
  set (a0 := next_block h0) in *.
  set (h1 := Heap (<[a0 := root]> (blocks h0)) (S a0)).
  set (d0 := set_strategy _ _).
  unfold hierarchical_split_part.
  destruct (split_from_spec uninit_bounds stl thr (max_depth - 0) a0 h1 d0
              [] root (seq 0 (num_triangles stl)))
    as (d1 & h2 & Es & R).
  { by apply heap_wf_alloc. }
  { apply lookup_insert_eq. }
  { done. }
  { destruct (num_triangles stl); [lia|done]. }
  { by rewrite length_seq. }
  { reflexivity. }
  { cbn [length d0 set_strategy convex_decomposition_create decomp_capacity
         Nat.add].
    rewrite N.shiftl_1_l, N2Nat.inj_pow, Nat2N.id, Nat.sub_0_r.
    reflexivity. }
  erewrite bind_Done by exact Es. clear Es. rewrite Nat.sub_0_r in R.
  destruct R as (ps0 & new & P0 & P1 & C1 & S1 & G & T & F & B).
  assert (ps0 = []) as -> by (cbn in P0; congruence). cbn [app] in P1.
  destruct G as (Gn & Go & Gnew & Gr & Gd). cbn [next_block blocks h1] in *.
  rewrite Forall_forall in Gr.
  assert (blocks h2 !! a0 = Some root) as Hroot.
  { rewrite Go; [apply lookup_insert_eq|lia|tauto]. }
  unfold convex_part_free.
  rewrite (bind_Done _ _ _ _ _ (free_Some _ _ _ Hroot)).
  set (h3 := Heap (delete a0 (blocks h2)) (next_block h2)).
  assert (forall b, b <> a0 -> blocks h3 !! b = blocks h2 !! b) as Hdel.
  { intros b Hb. unfold h3. cbn [blocks]. by rewrite lookup_delete_ne. }
  destruct (quality_spec d1 h3) as [q Eq].
  { rewrite P1. change (default [] (Some new)) with new.
    apply Forall_forall. intros b Hb.
    pose proof (Gr b Hb). rewrite Hdel by lia. apply Gnew; [lia|done]. }
  erewrite bind_Done by exact Eq.
  eexists _, _. split; [reflexivity|].
  unfold decomposition_parts.
  cbn [set_quality parts strategy]. rewrite P1.
  change (default [] (Some new)) with new.
  split; [by rewrite S1|]. split; [|split; [|split]].
  - split; [cbn [h3 next_block]; lia|]. split; [|split; [|split]].
    + intros b Hb _. rewrite Hdel by lia. rewrite Go; [|lia|tauto].
      apply lookup_insert_ne. lia.
    + intros b Hb. destruct (decide (b = a0)) as [->|Hne].
      * unfold h3. cbn [blocks]. rewrite lookup_delete_eq.
        split; [by intros [? ?]|]. intros Hin%Gr. lia.
      * rewrite Hdel by done. apply Gnew. lia.
    + apply Forall_forall. intros b Hb%Gr. cbn [h3 next_block]. lia.
    + done.
  - rewrite (Forall_bind_ext _ (part_triangles h2) new); [exact T|].
    apply Forall_forall. intros b Hb%Gr.
    unfold part_triangles. rewrite Hdel by lia. done.
  - apply Forall_forall. intros b Hb. rewrite Forall_forall in F.
    specialize (F b Hb). apply Gr in Hb. unfold part_triangles in *.
    rewrite Hdel by lia. done.
  - done.
Qed.
End HierarchicalDecomposition.

(** X19. For a non-empty mesh of fewer than [2^31] triangles and a depth below
    31, [hierarchical_decomposition] returns a decomposition, from any
    well-formed store and whatever the uninitialised hull bounds hold: no
    step is undefined.  Its parts are live, none is empty, and together
    they hold every triangle index of the mesh exactly once. *)
Theorem hierarchical_decomposition_partitions uninit_bounds stl max_depth
    split_threshold h0 :
  heap_wf h0 -> (1 <= num_triangles stl)%nat ->
  (N.of_nat (num_triangles stl) < 2147483648)%N -> (max_depth < 31)%nat ->
  exists d h,
    hierarchical_decomposition uninit_bounds stl max_depth split_threshold h0
      = Done (Some d) h /\
    strategy d = DECOMP_HIERARCHICAL /\
    decomposition_parts d ≫= part_triangles h
      ≡ₚ seq 0 (num_triangles stl) /\
    Forall (fun b => part_triangles h b <> []) (decomposition_parts d).
Proof.
  intros Hwf Hn Hsmall Hmd.
  destruct (hierarchical_decomposition_spec uninit_bounds stl max_depth
              split_threshold h0 Hwf Hn Hsmall Hmd)
    as (d & h & E & S & _ & T & F & _).
  exists d, h. auto.
Qed.

Lemma hierarchical_decomposition_partitions_witness :
  exists d h,
    hierarchical_decomposition zero_bounds two_cluster_mesh 3 F32.one
      empty_heap = Done (Some d) h /\
    strategy d = DECOMP_HIERARCHICAL /\
    decomposition_parts d ≫= part_triangles h
      ≡ₚ seq 0 (num_triangles two_cluster_mesh) /\
    Forall (fun b => part_triangles h b <> []) (decomposition_parts d).
Proof.
  apply (hierarchical_decomposition_partitions zero_bounds two_cluster_mesh
           3 F32.one empty_heap).
  - exact empty_heap_wf.
  - cbn. lia.
  - cbn. lia.
  - lia.
Defined.

(** X20. Under the same conditions the decomposition has at most
    [2^max_depth] parts, and no more parts than the mesh has triangles. *)
Theorem hierarchical_decomposition_part_count uninit_bounds stl max_depth
    split_threshold h0 :
  heap_wf h0 -> (1 <= num_triangles stl)%nat ->
  (N.of_nat (num_triangles stl) < 2147483648)%N -> (max_depth < 31)%nat ->
  exists d h,
    hierarchical_decomposition uninit_bounds stl max_depth split_threshold h0
      = Done (Some d) h /\
    (1 <= num_parts d <= 2 ^ max_depth)%nat /\
    (num_parts d <= num_triangles stl)%nat.
Proof.
  intros Hwf Hn Hsmall Hmd.
  destruct (hierarchical_decomposition_spec uninit_bounds stl max_depth
              split_threshold h0 Hwf Hn Hsmall Hmd)
    as (d & h & E & S & _ & T & F & B).
  exists d, h. split; [done|].
  assert (num_parts d = length (decomposition_parts d)) as ->.
  { unfold num_parts, decomposition_parts. by destruct (parts d). }
  pose proof (length_bind_nonempty _ _ F) as Hle.
  rewrite T, length_seq in Hle.
  split; [split; [|done]|done].
  destruct (decomposition_parts d); [|cbn; lia].
  apply Permutation_length in T. rewrite length_seq in T. cbn in T. lia.
Qed.

Lemma hierarchical_decomposition_part_count_witness :
  exists d h,
    hierarchical_decomposition zero_bounds two_cluster_mesh 3 F32.one
      empty_heap = Done (Some d) h /\
    (1 <= num_parts d <= 2 ^ 3)%nat /\
    (num_parts d <= num_triangles two_cluster_mesh)%nat.
Proof.
  apply (hierarchical_decomposition_part_count zero_bounds two_cluster_mesh
           3 F32.one empty_heap).
  - exact empty_heap_wf.
  - cbn. lia.
  - cbn. lia.
  - lia.
Defined.

(** X21. Nothing leaks: the blocks [hierarchical_decomposition] leaves
    allocated are the parts of the decomposition it returns, and after
    [convex_decomposition_free] the store holds exactly the blocks it held
    before the call. *)
Theorem hierarchical_decomposition_released uninit_bounds stl max_depth
    split_threshold h0 :
  heap_wf h0 -> (1 <= num_triangles stl)%nat ->
  (N.of_nat (num_triangles stl) < 2147483648)%N -> (max_depth < 31)%nat ->
  exists d h h',
    hierarchical_decomposition uninit_bounds stl max_depth split_threshold h0
      = Done (Some d) h /\
    (forall a, is_Some (blocks h !! a) <->
               is_Some (blocks h0 !! a) \/ a ∈ decomposition_parts d) /\
    convex_decomposition_free d h = Done tt h' /\
    blocks h' = blocks h0.
Proof.
  intros Hwf Hn Hsmall Hmd.
  destruct (hierarchical_decomposition_spec uninit_bounds stl max_depth
              split_threshold h0 Hwf Hn Hsmall Hmd)
    as (d & h & E & S & (Gn & Go & Gnew & Gr & Gd) & _).
  rewrite Forall_forall in Gr.
  destruct (free_all_spec (decomposition_parts d) h Gd) as (h' & Ef & _ & Hl).
  { apply Forall_forall. intros b Hb. pose proof (Gr b Hb).
    apply Gnew; [lia|done]. }
  exists d, h, h'. split; [exact E|]. split; [|split; [exact Ef|]].
  - intros a. destruct (decide (a < next_block h0)%nat) as [Hlt|Hge].
    + rewrite Go by tauto. split; [auto|]. intros [?|Hin%Gr]; [done|lia].
    + rewrite Gnew by lia. split; [auto|]. intros [Hlive%Hwf|?]; [lia|done].
  - apply map_eq. intros a. rewrite Hl.
    destruct (decide (a ∈ decomposition_parts d)) as [Hin|Hnin].
    + apply Gr in Hin. symmetry. apply eq_None_not_Some.
      intros Hlive%Hwf. lia.
    + destruct (decide (a < next_block h0)%nat) as [Hlt|Hge].
      * apply Go; tauto.
      * transitivity (@None convex_part_t).
        -- apply eq_None_not_Some. intros Hlive. apply Hnin.
           apply Gnew; [lia|done].
        -- symmetry. apply eq_None_not_Some. intros Hlive%Hwf. lia.
Qed.

Lemma hierarchical_decomposition_released_witness :
  exists d h h',
    hierarchical_decomposition zero_bounds two_cluster_mesh 3 F32.one
      empty_heap = Done (Some d) h /\
    (forall a, is_Some (blocks h !! a) <->
               is_Some (blocks empty_heap !! a) \/
               a ∈ decomposition_parts d) /\
    convex_decomposition_free d h = Done tt h' /\
    blocks h' = blocks empty_heap.
Proof.
  apply (hierarchical_decomposition_released zero_bounds two_cluster_mesh
           3 F32.one empty_heap).
  - exact empty_heap_wf.
  - cbn. lia.
  - cbn. lia.
  - lia.
Defined.

(** * The comparator of the sort *)

(** X22. [bvh_compare_triangles] always answers with opposite signs for the two
    orders of a pair; on triangles whose centroid coordinate is not a NaN
    it is transitive; a triangle whose centroid coordinate is a NaN
    compares equal to every triangle. *)
Theorem bvh_compare_triangles_order stl axis :
  (forall a b,
     bvh_compare_triangles stl axis b a
     = - bvh_compare_triangles stl axis a b) /\
  (forall a b c,
     F32.is_nan (centroid_coord stl axis a) = false ->
     F32.is_nan (centroid_coord stl axis b) = false ->
     F32.is_nan (centroid_coord stl axis c) = false ->
     bvh_compare_triangles stl axis a b <= 0 ->
     bvh_compare_triangles stl axis b c <= 0 ->
     bvh_compare_triangles stl axis a c <= 0) /\
  (forall a b,
     F32.is_nan (centroid_coord stl axis a) = true ->
     bvh_compare_triangles stl axis a b = 0 /\
     bvh_compare_triangles stl axis b a = 0).
Proof.
  split; [|split].
  - intros a b. unfold bvh_compare_triangles, F32.gtb.
    set (ca := bvh_get_center_coordinate (triangles stl !!! a) axis).
    set (cb := bvh_get_center_coordinate (triangles stl !!! b) axis).
    fold (F32.ltb cb ca) (F32.ltb ca cb).
    destruct (F32.ltb ca cb) eqn:E1, (F32.ltb cb ca) eqn:E2; try done.
    exfalso. eauto using F32Order.ltb_leb_False, F32Order.ltb_leb.
  - intros a b c Ha Hb Hc. rewrite !compare_le_iff by done.
    apply F32Order.leb_trans.
  - intros a b Ha. unfold bvh_compare_triangles, F32.gtb, centroid_coord in *.
    set (ca := bvh_get_center_coordinate (triangles stl !!! a) axis) in *.
    set (cb := bvh_get_center_coordinate (triangles stl !!! b) axis).
    destruct ca; try discriminate. by destruct cb.
Qed.

(** * Dispatch *)

(** X23. For the hierarchical strategy [decompose_model] runs
    [hierarchical_decomposition] with [max_parts] as the depth of the
    recursion; the outcome depends on no other parameter, the quality
    threshold it passes as the split threshold included. *)
Theorem decompose_model_hierarchical uninit_bounds fuel stl params t h :
  params_strategy params = DECOMP_HIERARCHICAL ->
  decompose_model uninit_bounds fuel stl params h =
  hierarchical_decomposition uninit_bounds stl
    (N.to_nat (params_max_parts params)) t h.
Proof.
  intros Hs. unfold decompose_model. rewrite Hs.
  unfold hierarchical_decomposition.
  destruct (num_triangles stl =? 0)%nat; [done|].
  destruct (31 <=? _)%nat; [done|].
  apply bind_ext; [done|]. intros root h1.
  apply bind_ext; [|done]. unfold hierarchical_split_part.
  apply hierarchical_split_from_threshold.
Qed.

Lemma decompose_model_hierarchical_witness :
  decompose_model_simple zero_bounds 5 two_cluster_mesh DECOMP_HIERARCHICAL
    3 F32.one empty_heap =
  hierarchical_decomposition zero_bounds two_cluster_mesh 3 F32.zero
    empty_heap.
Proof.
  apply (decompose_model_hierarchical zero_bounds 5 two_cluster_mesh
           (DecompositionParams DECOMP_HIERARCHICAL 3 F32.one F32.tenth
              F32.one 10) F32.zero empty_heap).
  reflexivity.
Defined.

(** * The voxel strategy: a NaN voxel size *)

(** X24. A voxel size that is a NaN passes the test [voxel_size <= 0] and
    reaches the conversion of a NaN to [int], which is undefined. *)
Theorem voxel_based_decomposition_nan_size uninit_bounds stl voxel_size
    min_triangles h :
  F32.is_nan voxel_size = true -> (1 <= num_triangles stl)%nat ->
  voxel_based_decomposition uninit_bounds stl voxel_size min_triangles h
  = Undefined CastOutOfRange.
Proof.
  intros Hnan Hn. destruct voxel_size; try discriminate.
  unfold voxel_based_decomposition.
  destruct (Nat.eqb_spec (num_triangles stl) 0) as [|_]; [lia|].
  cbn [orb]. change (F32.leb S754_nan F32.zero) with false. cbv iota.
  assert (num_voxels stl S754_nan 0 = None) as ->; [|done].
  unfold num_voxels, F32.div.
  by destruct (F32.sub _ _).
Qed.

Lemma voxel_based_decomposition_nan_size_witness :
  voxel_based_decomposition zero_bounds cube_mesh S754_nan 2 empty_heap
  = Undefined CastOutOfRange.
Proof.
  apply (voxel_based_decomposition_nan_size zero_bounds cube_mesh S754_nan 2
           empty_heap).
  - reflexivity.
  - cbn. lia.
Defined.

(** * The approximate strategy at its edges *)

Lemma bind_OutOfFuel {A B} (m : M A) (f : A -> M B) h :
  m h = OutOfFuel -> (m ≫= f) h = OutOfFuel.
Proof. unfold mbind, M_bind. by intros ->. Qed.

Lemma filter_one_side (f : nat -> bool) (l : list nat) :
  Forall (fun i => f i = false) l ->
  filter (fun i => f i = true) l = [] /\
  filter (fun i => f i = false) l = l.
Proof.
  induction 1 as [|i l Hi _ [IH1 IH2]]; [done|].
  rewrite !filter_cons, IH1, IH2, Hi.
  destruct (decide (false = true)) as [?|_]; [done|].
  by destruct (decide (false = false)) as [_|?].
Qed.

Section ApproximateEdges.
Variable uninit_bounds : nat -> list float.
Variable stl : stl_file_t.

(** The initial part, with the hull [convex_part_create] left in it. *)
Lemma create_full_part_hull h :
  exists part,
    create_full_part uninit_bounds stl h =
    Done (next_block h)
      (Heap (<[next_block h := part]> (blocks h)) (S (next_block h))) /\
    triangle_indices part = Some (seq 0 (num_triangles stl)) /\
    hull part = ConvexHull None 0 0 (uninit_bounds (next_block h)).
Proof.
  unfold create_full_part.
  erewrite bind_Done by reflexivity.
  erewrite bind_Done.
  2:{ apply (fill_loop _ _ []) with
        (part := fresh_part uninit_bounds (next_block h)
                   (N.of_nat (num_triangles stl))).
      - apply lookup_insert_eq.
      - reflexivity.
      - cbn [capacity fresh_part length]. rewrite length_seq. lia. }
  cbn [hull capacity center volume fresh_part app blocks next_block].
  rewrite insert_insert_eq.
  match goal with
  | |- context [(_ ≫= _) ?hh] =>
      destruct (compute_properties_Some (next_block h) stl hh _
                  (lookup_insert_eq _ _ _)) as (c & v & Ec)
  end.
  erewrite bind_Done by exact Ec.
  cbn [hull capacity triangle_indices blocks next_block].
  rewrite insert_insert_eq. eexists. split; [reflexivity|]. by split.
Qed.

Section Unbounded.
Variable max_parts : N.
Variable tol : float.
Variable l : list nat.
Hypothesis Htol : F32.leb F32.zero tol = false.
Hypothesis Hlen : (10 <= length l)%nat.
Hypothesis Hsmall : (N.of_nat (length l) <= 2147483648)%N.
Hypothesis Hside : forall a,
  Forall (fun i =>
            left_of stl (longest_axis (uninit_bounds a))
              (split_value (uninit_bounds a)
                 (longest_axis (uninit_bounds a))) i = false) l.

(** Every level of the recursion hands all the triangles to the right
    half, which is a part like the one it started from. *)
Lemma approximate_part_unbounded fuel : forall a b part h d,
  blocks h !! a = Some part -> triangle_indices part = Some l ->
  hull part = ConvexHull None 0 0 (uninit_bounds b) ->
  (N.of_nat (num_parts d) < max_parts)%N ->
  approximate_decompose_part uninit_bounds fuel a stl d max_parts tol h
  = OutOfFuel.
Proof.
  induction fuel as [|fuel IH]; intros a b part h d Ha Hl Hh Hd; [done|].
  cbn [approximate_decompose_part].
  rewrite (bind_Done _ _ _ _ _ (load_Some _ _ _ Ha)).
  assert (indices_of part = l) as Hidx
    by (unfold indices_of; by rewrite Hl).
  assert (part_num_triangles part = length l) as Hnum
    by (unfold part_num_triangles; by rewrite Hl).
  rewrite Hnum, Hidx.
  destruct (Nat.eqb_spec (length l) 0) as [|_]; [lia|].
  destruct (N.leb_spec max_parts (N.of_nat (num_parts d))) as [|_]; [lia|].
  unfold compute_part_concavity.
  erewrite bind_Done.
  2:{ erewrite bind_Done by (apply load_Some, Ha). reflexivity. }
  rewrite (hull_empty_concavity part)
    by (unfold hull_empty; by rewrite Hh).
  rewrite Htol. cbn [orb].
  destruct (Nat.ltb_spec (length l) 10) as [|_]; [lia|].
  rewrite Hh. cbn [hull_bounds].
  set (bb := uninit_bounds b).
  set (axis := longest_axis bb). set (value := split_value bb axis).
  set (c := N.of_nat (length l / 2)).
  assert (1 <= c)%N as Hc.
  { unfold c. pose proof (Nat.div_mod_eq (length l) 2).
    pose proof (Nat.mod_upper_bound (length l) 2). lia. }
  rewrite (bind_Done _ _ _ _ _ (create_spec uninit_bounds c h)).
  set (al := next_block h).
  set (h1 := Heap (<[al := fresh_part uninit_bounds al c]> (blocks h))
               (S al)).
  rewrite (bind_Done _ _ _ _ _ (create_spec uninit_bounds c h1)).
  cbn [next_block blocks h1]. set (ar := S al).
  set (h2 := Heap (<[ar := fresh_part uninit_bounds ar c]>
                     (<[al := fresh_part uninit_bounds al c]> (blocks h)))
               (S ar)).
  assert (al <> ar) as Hlr by (unfold ar; lia).
  destruct (distribute_spec stl axis value al ar l h2
              (fresh_part uninit_bounds al c)
              (fresh_part uninit_bounds ar c) [] [] Hlr)
    as (capL & capR & Ed & HcL & HcR);
    try (cbn [fresh_part capacity triangle_indices length Nat.add];
         first [reflexivity|lia]).
  { cbn [h2 blocks]. rewrite lookup_insert_ne by done.
    apply lookup_insert_eq. }
  { cbn [h2 blocks]. apply lookup_insert_eq. }
  erewrite bind_Done by exact Ed. clear Ed.
  cbn [app hull center volume fresh_part].
  destruct (filter_one_side (left_of stl axis value) l (Hside b))
    as [-> ->].
  erewrite bind_Done.
  2:{ apply load_Some. cbn [blocks]. rewrite lookup_insert_ne by done.
      apply lookup_insert_eq. }
  cbn [part_num_triangles triangle_indices length].
  change (0 <? 0)%nat with false. cbv iota.
  erewrite bind_Done by reflexivity.
  erewrite bind_Done by (apply load_Some, lookup_insert_eq).
  unfold part_num_triangles at 1. cbn [triangle_indices].
  destruct (Nat.ltb_spec 0 (length l)) as [_|]; [|lia].
  apply bind_OutOfFuel.
  match goal with
  | |- context [(_ ≫= _) ?hh] =>
      destruct (compute_properties_Some ar stl hh _
                  (lookup_insert_eq _ _ _)) as (cv & v & Ec)
  end.
  erewrite bind_Done by exact Ec.
  eapply (IH ar ar); [apply lookup_insert_eq|reflexivity|reflexivity|done].
Qed.
End Unbounded.
End ApproximateEdges.

(** X25. With a concavity tolerance below 0 (or a NaN) the recursion of
    [approximate_decompose_part] has no base case left on a mesh of at
    least 10 triangles whose centres all lie on the right of the split
    value that the uninitialised bounds give: every level hands all the
    triangles to the right half, and no depth of recursion is enough. *)
Theorem approximate_decomposition_unbounded uninit_bounds stl max_parts
    quality_threshold tol fuel h :
  F32.leb F32.zero tol = false ->
  (10 <= num_triangles stl)%nat ->
  (N.of_nat (num_triangles stl) <= 2147483648)%N ->
  (1 <= max_parts)%N ->
  (forall a,
     Forall (fun i =>
               left_of stl (longest_axis (uninit_bounds a))
                 (split_value (uninit_bounds a)
                    (longest_axis (uninit_bounds a))) i = false)
       (seq 0 (num_triangles stl))) ->
  approximate_convex_decomposition uninit_bounds fuel stl max_parts
    quality_threshold tol h = OutOfFuel.
Proof.
  intros Htol Hn Hsmall Hmax Hside.
  unfold approximate_convex_decomposition.
  destruct (Nat.eqb_spec (num_triangles stl) 0) as [|_]; [lia|].
  apply bind_OutOfFuel. unfold approximate_build.
  destruct (create_full_part_hull uninit_bounds stl h)
    as (part & Ec & Hidx & Hh).
  erewrite bind_Done by exact Ec.
  apply bind_OutOfFuel.
  eapply (approximate_part_unbounded uninit_bounds stl max_parts tol
            (seq 0 (num_triangles stl)));
    rewrite ?length_seq; try done.
  - apply lookup_insert_eq.
  - cbn. lia.
Qed.

Lemma approximate_decomposition_unbounded_witness :
  approximate_convex_decomposition zero_bounds 1000 cube_mesh 8 F32.one
    (F32.opp F32.one) empty_heap = OutOfFuel.
Proof.
  apply (approximate_decomposition_unbounded zero_bounds cube_mesh 8 F32.one
           (F32.opp F32.one) 1000 empty_heap).
  - reflexivity.
  - apply Nat.leb_le. vm_compute; reflexivity.
  - vm_compute. discriminate.
  - vm_compute. discriminate.
  - intros a. apply Forall_forall. intros i Hi.
    apply elem_of_seq in Hi. cbn in Hi.
    do 12 (destruct i as [|i]; [vm_compute; reflexivity|]). lia.
Defined.

(** X26. With [max_parts = 0] and the C library's [realloc] that frees on size
    0, [approximate_convex_decomposition] of a non-empty mesh returns a
    decomposition without parts array and with score 0, and every block
    it allocated is freed again. *)
Theorem approximate_no_room uninit_bounds fuel stl quality_threshold tol h :
  heap_wf h -> (1 <= num_triangles stl)%nat ->
  exists d h',
    approximate_convex_decomposition uninit_bounds (S fuel) stl 0
      quality_threshold tol h = Done (Some d) h' /\
    parts d = None /\ decomp_capacity d = 0%N /\
    decomposition_quality d = F32.zero /\
    blocks h' = blocks h.
Proof.
  intros Hwf Hn. unfold approximate_convex_decomposition.
  destruct (Nat.eqb_spec (num_triangles stl) 0) as [|_]; [lia|].
  unfold approximate_build.
  destruct (create_full_part_hull uninit_bounds stl h)
    as (part & Ec & Hidx & Hh).
  erewrite bind_Done.
  2:{ erewrite bind_Done by exact Ec.
      cbn [approximate_decompose_part].
      erewrite bind_Done.
      2:{ erewrite bind_Done by (apply load_Some, lookup_insert_eq).
          unfold part_num_triangles. rewrite Hidx, length_seq.
          destruct (Nat.eqb_spec (num_triangles stl) 0) as [|_]; [lia|].
          reflexivity. }
      erewrite bind_Done
        by (unfold convex_part_free; eapply free_Some, lookup_insert_eq).
      reflexivity. }
  eexists _, _. split; [reflexivity|]. cbn.
  repeat (split; [reflexivity|]).
  apply delete_insert_id.
  destruct (blocks h !! next_block h) eqn:E; [|done].
  assert (next_block h < next_block h)%nat by (apply Hwf; eauto). lia.
Qed.

Lemma approximate_no_room_witness :
  exists d h',
    approximate_convex_decomposition zero_bounds 1 cube_mesh 0 F32.one
      F32.tenth empty_heap = Done (Some d) h' /\
    parts d = None /\ decomp_capacity d = 0%N /\
    decomposition_quality d = F32.zero /\
    blocks h' = blocks empty_heap.
Proof.
  apply (approximate_no_room zero_bounds 0 cube_mesh F32.one F32.tenth
           empty_heap).
  - intros a [x Hx]. unfold empty_heap in Hx. cbn [blocks] in Hx.
    by rewrite lookup_empty in Hx.
  - cbn. lia.
Defined.

(** * The geometry utilities *)

Module F32Sym.
Import F32.

Lemma mul_comm a b : mul a b = mul b a.
Proof.
  unfold mul, SFmul.
  destruct a as [sa|sa| |sa ma ea], b as [sb|sb| |sb mb eb];
    rewrite ?(xorb_comm sb sa); try reflexivity.
  by rewrite (Pos.mul_comm mb ma), (Z.add_comm eb ea).
Qed.

Lemma round_aux_opp s m e l :
  binary_round_aux prec emax (negb s) m e l
  = opp (binary_round_aux prec emax s m e l).
Proof.
  unfold binary_round_aux.
  destruct (shr_fexp prec emax m e l) as [r1 e1].
  destruct (shr_fexp prec emax _ e1 loc_Exact) as [r2 e2].
  destruct (shr_m r2); [done| |done].
  by destruct (e2 <=? emax - prec).
Qed.

Lemma round_opp s m e :
  binary_round prec emax (negb s) m e = opp (binary_round prec emax s m e).
Proof.
  unfold binary_round. destruct (shl_align _ _ _). apply round_aux_opp.
Qed.

Lemma same_number_refl a : same_number a a.
Proof. by left. Qed.

Lemma same_number_sym a b : same_number a b -> same_number b a.
Proof. intros [->|[]]; [by left|by right]. Qed.

Lemma same_number_trans a b c :
  same_number a b -> same_number b c -> same_number a c.
Proof.
  intros [->|[Ha Hb]] [<-|[Hb' Hc]]; try (by left); try (by right).
Qed.

Lemma normalize_opp m e :
  same_number (binary_normalize prec emax (- m) e false)
    (opp (binary_normalize prec emax m e false)).
Proof.
  destruct m as [|m|m]; cbn [Z.opp binary_normalize].
  - by right.
  - left. apply (round_opp false).
  - left. by rewrite <- (round_opp true).
Qed.

(** [b - a] is the number [-(a - b)]. *)
Lemma sub_swap a b : same_number (sub b a) (opp (sub a b)).
Proof.
  unfold sub, SFsub.
  destruct a as [sa|sa| |sa ma ea], b as [sb|sb| |sb mb eb];
    try (left; reflexivity);
    try (destruct sa, sb; first [left; reflexivity|right; done]);
    try (destruct sa; left; reflexivity);
    try (destruct sb; left; reflexivity).
  cbv zeta. rewrite (Z.min_comm eb ea).
  set (ez := Z.min ea eb).
  set (A := cond_Zopp sa _). set (B := cond_Zopp sb _).
  replace (B - A) with (- (A - B)) by lia. apply normalize_opp.
Qed.

Lemma opp_same a b : same_number a b -> same_number (opp a) (opp b).
Proof.
  intros [->|[Ha Hb]]; [by left|]. right. by destruct a, b.
Qed.

Lemma opp_opp a : opp (opp a) = a.
Proof. destruct a; cbn; by rewrite ?negb_involutive. Qed.

Lemma sub_same a a' b b' :
  same_number a a' -> same_number b b' ->
  same_number (sub a b) (sub a' b').
Proof.
  intros [->|[Ha Ha']] [->|[Hb Hb']]; [by left|..];
    unfold sub, SFsub.
  - destruct b; try discriminate. destruct b'; try discriminate.
    destruct a' as [[]|[]| |]; try (left; reflexivity).
    all: destruct s, s0; first [left; reflexivity|right; done].
  - destruct a; try discriminate. destruct a'; try discriminate.
    destruct b' as [[]|[]| |]; try (left; reflexivity).
    all: destruct s, s0; first [left; reflexivity|right; done].
  - destruct a, a', b, b'; try discriminate.
    destruct s, s0, s1, s2; first [left; reflexivity|right; done].
Qed.

Lemma mul_same a a' b b' :
  same_number a a' -> same_number b b' ->
  same_number (mul a b) (mul a' b').
Proof.
  intros [->|[Ha Ha']] [->|[Hb Hb']]; [by left|..];
    unfold mul, SFmul.
  - destruct b; try discriminate. destruct b'; try discriminate.
    destruct a'; first [left; reflexivity|right; done].
  - destruct a; try discriminate. destruct a'; try discriminate.
    destruct b'; first [left; reflexivity|right; done].
  - destruct a, a', b, b'; try discriminate. by right.
Qed.

Lemma mul_opp_opp a b : mul (opp a) (opp b) = mul a b.
Proof.
  unfold mul, SFmul, opp.
  destruct a as [sa|sa| |sa ma ea], b as [sb|sb| |sb mb eb];
    cbn [SFopp]; rewrite ?xorb_negb_negb; reflexivity.
Qed.

(** The square is the same for the two zeros. *)
Lemma square_same a b : same_number a b -> mul a a = mul b b.
Proof.
  intros [->|[Ha Hb]]; [done|].
  destruct a, b; try discriminate. cbn. by rewrite !xorb_nilpotent.
Qed.

Lemma square_swap a b : mul (sub b a) (sub b a) = mul (sub a b) (sub a b).
Proof.
  rewrite (square_same _ _ (sub_swap a b)). apply mul_opp_opp.
Qed.

Lemma ltb_same_l a a' c : same_number a a' -> ltb a c = ltb a' c.
Proof.
  intros [->|[Ha Ha']]; [done|]. by destruct a, a'.
Qed.

Lemma ltb_same_r a a' c : same_number a a' -> ltb c a = ltb c a'.
Proof.
  intros [->|[Ha Ha']]; [done|]. destruct a, a'; try discriminate.
  by destruct c.
Qed.

Lemma ltb_opp_zero v : ltb zero (opp v) = ltb v zero.
Proof. by destruct v as [[]|[]| |[] ? ?]. Qed.

Lemma ltb_zero_opp v : ltb (opp v) zero = ltb zero v.
Proof. by destruct v as [[]|[]| |[] ? ?]. Qed.

Lemma ltb_zero_exclusive v : ltb zero v = true -> ltb v zero = false.
Proof. by destruct v as [[]|[]| |[] ? ?]. Qed.
End F32Sym.

(** X27. [dot_product_3d] is symmetric in its two vectors: the two orders
    give the same float (every NaN counted as one value). *)
Theorem dot_product_3d_sym x1 y1 z1 x2 y2 z2 :
  dot_product_3d x2 y2 z2 x1 y1 z1 = dot_product_3d x1 y1 z1 x2 y2 z2.
Proof.
  unfold dot_product_3d.
  by rewrite (F32Sym.mul_comm x2), (F32Sym.mul_comm y2),
    (F32Sym.mul_comm z2).
Qed.

(** X28. [distance_3d] is symmetric in its two points: the two orders give
    the same float (every NaN counted as one value), whatever the
    coordinates are. *)
Theorem distance_3d_sym x1 y1 z1 x2 y2 z2 :
  distance_3d x2 y2 z2 x1 y1 z1 = distance_3d x1 y1 z1 x2 y2 z2.
Proof.
  unfold distance_3d. cbv zeta.
  by rewrite (F32Sym.square_swap x2 x1), (F32Sym.square_swap y2 y1),
    (F32Sym.square_swap z2 z1).
Qed.

(** X29. Exchanging the two vectors negates [cross_product_2d]: the result is
    the opposite number (up to the sign of a zero). *)
Theorem cross_product_2d_antisym x1 y1 x2 y2 :
  same_number (cross_product_2d x2 y2 x1 y1)
    (F32.opp (cross_product_2d x1 y1 x2 y2)).
Proof. unfold cross_product_2d. apply F32Sym.sub_swap. Qed.

(** X30. Reversing the order of the three points negates [orientation_2d],
    whatever the coordinates are. *)
Theorem orientation_2d_reverse x1 y1 x2 y2 x3 y3 :
  orientation_2d x3 y3 x2 y2 x1 y1 = - orientation_2d x1 y1 x2 y2 x3 y3.
Proof.
  unfold orientation_2d. cbv zeta.
  set (a1 := F32.sub y2 y1). set (a2 := F32.sub x3 x2).
  set (b1 := F32.sub x2 x1). set (b2 := F32.sub y3 y2).
  set (v := F32.sub (F32.mul a1 a2) (F32.mul b1 b2)).
  set (v' := F32.sub _ _).
  assert (same_number v' (F32.opp v)) as Hv.
  { unfold v', v.
    eapply F32Sym.same_number_trans; [|apply F32Sym.sub_swap].
    apply F32Sym.sub_same.
    - rewrite <- (F32Sym.mul_opp_opp b1 b2), (F32Sym.mul_comm (F32.opp b1)).
      apply F32Sym.mul_same; apply F32Sym.sub_swap.
    - rewrite <- (F32Sym.mul_opp_opp a1 a2), (F32Sym.mul_comm (F32.opp a1)).
      apply F32Sym.mul_same; apply F32Sym.sub_swap. }
  unfold F32.gtb.
  fold (F32.ltb F32.zero v') (F32.ltb F32.zero v).
  rewrite (F32Sym.ltb_same_r _ _ F32.zero Hv),
    (F32Sym.ltb_same_l _ _ F32.zero Hv),
    F32Sym.ltb_opp_zero, F32Sym.ltb_zero_opp.
  destruct (F32.ltb F32.zero v) eqn:E1.
  - rewrite (F32Sym.ltb_zero_exclusive v E1). reflexivity.
  - by destruct (F32.ltb v F32.zero).
Qed.
